(** * Exponential-Idle arrow puzzle solver: the solving engine of
    [solver_backend.py], embedded in Rocq.

    Python integers are [Z]; tile indices (ranks given by [enumerate],
    positions in a board) are [nat].  A Python [set] is a [gset], a [dict]
    a [gmap]; numpy arrays of [int64] are lists of [Z] whose arithmetic
    wraps around at 64 bits. *)

From Stdlib Require Import ZArith Lia.
From stdpp Require Import base numbers option list sorting gmap fin_sets fin_maps strings.

Local Open Scope Z_scope.

(** ** Python helpers *)

(** [range(a, b)]. *)
Definition py_range (a b : Z) : list Z := seqZ a (b - a).

(** A dict built from a sequence of items: a later item overwrites an
    earlier one with the same key. *)
Definition py_dict `{Countable K} {V} (items : list (K * V)) : gmap K V :=
  foldl (λ d kv, <[kv.1 := kv.2]> d) ∅ items.

(** [d[k]]: the lookups written this way in the source always hit a key
    that is present (see the [_present] lemmas); the default is never used. *)
Definition py_getitem `{Countable K} `{Inhabited V} (d : gmap K V) (k : K) : V :=
  default inhabitant (d !! k).

(** ** Hexagon topology: [get_hexagon_board_details] *)

Module Hex.

Definition axial_coords (radius : Z) : gset (Z * Z) :=
  list_to_set
    (q ← py_range (- radius) (radius + 1);
     r ← py_range (Z.max (- radius) (- q - radius))
                  (Z.min radius (- q + radius) + 1);
     [(q, r)]).

(** Returns [(row, col)]. *)
Definition axial_to_offset (q r : Z) : Z * Z :=
  let col := q in
  let row := r + (q - Z.land q 1) `div` 2 in
  (row, col).

Definition offset_coords_unnormalized (radius : Z) : gset (Z * Z) :=
  set_map (λ a : Z * Z, axial_to_offset a.1 a.2) (axial_coords radius).

(** [min] of a sequence with first element [x]. *)
Definition py_min (x : Z) (xs : list Z) : Z := foldl Z.min x xs.

Definition normalize (min_r min_c : Z) (c : Z * Z) : Z * Z :=
  (c.1 - min_r, c.2 - min_c).

Definition axial_directions : list (Z * Z) :=
  [(1, 0); (1, -1); (0, -1); (-1, 0); (-1, 1); (0, 1)].

(** The sort key [(item[1], item[0])], compared as Python compares tuples. *)
Definition key_le (a b : Z * Z) : Prop :=
  a.2 < b.2 ∨ (a.2 = b.2 ∧ a.1 ≤ b.1).

Global Instance key_le_dec a b : Decision (key_le a b).
Proof. unfold key_le. apply _. Defined.

(** Everything the function computes after the emptiness test, from the
    two minima on. *)
Section Details.
Variable radius : Z.
Variables min_r min_c : Z.

Definition norm_offset (a : Z * Z) : Z * Z :=
  normalize min_r min_c (axial_to_offset a.1 a.2).

Definition valid_cells : gset (Z * Z) :=
  set_map (normalize min_r min_c) (offset_coords_unnormalized radius).

(** The loop filling [offset_to_axial_map] and [axial_to_offset_map]. *)
Definition coord_maps : gmap (Z * Z) (Z * Z) * gmap (Z * Z) (Z * Z) :=
  set_fold (λ (a : Z * Z) maps,
              (<[norm_offset a := a]> maps.1, <[a := norm_offset a]> maps.2))
           (∅, ∅) (axial_coords radius).

Definition offset_to_axial_map : gmap (Z * Z) (Z * Z) := coord_maps.1.
Definition axial_to_offset_map : gmap (Z * Z) (Z * Z) := coord_maps.2.

(** The inner loop over [axial_directions] for one cell. *)
Definition add_neighbors (cell_offset : Z * Z)
    (adj : gmap (Z * Z) (list (Z * Z))) : gmap (Z * Z) (list (Z * Z)) :=
  let start_axial := py_getitem offset_to_axial_map cell_offset in
  foldl (λ adj (d : Z * Z),
           let neighbor_axial := (start_axial.1 + d.1, start_axial.2 + d.2) in
           match axial_to_offset_map !! neighbor_axial with
           | Some n => alter (λ l, l ++ [n]) cell_offset adj
           | None => adj
           end)
        adj axial_directions.

Definition adjacency_map_by_coord : gmap (Z * Z) (list (Z * Z)) :=
  set_fold add_neighbors
           (set_to_map (λ cell, (cell, [cell])) valid_cells)
           valid_cells.

Definition sorted_coords : list (Z * Z) :=
  merge_sort key_le (elements valid_cells).

Definition coord_to_index : gmap (Z * Z) nat :=
  py_dict (zip sorted_coords (seq 0 (length sorted_coords))).

Definition adj_map_indices : gmap nat (list nat) :=
  py_dict ((λ item : (Z * Z) * list (Z * Z),
              (py_getitem coord_to_index item.1,
               merge_sort le (py_getitem coord_to_index <$> item.2)))
           <$> map_to_list adjacency_map_by_coord).
End Details.

Definition get_hexagon_board_details (radius : Z) : gmap nat (list nat) :=
  match elements (offset_coords_unnormalized radius) with
  | [] => ∅
  | c :: cs =>
      let min_r := py_min c.1 (fst <$> cs) in
      let min_c := py_min c.2 (snd <$> cs) in
      adj_map_indices radius min_r min_c
  end.

End Hex.

(** ** Numeric model *)

(** A numpy [int64] value: the result of an arithmetic operation wraps
    around at 64 bits; a result that fits is that result. *)
Definition int64_half : Z := Eval cbv in 2 ^ 63.

Definition i64 (z : Z) : Z :=
  if decide (- int64_half ≤ z < int64_half) then z
  else (z + int64_half) mod (2 * int64_half) - int64_half.

Inductive exception := ValueError.

(** What a call does: it returns a value or raises. *)
Inductive pyresult (T : Type) :=
  | Return (v : T)
  | Raise (e : exception).
Arguments Return {T} v.
Arguments Raise {T} e.

Definition bind {T U} (c : pyresult T) (k : T → pyresult U) : pyresult U :=
  match c with
  | Return v => k v
  | Raise e => Raise e
  end.

Notation "x ←' c ; k" := (bind c (λ x, k))
  (at level 20, c at level 100, k at level 200, right associativity).

(** ** Gaussian elimination modulo [m]: [gaussian_elimination_mod] *)

Module Gauss.

(** [M[r]] and [M[r, c]]; the indices the algorithm uses are within the
    shape of the [n] by [n + 1] array it works on when [A] is square.
    Outside of the array numpy raises [IndexError], where [row] is the
    empty row and [entry] is 0: the statements on arrays of any shape
    take [A] with [n] rows of [n] entries. *)
Definition row (M : list (list Z)) (r : nat) : list Z := default [] (M !! r).
Definition entry (M : list (list Z)) (r c : nat) : Z := default 0 (row M r !! c).

(** [np.hstack([A, b.reshape(-1, 1)])]: raises [ValueError] unless [b] has
    as many entries as [A] has rows. *)
Definition stack (A : list (list Z)) (b : list Z) : list (list Z) :=
  zip_with (λ r v, r ++ [v]) A b.

Definition hstack (A : list (list Z)) (b : list Z) : pyresult (list (list Z)) :=
  if decide (length A = length b)
  then Return (stack A b)
  else Raise ValueError.

(** [while pivot_row < n and Ab[pivot_row, i] == 0: pivot_row += 1], the
    loop running at most [fuel = n - pivot_row] times. *)
Fixpoint scan_pivot (Ab : list (list Z)) (i pivot_row fuel : nat) : nat :=
  match fuel with
  | O => pivot_row
  | S fuel' =>
      if decide (entry Ab pivot_row i = 0)
      then scan_pivot Ab i (S pivot_row) fuel'
      else pivot_row
  end.

Definition find_pivot (Ab : list (list Z)) (n i : nat) : nat :=
  scan_pivot Ab i i (n - i).

(** [Ab[[i, pivot_row]] = Ab[[pivot_row, i]]]. *)
Definition swap_rows (Ab : list (list Z)) (i pivot_row : nat) : list (list Z) :=
  let ri := row Ab i in
  let rp := row Ab pivot_row in
  <[pivot_row := ri]> (<[i := rp]> Ab).

(** [pow(v, -1, m)]: the inverse of [v] modulo [m] in [[0, m)], and [None]
    where Python raises [ValueError] as there is none.  This is [pow]
    for a modulus [m >= 0]; Python also inverts modulo a negative [m],
    with a result in [(m, 0]], which no statement below relies on. *)
Definition mod_inverse (v m : Z) : option Z :=
  list_find (λ k, (v * k) mod m = 1 mod m) (py_range 0 m) ≫= λ ik, Some ik.2.

(** [(Ab[i] * inv) % m], the product wrapping at 64 bits.  The modulus
    is a Python [int] that numpy converts to [int64]: this is the code
    for [0 < m < 2 ^ 63]; with a larger [m] numpy raises
    [OverflowError]. *)
Definition scale_row (m inv : Z) (r : list Z) : list Z :=
  (λ v, i64 (v * inv) mod m) <$> r.

(** [(Ab[j] - Ab[j, i] * Ab[i]) % m], under the same bound on [m]. *)
Definition sub_row (m c : Z) (rj ri : list Z) : list Z :=
  zip_with (λ a p, i64 (a - i64 (c * p)) mod m) rj ri.

(** The [for j in range(n)] loop that clears column [i]. *)
Definition clear_column (m : Z) (n i : nat) (Ab : list (list Z)) : list (list Z) :=
  foldl (λ Ab j,
           if decide (i ≠ j)
           then <[j := sub_row m (entry Ab j i) (row Ab j) (row Ab i)]> Ab
           else Ab)
        Ab (seq 0 n).

(** One turn of the [for i in range(n)] loop; [None] is [return None]. *)
Definition pivot_step (m : Z) (n : nat) (Ab : list (list Z)) (i : nat)
    : option (list (list Z)) :=
  let pivot_row := find_pivot Ab n i in
  if decide (pivot_row = n) then Some Ab
  else
    let Ab := swap_rows Ab i pivot_row in
    match mod_inverse (entry Ab i i) m with
    | None => None
    | Some inv =>
        let Ab := <[i := scale_row m inv (row Ab i)]> Ab in
        Some (clear_column m n i Ab)
    end.

Definition eliminate_from (m : Z) (n : nat) (cols : list nat) (Ab : list (list Z))
    : option (list (list Z)) :=
  foldl (λ st i, st ≫= λ Ab, pivot_step m n Ab i) (Some Ab) cols.

Definition eliminate (m : Z) (n : nat) (Ab : list (list Z)) : option (list (list Z)) :=
  eliminate_from m n (seq 0 n) Ab.

(** [np.any(np.all(Ab[:, :-1] == 0, axis=1) & (Ab[:, -1] != 0))]. *)
Definition inconsistent (Ab : list (list Z)) : bool :=
  existsb (λ r, forallb (λ v, bool_decide (v = 0)) (removelast r)
                && negb (bool_decide (default 0 (last r) = 0))) Ab.

(** [np.dot] of two [int64] vectors. *)
Definition dot (u v : list Z) : Z := i64 (foldr Z.add 0 (zip_with Z.mul u v)).

(** One turn of the back-substitution loop; [Ab[i, i + 1:-1]] are the
    columns [i + 1 .. n - 1] and [Ab[i, -1]] is column [n].  On the [n]
    by [n + 1] array of a square [A] the two arguments of [np.dot] have
    the same length, as [take] and [drop] give them here; on another
    shape [np.dot] raises.  [val % m] is the code's for
    [0 < m < 2 ^ 63]. *)
Definition back_step (m : Z) (n : nat) (Ab : list (list Z)) (x : list Z) (i : nat)
    : list Z :=
  if decide (entry Ab i i = 1) then
    let val := i64 (entry Ab i n - dot (take (n - S i) (drop (S i) (row Ab i)))
                                       (drop (S i) x)) in
    <[i := val mod m]> x
  else <[i := 0]> x.

Definition back_substitute (m : Z) (n : nat) (Ab : list (list Z)) : list Z :=
  foldl (back_step m n Ab) (replicate n 0) (reverse (seq 0 n)).

Definition gaussian_elimination_mod (A : list (list Z)) (b : list Z) (m : Z)
    : pyresult (option (list Z)) :=
  let n := length A in
  Ab ←' hstack A b;
  match eliminate m n Ab with
  | None => Return None
  | Some Ab =>
      if inconsistent Ab then Return None
      else Return (Some (back_substitute m n Ab))
  end.

End Gauss.

(** ** The facade: [solve] *)

Inductive Board :=
  | Flat (cells : list Z)
  | Nested (rows : list (list Z)).

Inductive Layout := Grid | Hexagon.

Inductive Click :=
  | GridClick (r c : nat)
  | HexClick (i : nat).

Record SolutionStep := {
  click : Click;
  affected_tiles : list nat;
  board_state : list Z
}.

Module Facade.

(** [np.array(initial_board).flatten()]: a nested board whose rows differ
    in length is not an integer array, and the arithmetic on it raises.
    The cells are Python integers within [int64], which numpy keeps as
    they are; with a cell outside of it the array is one of floats or of
    objects. *)
Definition flatten (initial_board : Board) : pyresult (list Z) :=
  match initial_board with
  | Flat cells => Return cells
  | Nested [] => Return []
  | Nested (r :: rows) =>
      if forallb (λ r', bool_decide (length r' = length r)) rows
      then Return (concat (r :: rows))
      else Raise ValueError
  end.

Record Config := {
  size_rc : nat;
  modulus : Z;
  layout : Layout;
  n : nat
}.

(** The [if]/[elif] chain on [difficulty]; [size_rc] is not assigned for
    the hexagon (and not read there). *)
Definition configure (difficulty : string) : option Config :=
  if decide (difficulty = "easy"%string) then
    Some {| size_rc := 3; modulus := 4; layout := Grid; n := 3 * 3 |}
  else if decide (difficulty = "medium"%string) then
    Some {| size_rc := 4; modulus := 4; layout := Grid; n := 4 * 4 |}
  else if decide (difficulty = "hard"%string ∨ difficulty = "expert"%string) then
    Some {| size_rc := 0;
            modulus := if decide (difficulty = "hard"%string) then 2 else 6;
            layout := Hexagon; n := 37 |}
  else None.

Definition grid_affects (size_rc i k : nat) : Prop :=
  Z.abs (Z.of_nat (i / size_rc) - Z.of_nat (k / size_rc)) ≤ 1
  ∧ Z.abs (Z.of_nat (i mod size_rc) - Z.of_nat (k mod size_rc)) ≤ 1.

Global Instance grid_affects_dec s i k : Decision (grid_affects s i k).
Proof. unfold grid_affects. apply _. Defined.

Definition grid_adj_map (size_rc n : nat) : gmap nat (list nat) :=
  py_dict ((λ k, (k, filter (λ i, grid_affects size_rc i k) (seq 0 n))) <$> seq 0 n).

Definition adj_map_of (cfg : Config) : gmap nat (list nat) :=
  match layout cfg with
  | Grid => grid_adj_map (size_rc cfg) (n cfg)
  | Hexagon => Hex.get_hexagon_board_details 3
  end.

(** [A[tile_idx, button_idx] = 1]. *)
Definition set_entry (A : list (list Z)) (r c : nat) (v : Z) : list (list Z) :=
  alter (λ l, <[c := v]> l) r A.

Definition effects_matrix (n : nat) (adj_map : gmap nat (list nat)) : list (list Z) :=
  foldl (λ A (item : nat * list nat),
           foldl (λ A tile_idx, set_entry A tile_idx item.1 1) A item.2)
        (replicate n (replicate n 0)) (map_to_list adj_map).

(** [(1 - initial_flat) % modulus], on an [int64] array. *)
Definition target_vector (modulus : Z) (initial_flat : list Z) : list Z :=
  (λ v, i64 (1 - v) mod modulus) <$> initial_flat.

(** The inner [for k in range(6)] search with its [break]; [x[i]] keeps
    its initial 0 when no [k] fits. *)
Definition crt_digit (a2 a3 : Z) : Z :=
  default 0 (list_find (λ k, k mod 2 = a2 ∧ k mod 3 = a3) (py_range 0 6)
             ≫= λ ik, Some ik.2).

Definition crt_combine (n : nat) (x_mod2 x_mod3 : list Z) : list Z :=
  (λ i, crt_digit (default 0 (x_mod2 !! i)) (default 0 (x_mod3 !! i))) <$> seq 0 n.

(** Lines 183-196: the press counts [x], or [None]. *)
Definition press_counts (difficulty : string) (cfg : Config)
    (A : list (list Z)) (b : list Z) : pyresult (option (list Z)) :=
  if decide (difficulty = "expert"%string) then
    x_mod2 ←' Gauss.gaussian_elimination_mod A ((λ v, v mod 2) <$> b) 2;
    x_mod3 ←' Gauss.gaussian_elimination_mod A ((λ v, v mod 3) <$> b) 3;
    match x_mod2, x_mod3 with
    | Some x2, Some x3 => Return (Some (crt_combine (n cfg) x2 x3))
    | _, _ => Return None
    end
  else Gauss.gaussian_elimination_mod A b (modulus cfg).

Definition click_of (cfg : Config) (i : nat) : Click :=
  match layout cfg with
  | Grid => GridClick (i / size_rc cfg) (i mod size_rc cfg)
  | Hexagon => HexClick i
  end.

Definition click_path (cfg : Config) (x : list Z) : list Click :=
  concat (imap (λ i count,
                  if decide (0 < count)
                  then replicate (Z.to_nat count) (click_of cfg i)
                  else []) x).

Definition click_index (cfg : Config) (c : Click) : nat :=
  match c with
  | HexClick i => i
  | GridClick r c => (r * size_rc cfg + c)%nat
  end.

(** [((v - 1 + 1) % modulus) + 1] on an [int64] scalar. *)
Definition press_tile (modulus : Z) (v : Z) : Z :=
  i64 (i64 (i64 (v - 1) + 1) mod modulus + 1).

Definition apply_click (modulus : Z) (affected : list nat) (current_board : list Z)
    : list Z :=
  foldl (λ board tile_idx, alter (press_tile modulus) tile_idx board)
        current_board affected.

(** The replay loop: the state is [current_board] and [solution_steps]. *)
Definition replay (cfg : Config) (adj_map : gmap nat (list nat))
    (initial_flat : list Z) (clicks : list Click) : list Z * list SolutionStep :=
  foldl (λ (st : list Z * list SolutionStep) c,
           let affected := default [] (adj_map !! click_index cfg c) in
           let board := apply_click (modulus cfg) affected st.1 in
           (board, st.2 ++ [{| click := c; affected_tiles := affected;
                               board_state := board |}]))
        (initial_flat, []) clicks.

Definition solve (initial_board : Board) (difficulty : string)
    : pyresult (option (list SolutionStep)) :=
  match configure difficulty with
  | None => Return None
  | Some cfg =>
      let adj_map := adj_map_of cfg in
      let A := effects_matrix (n cfg) adj_map in
      initial_flat ←' flatten initial_board;
      let b := target_vector (modulus cfg) initial_flat in
      x ←' press_counts difficulty cfg A b;
      match x with
      | None => Return None
      | Some x =>
          Return (Some (replay cfg adj_map initial_flat (click_path cfg x)).2)
      end
  end.

End Facade.

(** ** Vocabulary of the statements *)

(** Every entry of the array is a residue in [[0, m)]. *)
Definition reduced (m : Z) (M : list (list Z)) : Prop :=
  Forall (Forall (λ v, 0 ≤ v < m)) M.

(** An array of [n] rows of [w] entries. *)
Definition shaped (n w : nat) (M : list (list Z)) : Prop :=
  length M = n ∧ Forall (λ r, length r = w) M.

(** The cells appended to the list of the cell of axial coordinate [a],
    in the order of [axial_directions]; the value of
    [coord_to_index[coord]]; and the sorted list of the tile of [a]. *)
Definition hex_neighbors_of (radius min_r min_c : Z) (a : Z * Z) : list (Z * Z) :=
  omap (λ d : Z * Z,
          Hex.axial_to_offset_map radius min_r min_c !! (a.1 + d.1, a.2 + d.2))
       Hex.axial_directions.

Definition hex_index_of (radius min_r min_c : Z) (c : Z * Z) : nat :=
  py_getitem (Hex.coord_to_index radius min_r min_c) c.

Definition hex_affected_of (radius min_r min_c : Z) (a : Z * Z) : list nat :=
  merge_sort le (hex_index_of radius min_r min_c
                 <$> (Hex.norm_offset min_r min_c a
                      :: hex_neighbors_of radius min_r min_c a)).

(** [sum(r[k] * y[k])] over the integers. *)
Definition lin (r y : list Z) : Z := foldr Z.add 0 (zip_with Z.mul r y).

(** The row [r] of an augmented array holds for [x] modulo [m]: its
    coefficients applied to [x] give its last entry. *)
Definition row_holds (m : Z) (x : list Z) (r : list Z) : Prop :=
  (m | lin r (x ++ [-1])).

(** Row [t] of an eliminated coefficient matrix: a pivot row has a 1 on
    the diagonal and zeros before it; a zero row is all zeros. *)
Definition pivot_row (R : list (list Z)) (t : nat) : Prop :=
  take (S t) (Gauss.row R t) = replicate t 0 ++ [1].

Definition zero_row (n : nat) (R : list (list Z)) (t : nat) : Prop :=
  Gauss.row R t = replicate n 0.

Definition echelon (n : nat) (R : list (list Z)) : Prop :=
  Forall (λ t, pivot_row R t ∨ zero_row n R t) (seq 0 n).

Global Instance echelon_dec n R : Decision (echelon n R).
Proof. unfold echelon, pivot_row, zero_row. apply _. Defined.

(** Elimination of the coefficient matrix [A] alone succeeds and ends in
    pivot rows and zero rows. *)
Definition elim_certificate (m : Z) (n : nat) (A : list (list Z)) : Prop :=
  match Gauss.eliminate m n A with
  | Some R => echelon n R
  | None => False
  end.

Global Instance elim_certificate_dec m n A : Decision (elim_certificate m n A).
Proof. unfold elim_certificate. destruct (Gauss.eliminate m n A); apply _. Defined.

(** The board the replay ends on: the snapshot of the last step, or the
    initial board when there is no step. *)
Definition final_board (initial_flat : list Z) (steps : list SolutionStep) : list Z :=
  match last steps with
  | Some s => board_state s
  | None => initial_flat
  end.

(** The clicks of buttons [i0], [i0 + 1], ... for the press counts [x],
    and how many of them hit tile [t]. *)
Fixpoint clicks_from (cfg : Facade.Config) (i0 : nat) (x : list Z) : list Click :=
  match x with
  | [] => []
  | count :: x' =>
      replicate (Z.to_nat count) (Facade.click_of cfg i0) ++ clicks_from cfg (S i0) x'
  end.

Fixpoint hits (adj_map : gmap nat (list nat)) (t i0 : nat) (x : list Z) : nat :=
  match x with
  | [] => 0
  | count :: x' =>
      ((if decide (t ∈ default [] (adj_map !! i0)) then Z.to_nat count else 0)
       + hits adj_map t (S i0) x')%nat
  end.

(** The adjacency lists have no duplicates, and [A[t, i]] is 1 exactly
    for the tiles [t] of the list of button [i]. *)
Definition topology_ok (n : nat) (adj_map : gmap nat (list nat))
    (A : list (list Z)) : Prop :=
  map_Forall (λ _ l, NoDup l) adj_map
  ∧ Forall (λ i, Forall (λ t, Gauss.entry A t i
                              = if decide (t ∈ default [] (adj_map !! i)) then 1 else 0)
                        (seq 0 n))
           (seq 0 n).

Global Instance topology_ok_dec n adj_map A : Decision (topology_ok n adj_map A).
Proof. unfold topology_ok. apply _. Defined.

(** What is checked, by evaluation, of a system: the shape and entries
    of the effects matrix, its agreement with the adjacency map, and the
    outcome of its elimination for every modulus the solver is called
    with. *)
Definition system_ok (moduli : list Z) (n : nat) (adj_map : gmap nat (list nat))
    (A : list (list Z)) : Prop :=
  shaped n n A ∧ reduced 2 A ∧ topology_ok n adj_map A
  ∧ Forall (λ m, elim_certificate m n A) moduli.

Global Instance system_ok_dec moduli n adj_map A :
  Decision (system_ok moduli n adj_map A).
Proof. unfold system_ok, shaped, reduced. apply _. Defined.

(** The system a difficulty leads to. *)
Definition solver_certificate (difficulty : string) (cfg : Facade.Config) : Prop :=
  system_ok (if decide (difficulty = "expert"%string) then [2; 3]
             else [Facade.modulus cfg])
            (Facade.n cfg) (Facade.adj_map_of cfg)
            (Facade.effects_matrix (Facade.n cfg) (Facade.adj_map_of cfg)).

Global Instance solver_certificate_dec difficulty cfg :
  Decision (solver_certificate difficulty cfg).
Proof. unfold solver_certificate. apply _. Defined.

(** [x] solves [A x = b] modulo [m]. *)
Definition solves (m : Z) (A : list (list Z)) (b x : list Z) : Prop :=
  ∀ t r v, A !! t = Some r → b !! t = Some v → (m | lin r x - v).

(** The value the back-substitution loop writes at position [t], given
    the entries of [x] after position [t]. *)
Definition back_value (m : Z) (n : nat) (Ab : list (list Z)) (x : list Z) (t : nat) : Z :=
  if decide (Gauss.entry Ab t t = 1) then
    i64 (Gauss.entry Ab t n
         - Gauss.dot (take (n - S t) (drop (S t) (Gauss.row Ab t))) (drop (S t) x)) mod m
  else 0.

(** One turn of the replay loop, on the board alone. *)
Definition click_board (cfg : Facade.Config) (adj_map : gmap nat (list nat))
    (board : list Z) (c : Click) : list Z :=
  Facade.apply_click (Facade.modulus cfg)
    (default [] (adj_map !! Facade.click_index cfg c)) board.

(** A hard-mode board that has no solution. *)
Definition unsolvable_hard_board : Board := Flat (0 :: replicate 36 1).

(** The four configurations [solve] derives from the difficulty. *)
Definition easy_cfg : Facade.Config :=
  {| Facade.size_rc := 3; Facade.modulus := 4; Facade.layout := Grid; Facade.n := 3 * 3 |}.
Definition medium_cfg : Facade.Config :=
  {| Facade.size_rc := 4; Facade.modulus := 4; Facade.layout := Grid; Facade.n := 4 * 4 |}.
Definition hard_cfg : Facade.Config :=
  {| Facade.size_rc := 0; Facade.modulus := 2; Facade.layout := Hexagon; Facade.n := 37 |}.
Definition expert_cfg : Facade.Config :=
  {| Facade.size_rc := 0; Facade.modulus := 6; Facade.layout := Hexagon; Facade.n := 37 |}.

Global Arguments Hex.get_hexagon_board_details : simpl never.
Global Arguments Facade.effects_matrix : simpl never.
Global Arguments Gauss.gaussian_elimination_mod : simpl never.
Global Arguments Facade.replay : simpl never.


(** ** Vocabulary of the further properties *)

(** How many of the clicks hit tile [t], and how many times each of the
    buttons [0 .. n - 1] is clicked. *)
Definition click_hits (cfg : Facade.Config) (adj_map : gmap nat (list nat))
    (t : nat) (clicks : list Click) : nat :=
  length (filter (λ c, t ∈ default [] (adj_map !! Facade.click_index cfg c)) clicks).

Definition click_counts (cfg : Facade.Config) (n : nat) (clicks : list Click) : list Z :=
  (λ i, Z.of_nat (length (filter (λ c, Facade.click_index cfg c = i) clicks))) <$> seq 0 n.

(** The [n] by [n] identity array, and the coefficient matrices whose
    elimination ends on it. *)
Definition identity (n : nat) : list (list Z) :=
  (λ i, <[i := 1]> (replicate n 0)) <$> seq 0 n.

Definition full_rank (m : Z) (n : nat) (A : list (list Z)) : Prop :=
  Gauss.eliminate m n A = Some (identity n).

Global Instance full_rank_dec m n A : Decision (full_rank m n A).
Proof. unfold full_rank. apply _. Defined.

(** ** The visualizer: [generate_hexagon_board_details] *)

Module Visualizer.

Definition axial_coords (radius : Z) : gset (Z * Z) :=
  list_to_set
    (q ← py_range (- radius) (radius + 1);
     r ← py_range (- radius) (radius + 1);
     if decide (Z.abs q + Z.abs r + Z.abs (- q - r) ≤ radius * 2) then [(q, r)] else []).

(** Returns [(row, col)]. *)
Definition axial_to_offset (q r : Z) : Z * Z :=
  let col := q in
  let row := r + (q - Z.land q 1) `div` 2 in
  (row, col).

Definition offset_coords_unnormalized (radius : Z) : gset (Z * Z) :=
  set_map (λ a : Z * Z, axial_to_offset a.1 a.2) (axial_coords radius).

Definition axial_directions : list (Z * Z) :=
  [(1, 0); (1, -1); (0, -1); (-1, 0); (-1, 1); (0, 1)].

(** [lst.index(x)]: the position of the first [x]; every call in the
    source looks up an element of the list. *)
Definition py_index (x : Z) (l : list Z) : nat :=
  default 0%nat (fst <$> list_find (λ y, y = x) l).

Section Details.
Variable radius : Z.
Variables min_r min_c : Z.

Definition norm_offset (a : Z * Z) : Z * Z :=
  ((axial_to_offset a.1 a.2).1 - min_r, (axial_to_offset a.1 a.2).2 - min_c).

Definition valid_cells : gset (Z * Z) :=
  set_map (λ c : Z * Z, (c.1 - min_r, c.2 - min_c)) (offset_coords_unnormalized radius).

Definition coord_maps : gmap (Z * Z) (Z * Z) * gmap (Z * Z) (Z * Z) :=
  set_fold (λ (a : Z * Z) maps,
              (<[norm_offset a := a]> maps.1, <[a := norm_offset a]> maps.2))
           (∅, ∅) (axial_coords radius).

Definition offset_to_axial_map : gmap (Z * Z) (Z * Z) := coord_maps.1.
Definition axial_to_offset_map : gmap (Z * Z) (Z * Z) := coord_maps.2.

Definition add_neighbors (cell_offset : Z * Z)
    (adj : gmap (Z * Z) (list (Z * Z))) : gmap (Z * Z) (list (Z * Z)) :=
  let start_axial := py_getitem offset_to_axial_map cell_offset in
  foldl (λ adj (d : Z * Z),
           let neighbor_axial := (start_axial.1 + d.1, start_axial.2 + d.2) in
           match axial_to_offset_map !! neighbor_axial with
           | Some neighbor_offset => alter (λ l, l ++ [neighbor_offset]) cell_offset adj
           | None => adj
           end)
        adj axial_directions.

Definition adjacency_map_by_coord : gmap (Z * Z) (list (Z * Z)) :=
  set_fold add_neighbors
           (set_to_map (λ cell, (cell, [cell])) valid_cells)
           valid_cells.

Definition sorted_coords : list (Z * Z) :=
  merge_sort Hex.key_le (elements valid_cells).

Definition coord_to_index : gmap (Z * Z) nat :=
  py_dict (zip sorted_coords (seq 0 (length sorted_coords))).

Definition adj_map_indices : gmap nat (list nat) :=
  py_dict ((λ item : (Z * Z) * list (Z * Z),
              (py_getitem coord_to_index item.1,
               merge_sort le (py_getitem coord_to_index <$> item.2)))
           <$> map_to_list adjacency_map_by_coord).

(** Step 7: the rendering map. *)
Definition unique_cols : list Z :=
  merge_sort Z.le (elements (list_to_set (snd <$> sorted_coords) : gset Z)).

Definition col_to_c_idx : gmap Z nat :=
  py_dict (zip unique_cols (seq 0 (length unique_cols))).

Definition rows_in_col : gmap Z (list Z) :=
  py_dict ((λ c, (c, merge_sort Z.le
                       (fst <$> filter (λ rc : Z * Z, rc.2 = c) sorted_coords)))
           <$> unique_cols).

Definition render_map : gmap nat (nat * nat) :=
  foldl (λ render_map (rc : Z * Z),
           let index := py_getitem coord_to_index rc in
           let c_idx := py_getitem col_to_c_idx rc.2 in
           let r_idx := py_index rc.1 (py_getitem rows_in_col rc.2) in
           <[index := (c_idx, r_idx)]> render_map)
        ∅ sorted_coords.
End Details.

(** Returns [(adj_map_indices, render_map, num_cols)]. *)
Definition generate_hexagon_board_details (radius : Z)
    : gmap nat (list nat) * gmap nat (nat * nat) * nat :=
  match elements (offset_coords_unnormalized radius) with
  | [] => (∅, ∅, 0%nat)
  | c :: cs =>
      let min_r := Hex.py_min c.1 (fst <$> cs) in
      let min_c := Hex.py_min c.2 (snd <$> cs) in
      (adj_map_indices radius min_r min_c,
       render_map radius min_r min_c,
       length (unique_cols radius min_r min_c))
  end.

End Visualizer.

Global Arguments Visualizer.generate_hexagon_board_details : simpl never.


(** * Properties *)

(** ** Small facts used throughout *)

Lemma i64_small (z : Z) : - 2 ^ 63 ≤ z < 2 ^ 63 → i64 z = z.
Proof. intros Hz. unfold i64. by rewrite decide_True. Qed.

Lemma i64_wrap (z : Z) : i64 z = (z + 2 ^ 63) mod 2 ^ 64 - 2 ^ 63.
Proof.
  unfold i64. case_decide as Hz; [|done].
  change int64_half with (2 ^ 63) in Hz.
  rewrite Z.mod_small by lia. lia.
Qed.

Lemma forallb_seq_lt (P : nat → bool) (n i : nat) :
  forallb P (seq 0 n) = true → (i < n)%nat → P i = true.
Proof.
  intros H Hi. rewrite forallb_forall in H.
  apply H, in_seq. lia.
Qed.

(** ** The even-q projection *)

Lemma land_1_mod (q : Z) : Z.land q 1 = q mod 2.
Proof. change 1 with (Z.ones 1). by rewrite Z.land_ones. Qed.

(** C7: the offset projection of an axial coordinate [(q, r)] is
    [col = q], [row = r + floor(q / 2)], where the quotient computed as
    [(q - (q & 1)) // 2] is the floor of [q / 2] for every integer [q],
    negative ones included: [2 * floor(q/2) <= q < 2 * floor(q/2) + 2]. *)
Theorem axial_to_offset_floor (q r : Z) :
  Hex.axial_to_offset q r = (r + q `div` 2, q)
  ∧ (q - Z.land q 1) `div` 2 = q `div` 2
  ∧ 2 * (q `div` 2) ≤ q < 2 * (q `div` 2) + 2.
Proof.
  assert (Hdiv : (q - Z.land q 1) `div` 2 = q `div` 2).
  { rewrite land_1_mod.
    rewrite (Z.div_mod q 2) at 1 by lia.
    replace (2 * q `div` 2 + q `mod` 2 - q `mod` 2) with (q `div` 2 * 2) by lia.
    by rewrite Z.div_mul. }
  split; [| split; [done |]].
  - unfold Hex.axial_to_offset. by rewrite Hdiv.
  - pose proof (Z.mod_pos_bound q 2). pose proof (Z.div_mod q 2). lia.
Qed.

(** ** The facade: difficulty and board shape *)

(** C8: for any board, a difficulty label other than easy, medium, hard
    and expert makes [solve] return [None] at once; it does not raise. *)
Theorem solve_unrecognized (board : Board) (difficulty : string) :
  difficulty ∉ ["easy"; "medium"; "hard"; "expert"]%string →
  Facade.solve board difficulty = Return None.
Proof.
  intros Hd. rewrite !not_elem_of_cons in Hd.
  destruct Hd as (He & Hm & Hh & Hx & _).
  unfold Facade.solve, Facade.configure.
  rewrite !decide_False; [done | | done | done].
  by intros [? | ?].
Qed.

Lemma solve_unrecognized_witness :
  ("nightmare"%string ∉ ["easy"; "medium"; "hard"; "expert"]%string)
  ∧ Facade.solve (Flat [0; 1; 2]) "nightmare" = Return None.
Proof.
  assert (H : "nightmare"%string ∉ ["easy"; "medium"; "hard"; "expert"]%string).
  { rewrite !not_elem_of_cons. split_and!; try done. apply not_elem_of_nil. }
  split; [exact H | exact (solve_unrecognized (Flat [0; 1; 2]) "nightmare" H)].
Defined.

Lemma length_set_entry A r c v : length (Facade.set_entry A r c v) = length A.
Proof. unfold Facade.set_entry. apply length_alter. Qed.

Lemma length_effects_matrix n adj : length (Facade.effects_matrix n adj) = n.
Proof.
  unfold Facade.effects_matrix.
  assert (H : ∀ (items : list (nat * list nat)) A, length A = n →
    length (foldl (λ A (item : nat * list nat),
           foldl (λ A tile_idx, Facade.set_entry A tile_idx item.1 1) A item.2) A items) = n).
  { induction items as [|item items IH]; intros A HA; [done|].
    simpl. apply IH.
    clear IH. revert A HA. induction (item.2) as [|t ts IH]; intros A HA; [done|].
    simpl. apply IH. by rewrite length_set_entry. }
  apply H. apply length_replicate.
Qed.

Lemma hstack_raises A b : length A ≠ length b → Gauss.hstack A b = Raise ValueError.
Proof. intros H. unfold Gauss.hstack. by rewrite decide_False. Qed.

Lemma gaussian_raises A b m :
  length A ≠ length b → Gauss.gaussian_elimination_mod A b m = Raise ValueError.
Proof. intros H. unfold Gauss.gaussian_elimination_mod. by rewrite hstack_raises. Qed.

Lemma configure_n difficulty cfg :
  Facade.configure difficulty = Some cfg →
  Facade.n cfg = 9%nat ∨ Facade.n cfg = 16%nat ∨ Facade.n cfg = 37%nat.
Proof.
  unfold Facade.configure. intros H.
  repeat case_decide; simplify_eq; simpl; auto.
Qed.

(** C9: for a recognized difficulty, a board that does not flatten to
    exactly [n] entries (9, 16 or 37) makes [solve] raise: no list of
    steps, partial or not, is returned, and neither is [None]. *)
Theorem solve_malformed_length (board : Board) (difficulty : string) (cfg : Facade.Config) :
  Facade.configure difficulty = Some cfg →
  (∀ flat, Facade.flatten board = Return flat → length flat ≠ Facade.n cfg) →
  ∃ e, Facade.solve board difficulty = Raise e.
Proof.
  intros Hcfg Hlen. unfold Facade.solve. rewrite Hcfg.
  destruct (Facade.flatten board) as [flat | e] eqn:Hflat; simpl; [| by eexists].
  specialize (Hlen flat eq_refl).
  assert (Hne : ∀ f : Z → Z, length (Facade.effects_matrix (Facade.n cfg) (Facade.adj_map_of cfg))
          ≠ length (f <$> Facade.target_vector (Facade.modulus cfg) flat)).
  { intros f. rewrite length_effects_matrix. unfold Facade.target_vector.
    rewrite !length_fmap. done. }
  exists ValueError. unfold Facade.press_counts.
  case_decide.
  - rewrite gaussian_raises by apply Hne. done.
  - rewrite gaussian_raises; [done|].
    rewrite length_effects_matrix. unfold Facade.target_vector.
    rewrite !length_fmap. done.
Qed.

Lemma solve_malformed_length_witness :
  ∃ e, Facade.solve (Nested [[0; 1]; [2; 3]]) "easy" = Raise e.
Proof.
  apply (solve_malformed_length (Nested [[0; 1]; [2; 3]]) "easy"
           {| Facade.size_rc := 3; Facade.modulus := 4;
              Facade.layout := Grid; Facade.n := 3 * 3 |}).
  - reflexivity.
  - intros flat Hflat. vm_compute in Hflat. inversion Hflat. simpl. lia.
Defined.

(** ** Dictionaries *)

Section PyDict.
Context `{Countable K} {V : Type}.
Implicit Types (items : list (K * V)) (k : K) (v : V).

Lemma py_dict_snoc items kv :
  py_dict (items ++ [kv]) = <[kv.1 := kv.2]> (py_dict items).
Proof. unfold py_dict. by rewrite foldl_app. Qed.

Lemma py_dict_lookup items k v :
  NoDup items.*1 → py_dict items !! k = Some v ↔ (k, v) ∈ items.
Proof.
  induction items as [|kv items IH] using rev_ind; intros Hnd.
  - unfold py_dict. simpl. rewrite lookup_empty. split; [done|]. by intros ?%elem_of_nil.
  - rewrite fmap_app in Hnd. apply NoDup_app in Hnd as (Hnd & Hfresh & _).
    rewrite py_dict_snoc, lookup_insert_Some, elem_of_app, list_elem_of_singleton.
    rewrite (IH Hnd). destruct kv as [k' v']. simpl. split.
    + intros [[-> ->] | [_ Hin]]; [by right | by left].
    + intros [Hin | [= -> ->]]; [|by left].
      right. split; [|done]. intros ->.
      apply (Hfresh k); [|by left].
      apply list_elem_of_fmap. by exists (k, v).
Qed.

Lemma py_dict_lookup_None items k :
  py_dict items !! k = None ↔ k ∉ items.*1.
Proof.
  induction items as [|kv items IH] using rev_ind.
  - unfold py_dict. simpl. rewrite lookup_empty. split; [|done]. intros _ ?%elem_of_nil. done.
  - rewrite py_dict_snoc, lookup_insert_None, fmap_app, not_elem_of_app, IH.
    simpl. rewrite not_elem_of_cons. split.
    + intros [? ?]. split; [done|]. split; [done|]. apply not_elem_of_nil.
    + intros [? [? _]]. done.
Qed.

Lemma py_dict_size items :
  NoDup items.*1 → size (py_dict items) = length items.
Proof.
  induction items as [|kv items IH] using rev_ind; intros Hnd.
  - unfold py_dict. simpl. apply map_size_empty.
  - rewrite fmap_app in Hnd. apply NoDup_app in Hnd as (Hnd & Hfresh & _).
    rewrite py_dict_snoc, map_size_insert_None, (IH Hnd), length_app; [simpl; lia|].
    apply py_dict_lookup_None. intros Hin. apply (Hfresh _ Hin). by left.
Qed.
End PyDict.

(** ** Sorting *)

Lemma StronglySorted_le_lt (l : list nat) :
  StronglySorted le l → NoDup l → StronglySorted lt l.
Proof.
  induction 1 as [|x l _ IH Hx]; intros Hnd; [constructor|].
  apply NoDup_cons in Hnd as [Hnotin Hnd].
  constructor; [by apply IH|].
  apply Forall_forall. intros y Hy.
  rewrite Forall_forall in Hx. specialize (Hx y Hy).
  assert (x ≠ y) by (by intros ->). lia.
Qed.

Lemma merge_sort_le_strict (l : list nat) :
  NoDup l → StronglySorted lt (merge_sort le l).
Proof.
  intros Hnd. apply StronglySorted_le_lt.
  - apply (StronglySorted_merge_sort le).
  - by rewrite merge_sort_Permutation.
Qed.

(** ** The hexagon topology for any radius *)

Section HexTopology.
Import Hex.
Variables (radius min_r min_c : Z).

Abbreviation AC := (axial_coords radius).
Abbreviation no := (norm_offset min_r min_c).
Abbreviation VC := (valid_cells radius min_r min_c).
Abbreviation o2a := (offset_to_axial_map radius min_r min_c).
Abbreviation a2o := (axial_to_offset_map radius min_r min_c).

Lemma elem_of_axial_coords (a : Z * Z) :
  a ∈ AC ↔
  - radius ≤ a.1 ≤ radius
  ∧ Z.max (- radius) (- a.1 - radius) ≤ a.2 ≤ Z.min radius (- a.1 + radius).
Proof.
  unfold axial_coords, py_range. rewrite elem_of_list_to_set, list_elem_of_bind.
  split.
  - intros (q & Hin & Hq). apply list_elem_of_bind in Hin as (r & Hin & Hr).
    apply list_elem_of_singleton in Hin as ->. simpl.
    apply elem_of_seqZ in Hq, Hr. lia.
  - intros [Hq Hr]. exists a.1. split.
    + apply list_elem_of_bind. exists a.2. split.
      * destruct a. simpl. by apply list_elem_of_singleton.
      * apply elem_of_seqZ. lia.
    + apply elem_of_seqZ. lia.
Qed.

Lemma norm_offset_inj (a a' : Z * Z) : no a = no a' → a = a'.
Proof.
  destruct a as [q r], a' as [q' r'].
  unfold norm_offset, normalize, axial_to_offset. simpl.
  intros [= Hrow Hcol].
  assert (q = q') as -> by lia. f_equal. lia.
Qed.

Lemma elem_of_valid_cells (c : Z * Z) :
  c ∈ VC ↔ ∃ a, a ∈ AC ∧ c = no a.
Proof.
  unfold valid_cells, offset_coords_unnormalized.
  rewrite elem_of_map. split.
  - intros (o & -> & Ho). apply elem_of_map in Ho as (a & -> & Ha). by exists a.
  - intros (a & Ha & ->). exists (axial_to_offset a.1 a.2). split; [done|].
    apply elem_of_map. by exists a.
Qed.

(** *** The two coordinate dictionaries *)

Lemma coord_maps_spec :
  (∀ c a, o2a !! c = Some a ↔ a ∈ AC ∧ c = no a)
  ∧ (∀ a c, a2o !! a = Some c ↔ a ∈ AC ∧ c = no a).
Proof.
  unfold offset_to_axial_map, axial_to_offset_map, coord_maps.
  apply (set_fold_ind_L
    (λ (maps : gmap (Z * Z) (Z * Z) * gmap (Z * Z) (Z * Z)) (X : gset (Z * Z)),
       (∀ c a, maps.1 !! c = Some a ↔ a ∈ X ∧ c = no a)
       ∧ (∀ a c, maps.2 !! a = Some c ↔ a ∈ X ∧ c = no a))).
  - simpl. split; intros ??; rewrite lookup_empty;
      (split; [done | by intros [?%not_elem_of_empty _]]).
  - intros x X maps Hx [IH1 IH2]. simpl. split.
    + intros c a. rewrite lookup_insert_Some, IH1, elem_of_union, elem_of_singleton.
      split.
      * intros [[<- <-] | [Hne [Ha ->]]]; auto.
      * intros [[-> | Ha] ->]; [by left|].
        right. split; [|done]. intros Heq%norm_offset_inj. by subst.
    + intros a c. rewrite lookup_insert_Some, IH2, elem_of_union, elem_of_singleton.
      split.
      * intros [[<- <-] | [Hne [Ha ->]]]; auto.
      * intros [[-> | Ha] ->]; [by left|].
        right. split; [|done]. by intros ->.
Qed.

Lemma lookup_offset_to_axial (a : Z * Z) : a ∈ AC → o2a !! no a = Some a.
Proof. intros Ha. by apply coord_maps_spec. Qed.

(** The lookup [offset_to_axial_map[cell_offset]] hits a present key. *)
Lemma offset_to_axial_present (c : Z * Z) : c ∈ VC → is_Some (o2a !! c).
Proof.
  intros (a & Ha & ->)%elem_of_valid_cells. exists a.
  by apply lookup_offset_to_axial.
Qed.

Lemma getitem_offset_to_axial (a : Z * Z) : a ∈ AC → py_getitem o2a (no a) = a.
Proof. intros Ha. unfold py_getitem. by rewrite lookup_offset_to_axial. Qed.

Lemma lookup_axial_to_offset (a : Z * Z) :
  a2o !! a = if decide (a ∈ AC) then Some (no a) else None.
Proof.
  destruct coord_maps_spec as [_ H2].
  case_decide as Ha.
  - by apply H2.
  - apply eq_None_not_Some. intros [c Hc]. apply H2 in Hc as [? _]. done.
Qed.

(** *** Neighbours of a cell *)

Abbreviation neighbors_of := (hex_neighbors_of radius min_r min_c).

Lemma add_neighbors_alter (a : Z * Z) (adj : gmap (Z * Z) (list (Z * Z))) :
  a ∈ AC →
  add_neighbors radius min_r min_c (no a) adj
  = alter (λ l, l ++ neighbors_of a) (no a) adj.
Proof.
  intros Ha. unfold add_neighbors, hex_neighbors_of.
  rewrite (getitem_offset_to_axial a Ha).
  generalize axial_directions. intros ds. revert adj.
  induction ds as [|d ds IH]; intros adj; simpl.
  - symmetry. apply alter_id. intros l _. apply app_nil_r.
  - rewrite IH. destruct (a2o !! _) as [n|]; [|done].
    rewrite alter_alter_eq. apply alter_ext. intros l _. simpl.
    by rewrite <- app_assoc.
Qed.

Lemma elem_of_neighbors_of (a : Z * Z) (c : Z * Z) :
  c ∈ neighbors_of a ↔
  ∃ d, d ∈ axial_directions ∧ (a.1 + d.1, a.2 + d.2) ∈ AC
       ∧ c = no (a.1 + d.1, a.2 + d.2).
Proof.
  unfold hex_neighbors_of. rewrite list_elem_of_omap. split.
  - intros (d & Hd & Hc). exists d. split; [done|].
    rewrite lookup_axial_to_offset in Hc. case_decide; by simplify_eq.
  - intros (d & Hd & Hin & ->). exists d. split; [done|].
    rewrite lookup_axial_to_offset. by rewrite decide_True.
Qed.

Lemma neighbors_of_valid (a : Z * Z) (c : Z * Z) : c ∈ neighbors_of a → c ∈ VC.
Proof.
  intros (d & _ & Hin & ->)%elem_of_neighbors_of.
  apply elem_of_valid_cells. by eexists.
Qed.

Lemma NoDup_self_neighbors_gen (a : Z * Z) (ds : list (Z * Z)) :
  NoDup ds → (0, 0) ∉ ds →
  NoDup (no a :: omap (λ d : Z * Z, a2o !! (a.1 + d.1, a.2 + d.2)) ds).
Proof.
  induction ds as [|d ds IH]; intros Hnd Hzero; simpl.
  - apply NoDup_singleton.
  - apply NoDup_cons in Hnd as [Hd Hnd].
    apply not_elem_of_cons in Hzero as [Hd0 Hzero].
    specialize (IH Hnd Hzero). apply NoDup_cons in IH as [IH1 IH2].
    rewrite lookup_axial_to_offset. case_decide as Hin; simpl; [|by apply NoDup_cons].
    apply NoDup_cons. split.
    + apply not_elem_of_cons. split; [|done].
      intros Heq%norm_offset_inj. apply Hd0.
      destruct a as [q r], d as [d1 d2]. simpl in Heq.
      injection Heq as Hq Hr. f_equal; lia.
    + apply NoDup_cons. split; [|done].
      intros (d' & Hd' & Hc)%list_elem_of_omap.
      rewrite lookup_axial_to_offset in Hc. case_decide; [|done].
      apply (inj Some) in Hc. apply norm_offset_inj in Hc.
      apply Hd. replace d with d'; [done|].
      destruct d as [d1 d2], d' as [e1 e2]. simpl in Hc.
      injection Hc as H1 H2. f_equal; lia.
Qed.

Lemma NoDup_self_neighbors (a : Z * Z) : NoDup (no a :: neighbors_of a).
Proof.
  apply NoDup_self_neighbors_gen.
  - apply (bool_decide_unpack _). by vm_compute.
  - apply (bool_decide_unpack _). by vm_compute.
Qed.

(** *** The adjacency by coordinates *)

Lemma lookup_set_to_map_self (c : Z * Z) :
  (set_to_map (λ cell : Z * Z, (cell, [cell])) VC : gmap (Z * Z) (list (Z * Z))) !! c
  = if decide (c ∈ VC) then Some [c] else None.
Proof.
  case_decide as Hc.
  - apply lookup_set_to_map; [by intros ?? _ _ ?|]. by exists c.
  - apply eq_None_not_Some. intros [l Hl].
    apply lookup_set_to_map in Hl as (y & Hy & [= -> _]); [done|]. by intros ?? _ _ ?.
Qed.

Lemma adjacency_map_by_coord_spec (a : Z * Z) :
  a ∈ AC →
  adjacency_map_by_coord radius min_r min_c !! no a = Some (no a :: neighbors_of a).
Proof.
  intros Ha. unfold adjacency_map_by_coord.
  set (init := set_to_map (λ cell : Z * Z, (cell, [cell])) VC : gmap (Z * Z) (list (Z * Z))).
  assert (Hfold : ∀ X : gset (Z * Z), X ⊆ VC →
    ∀ a, a ∈ AC →
      set_fold (add_neighbors radius min_r min_c) init X !! no a
      = if decide (no a ∈ X) then Some (no a :: neighbors_of a) else init !! no a).
  { apply (set_fold_ind_L
      (λ (adj : gmap (Z * Z) (list (Z * Z))) (X : gset (Z * Z)),
         X ⊆ VC → ∀ a, a ∈ AC →
           adj !! no a = if decide (no a ∈ X) then Some (no a :: neighbors_of a)
                         else init !! no a)).
    - intros _ a' Ha'. by rewrite decide_False by apply not_elem_of_empty.
    - intros x X adj Hx IH Hsub a' Ha'.
      assert (Hxv : x ∈ VC).
      { apply Hsub, elem_of_union_l. by apply elem_of_singleton. }
      apply elem_of_valid_cells in Hxv as (ax & Hax & ->).
      rewrite (add_neighbors_alter ax adj Hax), lookup_alter.
      assert (HX : X ⊆ VC).
      { intros y Hy. by apply Hsub, elem_of_union_r. }
      specialize (IH HX).
      destruct (decide (no ax = no a')) as [Heq | Hne].
      + apply norm_offset_inj in Heq as ->.
        rewrite (IH a' Ha'), decide_False by done.
        rewrite decide_True by (apply elem_of_union_l; by apply elem_of_singleton).
        subst init. rewrite lookup_set_to_map_self.
        rewrite decide_True by (apply elem_of_valid_cells; by eexists). done.
      + rewrite (IH a' Ha').
        destruct (decide (no a' ∈ X)).
        * by rewrite decide_True by (by apply elem_of_union_r).
        * rewrite decide_False; [done|].
          rewrite elem_of_union, elem_of_singleton. by intros [? | ?]. }
  rewrite (Hfold VC) by done.
  rewrite decide_True; [done|]. apply elem_of_valid_cells. by eexists.
Qed.

Lemma dom_adjacency_map_by_coord :
  dom (adjacency_map_by_coord radius min_r min_c) = VC.
Proof.
  unfold adjacency_map_by_coord.
  set (init := set_to_map (λ cell : Z * Z, (cell, [cell])) VC : gmap (Z * Z) (list (Z * Z))).
  assert (Hinit : dom init = VC).
  { apply set_eq. intros c. rewrite elem_of_dom. subst init.
    rewrite lookup_set_to_map_self. case_decide as Hc.
    - split; [done | by eexists].
    - split; [by intros [? ?] | done]. }
  rewrite <- Hinit at 2.
  apply (set_fold_ind_L
    (λ (adj : gmap (Z * Z) (list (Z * Z))) (X : gset (Z * Z)), dom adj = dom init)).
  - done.
  - intros x X adj _ IH. unfold add_neighbors.
    generalize axial_directions. intros ds. revert adj IH.
    induction ds as [|d ds IHds]; intros adj IH; simpl; [done|].
    apply IHds. destruct (a2o !! _); [|done]. by rewrite dom_alter_L.
Qed.

Lemma lookup_adjacency_map_by_coord (c : Z * Z) (l : list (Z * Z)) :
  adjacency_map_by_coord radius min_r min_c !! c = Some l ↔
  ∃ a, a ∈ AC ∧ c = no a ∧ l = no a :: neighbors_of a.
Proof.
  split.
  - intros Hl.
    assert (Hc : c ∈ VC).
    { rewrite <- dom_adjacency_map_by_coord. apply elem_of_dom. by eexists. }
    apply elem_of_valid_cells in Hc as (a & Ha & ->).
    exists a. rewrite (adjacency_map_by_coord_spec a Ha) in Hl. by simplify_eq.
  - intros (a & Ha & -> & ->). by apply adjacency_map_by_coord_spec.
Qed.

(** The appends [adjacency_map_by_coord[cell_offset].append(...)] find
    their key. *)
Lemma adjacency_key_present (c : Z * Z) :
  c ∈ VC → is_Some (adjacency_map_by_coord radius min_r min_c !! c).
Proof. rewrite <- dom_adjacency_map_by_coord. apply elem_of_dom. Qed.

(** *** Tile indices *)

Abbreviation sorted := (sorted_coords radius min_r min_c).
Abbreviation c2i := (coord_to_index radius min_r min_c).

Lemma sorted_coords_Permutation : sorted ≡ₚ elements VC.
Proof. apply merge_sort_Permutation. Qed.

Lemma NoDup_sorted_coords : NoDup sorted.
Proof. rewrite sorted_coords_Permutation. apply NoDup_elements. Qed.

Lemma elem_of_sorted_coords (c : Z * Z) : c ∈ sorted ↔ c ∈ VC.
Proof. by rewrite sorted_coords_Permutation, elem_of_elements. Qed.

Lemma length_sorted_coords : length sorted = size VC.
Proof. by rewrite sorted_coords_Permutation. Qed.

Lemma lookup_coord_to_index (c : Z * Z) (i : nat) :
  c2i !! c = Some i ↔ sorted !! i = Some c.
Proof.
  unfold coord_to_index. rewrite py_dict_lookup.
  2:{ rewrite fst_zip by (by rewrite length_seq). apply NoDup_sorted_coords. }
  rewrite list_elem_of_lookup. split.
  - intros (j & Hj). apply lookup_zip_with_Some in Hj as (c' & i' & [= <- <-] & Hc & Hi).
    apply lookup_seq in Hi as [-> _]. done.
  - intros Hi. exists i. apply lookup_zip_with_Some. exists c, i.
    split; [done|]. split; [done|]. apply lookup_seq. split; [done|].
    by eapply lookup_lt_Some.
Qed.

Abbreviation index_of := (hex_index_of radius min_r min_c).

Lemma index_of_lookup (i : nat) (c : Z * Z) : sorted !! i = Some c → index_of c = i.
Proof.
  intros Hi. unfold hex_index_of, py_getitem.
  apply lookup_coord_to_index in Hi. by rewrite Hi.
Qed.

Lemma lookup_index_of (c : Z * Z) : c ∈ VC → sorted !! index_of c = Some c.
Proof.
  intros Hc. apply elem_of_sorted_coords, list_elem_of_lookup in Hc as [i Hi].
  by rewrite (index_of_lookup i c Hi).
Qed.

(** The lookups [coord_to_index[...]] hit a present key. *)
Lemma coord_to_index_present (c : Z * Z) : c ∈ VC → is_Some (c2i !! c).
Proof.
  intros Hc. exists (index_of c). by apply lookup_coord_to_index, lookup_index_of.
Qed.

Lemma index_of_lt (c : Z * Z) : c ∈ VC → (index_of c < length sorted)%nat.
Proof. intros Hc. eapply lookup_lt_Some. by apply lookup_index_of. Qed.

Lemma index_of_inj (c c' : Z * Z) :
  c ∈ VC → c' ∈ VC → index_of c = index_of c' → c = c'.
Proof.
  intros Hc Hc' Heq. apply lookup_index_of in Hc, Hc'.
  rewrite Heq in Hc. congruence.
Qed.

(** *** The adjacency by tile index *)

Abbreviation adj := (adj_map_indices radius min_r min_c).

Abbreviation affected_of := (hex_affected_of radius min_r min_c).

Lemma adj_items_NoDup :
  NoDup ((λ item : (Z * Z) * list (Z * Z),
            (index_of item.1, merge_sort le (index_of <$> item.2)))
         <$> map_to_list (adjacency_map_by_coord radius min_r min_c)).*1.
Proof.
  rewrite <- list_fmap_compose.
  apply NoDup_fmap_2_strong; [|apply NoDup_map_to_list].
  intros [c l] [c' l'] Hin Hin' Heq. simpl in Heq.
  apply elem_of_map_to_list in Hin, Hin'.
  assert (c = c') as <-.
  { apply index_of_inj; [| |done]; rewrite <- dom_adjacency_map_by_coord;
      apply elem_of_dom; by eexists. }
  congruence.
Qed.

Lemma lookup_adj_map_indices (i : nat) (l : list nat) :
  adj !! i = Some l ↔ ∃ a, a ∈ AC ∧ i = index_of (no a) ∧ l = affected_of a.
Proof.
  unfold adj_map_indices. fold index_of.
  rewrite (py_dict_lookup _ _ _ adj_items_NoDup), list_elem_of_fmap. split.
  - intros ([c nbrs] & [= -> ->] & Hin). simpl.
    apply elem_of_map_to_list, lookup_adjacency_map_by_coord in Hin as (a & Ha & -> & ->).
    by exists a.
  - intros (a & Ha & -> & ->). exists (no a, no a :: neighbors_of a). split; [done|].
    by apply elem_of_map_to_list, adjacency_map_by_coord_spec.
Qed.

Lemma size_adj_map_indices : size adj = length sorted.
Proof.
  unfold adj_map_indices. fold index_of.
  rewrite (py_dict_size _ adj_items_NoDup), length_fmap, length_map_to_list.
  rewrite <- size_dom, dom_adjacency_map_by_coord. by rewrite length_sorted_coords.
Qed.

Lemma adj_map_indices_keys (i : nat) : is_Some (adj !! i) ↔ (i < size adj)%nat.
Proof.
  rewrite size_adj_map_indices. split.
  - intros [l (a & Ha & -> & _)%lookup_adj_map_indices].
    apply index_of_lt, elem_of_valid_cells. by eexists.
  - intros [c Hc]%lookup_lt_is_Some_2.
    assert (Hv : c ∈ VC) by (by eapply elem_of_sorted_coords, list_elem_of_lookup_2).
    apply elem_of_valid_cells in Hv as (a & Ha & ->).
    exists (affected_of a). apply lookup_adj_map_indices. exists a.
    split; [done|]. split; [|done]. symmetry. by apply index_of_lookup.
Qed.

Lemma elem_of_affected_of (a : Z * Z) (j : nat) :
  j ∈ affected_of a ↔
  j = index_of (no a)
  ∨ ∃ d, d ∈ axial_directions ∧ (a.1 + d.1, a.2 + d.2) ∈ AC
         ∧ j = index_of (no (a.1 + d.1, a.2 + d.2)).
Proof.
  unfold hex_affected_of. rewrite merge_sort_Permutation, fmap_cons, elem_of_cons.
  rewrite list_elem_of_fmap. split.
  - intros [-> | (c & -> & Hc)]; [by left|]. right.
    apply elem_of_neighbors_of in Hc as (d & Hd & Hin & ->). by exists d.
  - intros [-> | (d & Hd & Hin & ->)]; [by left|]. right.
    eexists. split; [done|]. apply elem_of_neighbors_of. by exists d.
Qed.

Lemma axial_directions_opposite (d : Z * Z) :
  d ∈ axial_directions → (- d.1, - d.2) ∈ axial_directions.
Proof.
  assert (H : Forall (λ d : Z * Z, (- d.1, - d.2) ∈ axial_directions) axial_directions).
  { apply (bool_decide_unpack _). by vm_compute. }
  rewrite Forall_forall in H. apply H.
Qed.

Lemma adj_map_indices_symmetric_1 (i j : nat) (l : list nat) :
  adj !! i = Some l → j ∈ l → ∃ l', adj !! j = Some l' ∧ i ∈ l'.
Proof.
  intros (a & Ha & -> & ->)%lookup_adj_map_indices Hj.
  apply elem_of_affected_of in Hj as [-> | (d & Hd & Hin & ->)].
  - exists (affected_of a). split.
    + apply lookup_adj_map_indices. by exists a.
    + apply elem_of_affected_of. by left.
  - exists (affected_of (a.1 + d.1, a.2 + d.2)). split.
    + apply lookup_adj_map_indices. by eexists.
    + apply elem_of_affected_of. right. exists (- d.1, - d.2).
      split; [by apply axial_directions_opposite|]. simpl.
      replace (a.1 + d.1 + - d.1, a.2 + d.2 + - d.2) with a; [done|].
      destruct a. simpl. f_equal; lia.
Qed.

Lemma affected_of_sorted (a : Z * Z) : a ∈ AC → StronglySorted lt (affected_of a).
Proof.
  intros Ha. apply merge_sort_le_strict.
  apply NoDup_fmap_2_strong; [|apply NoDup_self_neighbors].
  intros c c' Hc Hc'. apply index_of_inj.
  - apply elem_of_cons in Hc as [-> | Hc]; [|by eapply neighbors_of_valid].
    apply elem_of_valid_cells. by eexists.
  - apply elem_of_cons in Hc' as [-> | Hc']; [|by eapply neighbors_of_valid].
    apply elem_of_valid_cells. by eexists.
Qed.

Lemma adj_map_indices_well_formed (i : nat) (l : list nat) :
  adj !! i = Some l →
  StronglySorted lt l ∧ Forall (λ j, (j < size adj)%nat) l.
Proof.
  intros Hl. split.
  - apply lookup_adj_map_indices in Hl as (a & Ha & -> & ->).
    by apply affected_of_sorted.
  - apply Forall_forall. intros j Hj.
    destruct (adj_map_indices_symmetric_1 i j l Hl Hj) as (l' & Hl' & _).
    apply adj_map_indices_keys. by eexists.
Qed.
End HexTopology.

Lemma get_hexagon_board_details_cases (radius : Z) :
  Hex.get_hexagon_board_details radius = ∅
  ∨ ∃ min_r min_c,
      Hex.get_hexagon_board_details radius = Hex.adj_map_indices radius min_r min_c.
Proof.
  unfold Hex.get_hexagon_board_details.
  destruct (elements _) as [|c cs]; [by left|]. right. by do 2 eexists.
Qed.

(** C6: for every radius the adjacency map is symmetric: tile [j] is in
    the list of tile [i] exactly when tile [i] is in the list of tile
    [j]. *)
Theorem hexagon_adjacency_symmetric (radius : Z) (i j : nat) :
  (∃ l, Hex.get_hexagon_board_details radius !! i = Some l ∧ j ∈ l)
  ↔ (∃ l, Hex.get_hexagon_board_details radius !! j = Some l ∧ i ∈ l).
Proof.
  destruct (get_hexagon_board_details_cases radius) as [-> | (mr & mc & ->)].
  - split; intros (l & Hl & _); by rewrite lookup_empty in Hl.
  - split; intros (l & Hl & Hin); by eapply adj_map_indices_symmetric_1.
Qed.

(** ** The grid topology *)

Lemma StronglySorted_filter {A} (R : relation A) (P : A → Prop)
    `{∀ x, Decision (P x)} (l : list A) :
  StronglySorted R l → StronglySorted R (filter P l).
Proof.
  induction 1 as [|x l _ IH Hx]; [constructor|].
  rewrite filter_cons. case_decide; [|done].
  constructor; [done|].
  apply Forall_forall. intros y Hy%list_elem_of_filter.
  rewrite Forall_forall in Hx. apply Hx, Hy.
Qed.

Lemma StronglySorted_seq (s n : nat) : StronglySorted lt (seq s n).
Proof.
  revert s. induction n as [|n IH]; intros s; simpl; constructor; [apply IH|].
  apply Forall_forall. intros y Hy%elem_of_seq. lia.
Qed.

Lemma lookup_grid_adj_map (size_rc n k : nat) (l : list nat) :
  Facade.grid_adj_map size_rc n !! k = Some l ↔
  (k < n)%nat ∧ l = filter (λ i, Facade.grid_affects size_rc i k) (seq 0 n).
Proof.
  unfold Facade.grid_adj_map. rewrite py_dict_lookup.
  2:{ rewrite <- list_fmap_compose. simpl. rewrite list_fmap_id. apply NoDup_seq. }
  rewrite list_elem_of_fmap. split.
  - intros (k' & [= -> ->] & Hk%elem_of_seq). split; [lia | done].
  - intros [Hk ->]. exists k. split; [done|]. apply elem_of_seq. lia.
Qed.

Lemma size_grid_adj_map (size_rc n : nat) : size (Facade.grid_adj_map size_rc n) = n.
Proof.
  unfold Facade.grid_adj_map. rewrite py_dict_size, length_fmap, length_seq; [done|].
  rewrite <- list_fmap_compose. simpl. rewrite list_fmap_id. apply NoDup_seq.
Qed.

(** C10: every list of either adjacency map is strictly increasing and
    holds tile indices below the number [N] of tiles of the board, the
    keys of the map being 0 .. N - 1: for the hexagon of any radius, and
    for the grid of any size. *)
Theorem adjacency_lists_well_formed :
  (∀ (radius : Z) (i : nat) (l : list nat),
      Hex.get_hexagon_board_details radius !! i = Some l →
      StronglySorted lt l
      ∧ Forall (λ j, (j < size (Hex.get_hexagon_board_details radius))%nat) l
      ∧ (i < size (Hex.get_hexagon_board_details radius))%nat)
  ∧ (∀ (size_rc : nat) (k : nat) (l : list nat),
      Facade.grid_adj_map size_rc (size_rc * size_rc) !! k = Some l →
      StronglySorted lt l
      ∧ Forall (λ j, (j < size_rc * size_rc)%nat) l
      ∧ (k < size_rc * size_rc)%nat
      ∧ size (Facade.grid_adj_map size_rc (size_rc * size_rc)) = (size_rc * size_rc)%nat).
Proof.
  split.
  - intros radius i l Hl.
    destruct (get_hexagon_board_details_cases radius) as [E | (mr & mc & E)];
      rewrite E in *.
    + by rewrite lookup_empty in Hl.
    + destruct (adj_map_indices_well_formed radius mr mc i l Hl) as [Hs Hb].
      split; [done|]. split; [done|].
      apply adj_map_indices_keys. by eexists.
  - intros size_rc k l [Hk ->]%lookup_grid_adj_map.
    split; [|split; [|split]].
    + apply StronglySorted_filter, StronglySorted_seq.
    + apply Forall_forall. intros j [_ Hj%elem_of_seq]%list_elem_of_filter. lia.
    + done.
    + apply size_grid_adj_map.
Qed.

Lemma adjacency_lists_well_formed_witness :
  StronglySorted lt [14; 20; 21; 27]%nat
  ∧ StronglySorted lt [0; 1; 3; 4]%nat
  ∧ Forall (λ j, (j < 3 * 3)%nat) [0; 1; 3; 4]%nat.
Proof.
  split.
  - apply (proj1 adjacency_lists_well_formed 3 21%nat [14; 20; 21; 27]%nat).
    vm_compute. reflexivity.
  - destruct (proj2 adjacency_lists_well_formed 3%nat 0%nat [0; 1; 3; 4]%nat)
      as (Hs & Hb & _); [| by split].
    vm_compute. reflexivity.
Defined.

(** ** Gaussian elimination *)

Section GaussBasics.
Import Gauss.

Lemma row_lookup M r l : M !! r = Some l → row M r = l.
Proof. unfold row. by intros ->. Qed.

Lemma row_insert_eq M r l : (r < length M)%nat → row (<[r := l]> M) r = l.
Proof. intros H. unfold row. by rewrite list_lookup_insert_eq. Qed.

Lemma row_insert_ne M r r' l : r ≠ r' → row (<[r := l]> M) r' = row M r'.
Proof. intros H. unfold row. by rewrite list_lookup_insert_ne. Qed.

Lemma row_elem M r P : Forall P M → P [] → P (row M r).
Proof.
  intros HM Hnil. unfold row.
  destruct (M !! r) as [l|] eqn:E; simpl; [|done].
  by eapply Forall_lookup_1.
Qed.

Lemma scan_pivot_spec Ab i fuel p :
  let q := scan_pivot Ab i p fuel in
  (p ≤ q ≤ p + fuel)%nat
  ∧ (∀ r, (p ≤ r < q)%nat → entry Ab r i = 0)
  ∧ ((q < p + fuel)%nat → entry Ab q i ≠ 0).
Proof.
  revert p. induction fuel as [|fuel IH]; intros p; simpl.
  - split_and!; [lia | lia | intros; lia | lia].
  - case_decide as Hz.
    + destruct (IH (S p)) as ((? & ?) & Hzero & Hnz).
      split_and!; [lia | lia | | intros; apply Hnz; lia].
      intros r Hr. destruct (decide (r = p)) as [-> | ?]; [done|].
      apply Hzero. lia.
    + split_and!; [lia | lia | intros; lia | done].
Qed.

Lemma find_pivot_spec Ab n i :
  (i ≤ n)%nat →
  let p := find_pivot Ab n i in
  (i ≤ p ≤ n)%nat
  ∧ (∀ r, (i ≤ r < p)%nat → entry Ab r i = 0)
  ∧ ((p < n)%nat → entry Ab p i ≠ 0).
Proof.
  intros Hi. unfold find_pivot.
  destruct (scan_pivot_spec Ab i (n - i) i) as ((? & ?) & Hzero & Hnz).
  split_and!; [lia | lia | done | intros; apply Hnz; lia].
Qed.

(** *** The modular inverse *)

Lemma mod_inverse_Some v m k :
  mod_inverse v m = Some k → 0 ≤ k < m ∧ (v * k) mod m = 1 mod m.
Proof.
  unfold mod_inverse. intros H.
  destruct (list_find _ _) as [[j k']|] eqn:E; simplify_eq/=.
  apply list_find_Some in E as (Hl & HP & _).
  split; [|done].
  apply list_elem_of_lookup_2 in Hl. unfold py_range in Hl.
  apply elem_of_seqZ in Hl. lia.
Qed.

Lemma mod_inverse_None v m :
  2 ≤ m → (mod_inverse v m = None ↔ Z.gcd v m ≠ 1).
Proof.
  intros Hm. split.
  - intros Hnone Hgcd.
    apply Z.gcd_bezout in Hgcd as (u & w & Huw).
    unfold mod_inverse in Hnone.
    destruct (list_find _ _) as [[j k']|] eqn:E; [done|].
    apply list_find_None in E. rewrite Forall_forall in E.
    apply (E (u mod m)).
    + unfold py_range. apply elem_of_seqZ.
      pose proof (Z.mod_pos_bound u m). lia.
    + rewrite Z.mul_mod_idemp_r by lia.
      replace (v * u) with (1 + (- w) * m) by lia.
      by rewrite Z.mod_add by lia.
  - intros Hgcd. destruct (mod_inverse v m) as [k|] eqn:E; [|done].
    exfalso. apply Hgcd.
    apply mod_inverse_Some in E as (_ & E).
    rewrite (Z.mod_small 1) in E by lia.
    pose proof (Z.div_mod (v * k) m ltac:(lia)) as Hdm. rewrite E in Hdm.
    pose proof (Z.gcd_divide_l v m) as [a Ha].
    pose proof (Z.gcd_divide_r v m) as [c Hc].
    pose proof (Z.gcd_nonneg v m).
    assert (Hd : (Z.gcd v m | 1)).
    { exists (a * k - c * ((v * k) `div` m)). nia. }
    apply Z.divide_1_r_nonneg in Hd; lia.
Qed.

(** *** Shape and range of the array during elimination *)

Lemma shaped_insert n w M r l :
  shaped n w M → length l = w → shaped n w (<[r := l]> M).
Proof.
  intros [Hn Hw] Hl. split; [by rewrite length_insert|].
  by apply Forall_insert.
Qed.

Lemma shaped_row n w M r : shaped n w M → (r < n)%nat → length (row M r) = w.
Proof.
  intros [Hn Hw] Hr. rewrite <- Hn in Hr.
  apply lookup_lt_is_Some_2 in Hr as [l Hl].
  rewrite (row_lookup _ _ _ Hl).
  by eapply (Forall_lookup_1 _ _ _ _ Hw).
Qed.

Lemma reduced_row m M r : reduced m M → Forall (λ v, 0 ≤ v < m) (row M r).
Proof. intros H. by apply (row_elem M r _ H). Qed.

Lemma reduced_entry m M r c : 0 < m → reduced m M → 0 ≤ entry M r c < m.
Proof.
  intros Hm H. unfold entry.
  destruct (row M r !! c) as [v|] eqn:E; simpl; [|lia].
  by eapply (Forall_lookup_1 _ _ _ _ (reduced_row m M r H)).
Qed.

Lemma scale_row_range m inv r : 0 < m → Forall (λ v, 0 ≤ v < m) (scale_row m inv r).
Proof.
  intros Hm. unfold scale_row. apply Forall_fmap, Forall_true.
  intros v. simpl. apply Z.mod_pos_bound. lia.
Qed.

Lemma sub_row_range m c rj ri : 0 < m → Forall (λ v, 0 ≤ v < m) (sub_row m c rj ri).
Proof.
  intros Hm. unfold sub_row. revert ri.
  induction rj as [|a rj IH]; intros [|p ri]; simpl; constructor; [|done].
  apply Z.mod_pos_bound. lia.
Qed.

Lemma length_sub_row m c rj ri :
  length ri = length rj → length (sub_row m c rj ri) = length rj.
Proof. intros H. unfold sub_row. rewrite length_zip_with. lia. Qed.


Lemma shaped_clear_column m n w i M :
  shaped n w M → (i < n)%nat → shaped n w (clear_column m n i M).
Proof.
  intros HM Hi. unfold clear_column.
  assert (H : ∀ js, Forall (λ j, (j < n)%nat) js →
    ∀ M, shaped n w M → shaped n w
      (foldl (λ Ab j, if decide (i ≠ j)
                      then <[j := sub_row m (entry Ab j i) (row Ab j) (row Ab i)]> Ab
                      else Ab) M js)).
  { induction js as [|j js IH]; intros Hjs M' HM'; simpl; [done|].
    inversion Hjs; subst. apply IH; [done|].
    case_decide; [|done].
    apply shaped_insert; [done|].
    rewrite length_sub_row; rewrite !(shaped_row n w) by done; done. }
  apply H; [|done]. apply Forall_forall. intros j Hj.
  apply elem_of_seq in Hj. lia.
Qed.

Lemma reduced_clear_column m n i M :
  0 < m → reduced m M → reduced m (clear_column m n i M).
Proof.
  intros Hm. unfold clear_column. generalize (seq 0 n). intros js. revert M.
  induction js as [|j js IH]; intros M HM; simpl; [done|].
  apply IH. case_decide; [|done].
  apply Forall_insert; [done|]. by apply sub_row_range.
Qed.

Lemma shaped_swap_rows n w M i p :
  shaped n w M → (i < n)%nat → (p < n)%nat → shaped n w (swap_rows M i p).
Proof.
  intros HM Hi Hp. unfold swap_rows.
  apply shaped_insert; [apply shaped_insert|]; try done;
    by apply (shaped_row n w).
Qed.

Lemma reduced_swap_rows m M i p : reduced m M → reduced m (swap_rows M i p).
Proof.
  intros HM. unfold swap_rows.
  apply Forall_insert; [apply Forall_insert|]; try done; by apply reduced_row.
Qed.

Lemma pivot_step_shaped m n w M i M' :
  shaped n w M → (i < n)%nat → pivot_step m n M i = Some M' → shaped n w M'.
Proof.
  intros HM Hi. unfold pivot_step.
  destruct (find_pivot_spec M n i ltac:(lia)) as ((_ & Hp) & _).
  case_decide as Hpn; [by intros [= <-]|].
  destruct (mod_inverse _ _) as [inv|]; [|done].
  intros [= <-].
  apply shaped_clear_column; [|done].
  assert (Hs : shaped n w (swap_rows M i (find_pivot M n i)))
    by (apply shaped_swap_rows; [done | done | lia]).
  apply shaped_insert; [done|].
  unfold scale_row. rewrite length_fmap. by apply (shaped_row n w).
Qed.

Lemma pivot_step_reduced m n M i M' :
  0 < m → reduced m M → pivot_step m n M i = Some M' → reduced m M'.
Proof.
  intros Hm HM. unfold pivot_step.
  case_decide as Hpn; [by intros [= <-]|].
  destruct (mod_inverse _ _) as [inv|]; [|done].
  intros [= <-].
  apply reduced_clear_column; [done|].
  apply Forall_insert; [by apply reduced_swap_rows | by apply scale_row_range].
Qed.

Lemma eliminate_from_None m n cols :
  foldl (λ st i, st ≫= λ Ab, pivot_step m n Ab i) None cols = None.
Proof. induction cols as [|c cols IH]; simpl; done. Qed.

Lemma eliminate_from_cons m n c cols M :
  eliminate_from m n (c :: cols) M
  = pivot_step m n M c ≫= eliminate_from m n cols.
Proof.
  unfold eliminate_from. simpl.
  destruct (pivot_step m n M c); simpl; [done|]. apply eliminate_from_None.
Qed.


Lemma eliminate_from_shaped m n w cols M M' :
  Forall (λ i, (i < n)%nat) cols → shaped n w M →
  eliminate_from m n cols M = Some M' → shaped n w M'.
Proof.
  intros Hcols. revert M. induction Hcols as [|c cols Hc _ IH]; intros M HM.
  - by intros [= <-].
  - rewrite eliminate_from_cons.
    destruct (pivot_step m n M c) as [M1|] eqn:E; simpl; [|done].
    apply IH. by eapply pivot_step_shaped.
Qed.

Lemma eliminate_from_reduced m n cols M M' :
  0 < m → reduced m M → eliminate_from m n cols M = Some M' → reduced m M'.
Proof.
  intros Hm. revert M. induction cols as [|c cols IH]; intros M HM.
  - by intros [= <-].
  - rewrite eliminate_from_cons.
    destruct (pivot_step m n M c) as [M1|] eqn:E; simpl; [|done].
    apply IH. by eapply pivot_step_reduced.
Qed.

Lemma seq_lt_Forall n k : (k ≤ n)%nat → Forall (λ i, (i < n)%nat) (seq 0 k).
Proof. intros H. apply Forall_forall. intros i Hi. apply elem_of_seq in Hi. lia. Qed.

(** *** Stacking *)

Lemma hstack_Return A b : length A = length b → hstack A b = Return (stack A b).
Proof. intros H. unfold hstack. by rewrite decide_True. Qed.

Lemma length_stack A b : length A = length b → length (stack A b) = length A.
Proof. intros H. unfold stack. rewrite length_zip_with. lia. Qed.

Lemma stack_lookup A b i r :
  stack A b !! i = Some r ↔ ∃ r0 v, r = r0 ++ [v] ∧ A !! i = Some r0 ∧ b !! i = Some v.
Proof. unfold stack. apply lookup_zip_with_Some. Qed.

Lemma stack_shaped n A b :
  shaped n n A → length b = n → shaped n (S n) (stack A b).
Proof.
  intros [Hn Hw] Hb. split; [rewrite length_stack; lia|].
  apply Forall_lookup. intros i r Hr.
  apply stack_lookup in Hr as (r0 & v & -> & Hr0 & _).
  rewrite length_app, (Forall_lookup_1 _ _ _ _ Hw Hr0). simpl. lia.
Qed.

Lemma stack_reduced m A b :
  reduced m A → Forall (λ v, 0 ≤ v < m) b → reduced m (stack A b).
Proof.
  intros HA Hb. apply Forall_lookup. intros i r Hr.
  apply stack_lookup in Hr as (r0 & v & -> & Hr0 & Hv).
  apply Forall_app. split.
  - by eapply (Forall_lookup_1 _ _ _ _ HA).
  - constructor; [|done]. by eapply (Forall_lookup_1 _ _ _ _ Hb).
Qed.



Lemma entry_swap_rows M i p :
  (i < length M)%nat → (p < length M)%nat →
  entry (swap_rows M i p) i i = entry M p i.
Proof.
  intros Hi Hp. unfold entry, swap_rows.
  destruct (decide (p = i)) as [-> | Hne].
  - by rewrite row_insert_eq by (by rewrite length_insert).
  - by rewrite row_insert_ne, row_insert_eq.
Qed.

Lemma gaussian_Return_length A b m r :
  gaussian_elimination_mod A b m = Return r → length A = length b.
Proof.
  unfold gaussian_elimination_mod, hstack.
  case_decide; [done | by simpl].
Qed.

Lemma gaussian_total A b m :
  length A = length b → ∃ r, gaussian_elimination_mod A b m = Return r.
Proof.
  intros H. unfold gaussian_elimination_mod. rewrite hstack_Return by done. simpl.
  destruct (eliminate _ _ _); [case_match|]; by eexists.
Qed.

End GaussBasics.

Lemma solve_unfold board difficulty cfg flat :
  Facade.configure difficulty = Some cfg →
  Facade.flatten board = Return flat →
  Facade.solve board difficulty
  = bind (Facade.press_counts difficulty cfg
            (Facade.effects_matrix (Facade.n cfg) (Facade.adj_map_of cfg))
            (Facade.target_vector (Facade.modulus cfg) flat))
         (λ x, match x with
               | None => Return None
               | Some x => Return (Some (Facade.replay cfg (Facade.adj_map_of cfg) flat
                                           (Facade.click_path cfg x)).2)
               end).
Proof. intros Hcfg Hflat. unfold Facade.solve. by rewrite Hcfg, Hflat. Qed.




Lemma solve_gaussian_None board difficulty cfg flat A b :
  Facade.configure difficulty = Some cfg →
  Facade.flatten board = Return flat →
  A = Facade.effects_matrix (Facade.n cfg) (Facade.adj_map_of cfg) →
  b = Facade.target_vector (Facade.modulus cfg) flat →
  (if decide (difficulty = "expert"%string)
   then Gauss.gaussian_elimination_mod A ((λ v, v mod 2) <$> b) 2 = Return None
        ∨ Gauss.gaussian_elimination_mod A ((λ v, v mod 3) <$> b) 3 = Return None
   else Gauss.gaussian_elimination_mod A b (Facade.modulus cfg) = Return None) →
  Facade.solve board difficulty = Return None.
Proof.
  intros Hcfg Hflat HA Hb Hnone.
  rewrite (solve_unfold board difficulty cfg flat Hcfg Hflat), <- HA, <- Hb.
  clear HA Hb. unfold Facade.press_counts.
  destruct (decide (difficulty = "expert"%string)) as [He | He].
  - destruct Hnone as [H2 | H3].
    + rewrite H2.
      destruct (gaussian_total A ((λ v, v mod 3) <$> b) 3) as [r Hr].
      { apply gaussian_Return_length in H2. by rewrite length_fmap in *. }
      by rewrite Hr.
    + rewrite H3.
      destruct (gaussian_total A ((λ v, v mod 2) <$> b) 2) as [r Hr].
      { apply gaussian_Return_length in H3. by rewrite length_fmap in *. }
      rewrite Hr. by destruct r.
  - by rewrite Hnone.
Qed.



Section GaussMore.
Import Gauss.

Lemma back_step_spec m n Ab x i :
  0 < m → Forall (λ v, 0 ≤ v < m) x →
  Forall (λ v, 0 ≤ v < m) (back_step m n Ab x i)
  ∧ length (back_step m n Ab x i) = length x.
Proof.
  intros Hm Hx. unfold back_step.
  case_decide; (split; [apply Forall_insert; [done|] | by rewrite length_insert]).
  - apply Z.mod_pos_bound. lia.
  - lia.
Qed.

Lemma back_substitute_spec m n Ab :
  0 < m →
  Forall (λ v, 0 ≤ v < m) (back_substitute m n Ab)
  ∧ length (back_substitute m n Ab) = n.
Proof.
  intros Hm. unfold back_substitute.
  assert (H : ∀ idxs x, Forall (λ v, 0 ≤ v < m) x →
    Forall (λ v, 0 ≤ v < m) (foldl (back_step m n Ab) x idxs)
    ∧ length (foldl (back_step m n Ab) x idxs) = length x).
  { induction idxs as [|i idxs IH]; intros x Hx; simpl; [done|].
    destruct (back_step_spec m n Ab x i Hm Hx) as [H1 H2].
    destruct (IH _ H1) as [H3 H4]. split; [done | congruence]. }
  destruct (H (reverse (seq 0 n)) (replicate n 0)) as [H1 H2].
  - apply Forall_replicate. lia.
  - split; [done|]. by rewrite H2, length_replicate.
Qed.

Lemma gaussian_Some_spec A b m x :
  0 < m → gaussian_elimination_mod A b m = Return (Some x) →
  length x = length A ∧ Forall (λ v, 0 ≤ v < m) x.
Proof.
  intros Hm. unfold gaussian_elimination_mod.
  destruct (hstack A b); simpl; [|done].
  destruct (eliminate _ _ _); [|done].
  case_match; [done|]. intros [= <-].
  destruct (back_substitute_spec m (length A) l Hm). done.
Qed.

Lemma crt_digit_spec a2 a3 :
  0 ≤ a2 < 2 → 0 ≤ a3 < 3 →
  let k := Facade.crt_digit a2 a3 in
  0 ≤ k < 6 ∧ k mod 2 = a2 ∧ k mod 3 = a3
  ∧ ∀ k', 0 ≤ k' < 6 → k' mod 2 = a2 → k' mod 3 = a3 → k' = k.
Proof.
  intros H2 H3.
  assert (Ha2 : a2 = 0 ∨ a2 = 1) by lia.
  assert (Ha3 : a3 = 0 ∨ a3 = 1 ∨ a3 = 2) by lia.
  assert (Hk : ∀ k', 0 ≤ k' < 6 →
            k' = 0 ∨ k' = 1 ∨ k' = 2 ∨ k' = 3 ∨ k' = 4 ∨ k' = 5) by (intros; lia).
  destruct Ha2 as [-> | ->], Ha3 as [-> | [-> | ->]]; vm_compute;
    (split_and!; try done; intros k' Hr; destruct (Hk k' Hr) as [-> | [-> | [-> | [-> | [-> | ->]]]]];
     vm_compute; congruence).
Qed.

End GaussMore.

Lemma configure_expert cfg :
  Facade.configure "expert" = Some cfg →
  Facade.n cfg = 37%nat ∧ Facade.modulus cfg = 6 ∧ Facade.layout cfg = Hexagon.
Proof. intros [= <-]. done. Qed.

(** C4: in expert mode, when the solve modulo 2 or the solve modulo 3
    returns [None], so does [solve]; otherwise each press count [x[i]] is
    the one value in 0..5 with [x[i] mod 2 = x2[i]] and
    [x[i] mod 3 = x3[i]]. *)
Theorem composite_solve_contract (board : Board) (cfg : Facade.Config)
    (flat : list Z) (A : list (list Z)) (b : list Z) :
  Facade.configure "expert" = Some cfg →
  Facade.flatten board = Return flat →
  A = Facade.effects_matrix (Facade.n cfg) (Facade.adj_map_of cfg) →
  b = Facade.target_vector (Facade.modulus cfg) flat →
  ((Gauss.gaussian_elimination_mod A ((λ v, v mod 2) <$> b) 2 = Return None
    ∨ Gauss.gaussian_elimination_mod A ((λ v, v mod 3) <$> b) 3 = Return None) →
     Facade.solve board "expert" = Return None)
  ∧ (∀ x2 x3,
     Gauss.gaussian_elimination_mod A ((λ v, v mod 2) <$> b) 2 = Return (Some x2) →
     Gauss.gaussian_elimination_mod A ((λ v, v mod 3) <$> b) 3 = Return (Some x3) →
     ∃ x, Facade.press_counts "expert" cfg A b = Return (Some x)
        ∧ Facade.solve board "expert"
          = Return (Some (Facade.replay cfg (Facade.adj_map_of cfg) flat
                            (Facade.click_path cfg x)).2)
        ∧ length x = 37%nat
        ∧ ∀ i, (i < 37)%nat →
            ∃ k a2 a3, x !! i = Some k ∧ x2 !! i = Some a2 ∧ x3 !! i = Some a3
              ∧ 0 ≤ k < 6 ∧ k mod 2 = a2 ∧ k mod 3 = a3
              ∧ ∀ k', 0 ≤ k' < 6 → k' mod 2 = a2 → k' mod 3 = a3 → k' = k).
Proof.
  intros Hcfg Hflat HA Hb.
  destruct (configure_expert cfg Hcfg) as (Hn & Hm & _).
  split.
  - intros Hnone.
    by apply (solve_gaussian_None board "expert" cfg flat A b).
  - intros x2 x3 H2 H3.
    exists (Facade.crt_combine 37 x2 x3).
    assert (Hpc : Facade.press_counts "expert" cfg A b
                  = Return (Some (Facade.crt_combine 37 x2 x3))).
    { unfold Facade.press_counts. rewrite decide_True by done.
      by rewrite H2, H3, Hn. }
    split; [done|]. split; [|split].
    + rewrite (solve_unfold board "expert" cfg flat Hcfg Hflat).
      by rewrite <- HA, <- Hb, Hpc.
    + unfold Facade.crt_combine. by rewrite length_fmap, length_seq.
    + intros i Hi.
      apply (gaussian_Some_spec A _ 2 x2 ltac:(lia)) in H2 as [Hl2 Hr2].
      apply (gaussian_Some_spec A _ 3 x3 ltac:(lia)) in H3 as [Hl3 Hr3].
      rewrite HA, length_effects_matrix, Hn in Hl2, Hl3.
      clear Hpc HA Hb.
      destruct (lookup_lt_is_Some_2 x2 i ltac:(lia)) as [a2 Ha2].
      destruct (lookup_lt_is_Some_2 x3 i ltac:(lia)) as [a3 Ha3].
      exists (Facade.crt_digit a2 a3), a2, a3.
      pose proof (Forall_lookup_1 _ _ _ _ Hr2 Ha2) as Hb2.
      pose proof (Forall_lookup_1 _ _ _ _ Hr3 Ha3) as Hb3.
      simpl in Hb2, Hb3.
      destruct (crt_digit_spec a2 a3 Hb2 Hb3) as ([Hk0 Hk6] & Hk2 & Hk3 & Huniq).
      split; [|by split_and!].
      unfold Facade.crt_combine. rewrite list_lookup_fmap, lookup_seq_lt by done.
      simpl. by rewrite Ha2, Ha3.
Qed.

Lemma composite_solve_contract_witness :
  Facade.solve unsolvable_hard_board "expert" = Return None
  ∧ ∃ x, Facade.press_counts "expert" expert_cfg
           (Facade.effects_matrix 37 (Facade.adj_map_of expert_cfg))
           (Facade.target_vector 6 (replicate 37 0)) = Return (Some x)
         ∧ length x = 37%nat.
Proof.
  split.
  - apply (composite_solve_contract unsolvable_hard_board expert_cfg
             (0 :: replicate 36 1) _ _ eq_refl eq_refl eq_refl eq_refl).
    left. vm_compute. reflexivity.
  - assert (E2 : ∃ x2, Gauss.gaussian_elimination_mod
                         (Facade.effects_matrix 37 (Facade.adj_map_of expert_cfg))
                         ((λ v, v mod 2) <$> Facade.target_vector 6 (replicate 37 0)) 2
                       = Return (Some x2)).
    { vm_compute. eexists. reflexivity. }
    assert (E3 : ∃ x3, Gauss.gaussian_elimination_mod
                         (Facade.effects_matrix 37 (Facade.adj_map_of expert_cfg))
                         ((λ v, v mod 3) <$> Facade.target_vector 6 (replicate 37 0)) 3
                       = Return (Some x3)).
    { vm_compute. eexists. reflexivity. }
    destruct E2 as [x2 E2], E3 as [x3 E3].
    destruct (proj2 (composite_solve_contract (Flat (replicate 37 0)) expert_cfg
                       (replicate 37 0) _ _ eq_refl eq_refl eq_refl eq_refl)
                    x2 x3 E2 E3) as (x & Hpc & _ & Hlen & _).
    exists x. exact (conj Hpc Hlen).
Defined.

Lemma fmap_mod_small m (l : list Z) :
  Forall (λ v, 0 ≤ v < m) l → (λ v, v mod m) <$> l = l.
Proof.
  induction 1 as [|v l Hv _ IH]; [done|].
  rewrite fmap_cons, IH. f_equal. by apply Z.mod_small.
Qed.

Lemma fmap_mod_reduced m (A : list (list Z)) :
  reduced m A → (λ r : list Z, (λ v, v mod m) <$> r) <$> A = A.
Proof.
  induction 1 as [|r A Hr _ IH]; [done|].
  rewrite fmap_cons, IH. f_equal. by apply fmap_mod_small.
Qed.

Lemma pivot_step_continue m n Ab i :
  Gauss.find_pivot Ab n i = n → Gauss.pivot_step m n Ab i = Some Ab.
Proof. intros H. unfold Gauss.pivot_step. by rewrite decide_True. Qed.

(** On a matrix and a vector whose entries are already in [[0, m)], as
    [solve] passes them, every array the column loop reaches has its
    entries in [[0, m)], the pivot scan of column [i] stops at the first
    row from [i] down whose entry in column [i] is nonzero modulo [m],
    and where there is none the loop goes on to the next column with the
    array unchanged. *)
Lemma pivot_scan_reduced (A : list (list Z)) (b : list Z) (m : Z) :
  2 ≤ m → reduced m A → Forall (λ v, 0 ≤ v < m) b → length A = length b →
  ∀ i Ab, (i < length A)%nat →
    Gauss.eliminate_from m (length A) (seq 0 i) (Gauss.stack A b) = Some Ab →
    let p := Gauss.find_pivot Ab (length A) i in
    reduced m Ab
    ∧ (i ≤ p ≤ length A)%nat
    ∧ (∀ r, (i ≤ r < p)%nat → Gauss.entry Ab r i mod m = 0)
    ∧ ((p < length A)%nat → Gauss.entry Ab p i mod m ≠ 0)
    ∧ (p = length A → Gauss.pivot_step m (length A) Ab i = Some Ab).
Proof.
  intros Hm HA Hb Hlen i Ab Hi Hel p.
  assert (HAb : reduced m Ab).
  { eapply eliminate_from_reduced; [| |exact Hel]; [lia|].
    by apply stack_reduced. }
  destruct (find_pivot_spec Ab (length A) i ltac:(lia)) as (Hp & Hzero & Hnz).
  split; [done|]. split; [done|]. split; [|split].
  - intros r Hr. by rewrite (Hzero r Hr).
  - intros Hlt. rewrite Z.mod_small; [by apply Hnz|].
    apply reduced_entry; [lia | done].
  - apply pivot_step_continue.
Qed.


(** C2: the map built for radius 3 has the 37 tiles 0..36, and the three
    entries of the self-check of the backend are as listed there. *)
Theorem hexagon_fixtures_radius3 :
  Hex.get_hexagon_board_details 3 !! 18%nat = Some [11; 12; 17; 18; 19; 24; 25]%nat
  ∧ Hex.get_hexagon_board_details 3 !! 21%nat = Some [14; 20; 21; 27]%nat
  ∧ Hex.get_hexagon_board_details 3 !! 32%nat = Some [26; 27; 31; 32; 36]%nat
  ∧ size (Hex.get_hexagon_board_details 3) = 37%nat
  ∧ ∀ i : nat, is_Some (Hex.get_hexagon_board_details 3 !! i) ↔ (i < 37)%nat.
Proof.
  assert (Hdom : dom (Hex.get_hexagon_board_details 3) = list_to_set (seq 0 37)).
  { vm_compute. reflexivity. }
  split; [vm_compute; reflexivity|].
  split; [vm_compute; reflexivity|].
  split; [vm_compute; reflexivity|].
  split; [vm_compute; reflexivity|].
  intros i. rewrite <- elem_of_dom, Hdom, elem_of_list_to_set, elem_of_seq. lia.
Qed.

(** ** Solutions of the linear system *)

Section Linear.
Import Gauss.
Variable m : Z.
Hypothesis m_ge_2 : 2 ≤ m.
Hypothesis m_small : m ≤ 2 ^ 20.

Abbreviation in_range := (λ v : Z, 0 ≤ v < m).

Lemma dot_lin u v : dot u v = i64 (lin u v).
Proof. done. Qed.

Lemma lin_nil_l y : lin [] y = 0.
Proof. done. Qed.

Lemma lin_cons a r b y : lin (a :: r) (b :: y) = a * b + lin r y.
Proof. done. Qed.

Lemma lin_app r1 r2 y1 y2 :
  length r1 = length y1 → lin (r1 ++ r2) (y1 ++ y2) = lin r1 y1 + lin r2 y2.
Proof.
  revert y1. induction r1 as [|a r1 IH]; intros [|b y1] Hlen; simplify_eq/=; [done|].
  rewrite !lin_cons, IH by done. lia.
Qed.

Lemma lin_zeros k y : lin (replicate k 0) y = 0.
Proof.
  revert y. induction k as [|k IH]; intros [|b y]; simpl; try done.
  rewrite lin_cons, IH. lia.
Qed.

Lemma lin_bound r y :
  Forall in_range r → Forall in_range y →
  0 ≤ lin r y ≤ Z.of_nat (length r) * (m * m).
Proof.
  intros Hr. revert y. induction Hr as [|a r Ha _ IH]; intros y Hy.
  - rewrite lin_nil_l. simpl. lia.
  - destruct Hy as [|b y Hb Hy]; [unfold lin; simpl; nia|].
    rewrite lin_cons. specialize (IH y Hy).
    rewrite length_cons, Nat2Z.inj_succ. nia.
Qed.

Lemma mod_divide_sub a : (m | a mod m - a).
Proof.
  exists (- (a `div` m)). pose proof (Z.div_mod a m ltac:(lia)). lia.
Qed.

Lemma lin_scale_row inv r y :
  Forall in_range r → 0 ≤ inv < m →
  (m | lin (scale_row m inv r) y - inv * lin r y).
Proof.
  intros Hr Hinv. revert y. induction Hr as [|a r Ha _ IH]; intros [|b y].
  - exists 0. unfold lin. simpl. lia.
  - exists 0. unfold lin. simpl. lia.
  - exists 0. unfold lin. simpl. lia.
  - unfold scale_row in *. rewrite fmap_cons, !lin_cons.
    rewrite i64_small by nia.
    destruct (IH y) as [k1 Hk1]. destruct (mod_divide_sub (a * inv)) as [k2 Hk2].
    exists (k1 + k2 * b). lia.
Qed.

Lemma lin_sub_row c rj ri y :
  Forall in_range rj → Forall in_range ri → 0 ≤ c < m →
  length ri = length rj →
  (m | lin (sub_row m c rj ri) y - (lin rj y - c * lin ri y)).
Proof.
  intros Hrj. revert ri y. induction Hrj as [|a rj Ha _ IH]; intros ri y Hri Hc Hlen.
  - destruct ri; [|done]. exists 0. unfold lin. simpl. lia.
  - destruct Hri as [|p ri Hp Hri]; [done|]. simpl in Hlen.
    destruct y as [|b y]; [exists 0; unfold lin; simpl; lia|].
    unfold sub_row in *. simpl. rewrite !lin_cons.
    rewrite (i64_small (c * p)) by nia. rewrite i64_small by nia.
    destruct (IH ri y Hri Hc ltac:(lia)) as [k1 Hk1].
    destruct (mod_divide_sub (a - c * p)) as [k2 Hk2].
    exists (k1 + k2 * b). lia.
Qed.
End Linear.

Section Soundness.
Import Gauss.
Variable m : Z.
Hypothesis m_ge_2 : 2 ≤ m.
Hypothesis m_small : m ≤ 2 ^ 20.
Variable x : list Z.

Abbreviation holds := (row_holds m x).
Abbreviation in_range := (λ v : Z, 0 ≤ v < m).

Lemma holds_scale_row inv p r :
  Forall in_range r → 0 ≤ inv < m → (p * inv) mod m = 1 mod m →
  holds (scale_row m inv r) → holds r.
Proof.
  intros Hr Hinv Hp. unfold row_holds.
  destruct (lin_scale_row m m_ge_2 m_small inv r (x ++ [-1]) Hr Hinv) as [k1 Hk1].
  intros [k2 Hk2].
  assert (Hk3 : ∃ k3, p * inv = 1 + k3 * m).
  { exists ((p * inv) `div` m). rewrite (Z.mod_small 1) in Hp by lia.
    pose proof (Z.div_mod (p * inv) m ltac:(lia)). lia. }
  destruct Hk3 as [k3 Hk3].
  set (L := lin r (x ++ [-1])) in *. set (S := lin (scale_row m inv r) (x ++ [-1])) in *.
  exists (p * (k2 - k1) - k3 * L).
  assert (H1 : inv * L = (k2 - k1) * m) by lia.
  assert (H2 : p * (inv * L) = L + k3 * m * L) by (rewrite Z.mul_assoc, Hk3; ring).
  rewrite H1 in H2. lia.
Qed.

Lemma holds_sub_row c rj ri :
  Forall in_range rj → Forall in_range ri → 0 ≤ c < m → length ri = length rj →
  holds (sub_row m c rj ri) → holds ri → holds rj.
Proof.
  intros Hrj Hri Hc Hlen. unfold row_holds.
  destruct (lin_sub_row m m_ge_2 m_small c rj ri (x ++ [-1]) Hrj Hri Hc Hlen) as [k1 Hk1].
  intros [k2 Hk2] [k3 Hk3].
  exists (k2 - k1 + c * k3). rewrite Hk3 in Hk1. lia.
Qed.

Lemma holds_row M r : Forall holds M → (r < length M)%nat → holds (row M r).
Proof.
  intros HM Hr. apply lookup_lt_is_Some_2 in Hr as [l Hl].
  rewrite (row_lookup _ _ _ Hl). by eapply (Forall_lookup_1 _ _ _ _ HM).
Qed.

Lemma clear_step_sound n w i j M :
  shaped n w M → reduced m M → (i < n)%nat → (j < n)%nat → i ≠ j →
  Forall holds (<[j := sub_row m (entry M j i) (row M j) (row M i)]> M) →
  Forall holds M.
Proof.
  intros Hsh Hred Hi Hj Hne Hall.
  pose proof Hsh as [Hn _].
  assert (Hri : holds (row M i)).
  { rewrite <- (row_insert_ne M j i (sub_row m (entry M j i) (row M j) (row M i))) by done.
    apply holds_row; [done|]. rewrite length_insert. lia. }
  assert (Hrj : holds (row M j)).
  { apply (holds_sub_row (entry M j i) (row M j) (row M i)).
    - by apply reduced_row.
    - by apply reduced_row.
    - apply reduced_entry; [lia | done].
    - by rewrite !(shaped_row n w).
    - rewrite <- (row_insert_eq M j (sub_row m (entry M j i) (row M j) (row M i))) by lia.
      apply holds_row; [done|]. rewrite length_insert. lia.
    - done. }
  apply Forall_lookup. intros k r Hk.
  destruct (decide (k = j)) as [-> | Hkj].
  - by rewrite <- (row_lookup _ _ _ Hk).
  - apply (Forall_lookup_1 _ _ k r Hall). by rewrite list_lookup_insert_ne.
Qed.

Lemma clear_column_sound n w i M :
  shaped n w M → reduced m M → (i < n)%nat →
  Forall holds (clear_column m n i M) → Forall holds M.
Proof.
  intros Hsh Hred Hi. unfold clear_column.
  assert (H : ∀ js, Forall (λ j, (j < n)%nat) js → ∀ M, shaped n w M → reduced m M →
    Forall holds (foldl (λ Ab j, if decide (i ≠ j)
                      then <[j := sub_row m (entry Ab j i) (row Ab j) (row Ab i)]> Ab
                      else Ab) M js) → Forall holds M).
  { induction js as [|j js IH]; intros Hjs M' Hsh' Hred' Hall; simpl in *; [done|].
    inversion Hjs as [|? ? Hj Hjs']; subst.
    case_decide as Hne; [|by apply (IH Hjs')].
    apply (clear_step_sound n w i j); try done.
    apply (IH Hjs'); [| |done].
    - apply shaped_insert; [done|].
      rewrite length_sub_row; rewrite !(shaped_row n w) by done; done.
    - apply Forall_insert; [done|]. apply sub_row_range. lia. }
  apply H; try done. by apply seq_lt_Forall.
Qed.

Lemma swap_rows_sound M i p :
  (i < length M)%nat → (p < length M)%nat →
  Forall holds (swap_rows M i p) → Forall holds M.
Proof.
  intros Hi Hp Hall. unfold swap_rows in Hall.
  apply Forall_lookup. intros k r Hk.
  destruct (decide (k = i)) as [-> | Hki].
  - rewrite <- (row_lookup _ _ _ Hk).
    rewrite <- (row_insert_eq (<[i:=row M p]> M) p (row M i)) by (by rewrite length_insert).
    apply holds_row; [done|]. by rewrite !length_insert.
  - destruct (decide (k = p)) as [-> | Hkp].
    + rewrite <- (row_lookup _ _ _ Hk).
      rewrite <- (row_insert_eq M i (row M p)) at 1 by done.
      rewrite <- (row_insert_ne (<[i:=row M p]> M) p i (row M i)) by done.
      apply holds_row; [done|]. by rewrite !length_insert.
    + apply (Forall_lookup_1 _ _ k r Hall).
      by rewrite !list_lookup_insert_ne.
Qed.

Lemma pivot_step_sound n w M i M' :
  shaped n w M → reduced m M → (i < n)%nat →
  pivot_step m n M i = Some M' → Forall holds M' → Forall holds M.
Proof.
  intros Hsh Hred Hi. unfold pivot_step.
  destruct (find_pivot_spec M n i ltac:(lia)) as ((_ & Hp) & _).
  case_decide as Hpn; [by intros [= <-]|].
  destruct (mod_inverse _ _) as [inv|] eqn:Hinv; [|done].
  intros [= <-] Hall.
  pose proof Hsh as [Hn _].
  apply mod_inverse_Some in Hinv as [Hinv Hone].
  set (M1 := swap_rows M i (find_pivot M n i)) in *.
  assert (Hsh1 : shaped n w M1) by (apply shaped_swap_rows; [done | done | lia]).
  assert (Hred1 : reduced m M1) by (by apply reduced_swap_rows).
  apply (swap_rows_sound M i (find_pivot M n i)); [lia | lia |]. fold M1.
  apply clear_column_sound with (n := n) (w := w) in Hall; [| | |done].
  - apply Forall_lookup. intros k r Hk.
    destruct (decide (k = i)) as [-> | Hki].
    + rewrite <- (row_lookup _ _ _ Hk).
      apply (holds_scale_row inv (entry M1 i i)); [by apply reduced_row | done | done |].
      rewrite <- (row_insert_eq M1 i (scale_row m inv (row M1 i))) by (destruct Hsh1; lia).
      apply holds_row; [done|]. rewrite length_insert. destruct Hsh1; lia.
    + apply (Forall_lookup_1 _ _ k r Hall). by rewrite list_lookup_insert_ne.
  - apply shaped_insert; [done|]. unfold scale_row. rewrite length_fmap.
    by apply (shaped_row n w).
  - apply Forall_insert; [done|]. apply scale_row_range. lia.
Qed.

Lemma eliminate_from_sound n w cols M M' :
  Forall (λ i, (i < n)%nat) cols → shaped n w M → reduced m M →
  eliminate_from m n cols M = Some M' → Forall holds M' → Forall holds M.
Proof.
  intros Hcols. revert M. induction Hcols as [|c cols Hc _ IH]; intros M Hsh Hred.
  - by intros [= <-].
  - rewrite eliminate_from_cons.
    destruct (pivot_step m n M c) as [M1|] eqn:E; simpl; [|done].
    intros Hel Hall. apply (pivot_step_sound n w M c M1); try done.
    apply (IH M1); try done.
    + by eapply pivot_step_shaped.
    + eapply pivot_step_reduced; [|done|done]. lia.
Qed.
End Soundness.

(** *** The coefficient columns do not depend on the last column *)

Section Projection.
Import Gauss.
Variables (m : Z) (n k : nat).

Lemma row_fmap_take (M : list (list Z)) r : row (take k <$> M) r = take k (row M r).
Proof.
  unfold row. rewrite list_lookup_fmap.
  destruct (M !! r); simpl; [done|]. by rewrite take_nil.
Qed.

Lemma entry_fmap_take (M : list (list Z)) r c : (c < k)%nat → entry (take k <$> M) r c = entry M r c.
Proof. intros Hc. unfold entry. by rewrite row_fmap_take, lookup_take_lt. Qed.

Lemma scan_pivot_fmap_take (M : list (list Z)) i p fuel :
  (i < k)%nat → scan_pivot (take k <$> M) i p fuel = scan_pivot M i p fuel.
Proof.
  intros Hi. revert p. induction fuel as [|fuel IH]; intros p; simpl; [done|].
  rewrite entry_fmap_take by done. by rewrite IH.
Qed.

Lemma swap_rows_fmap_take (M : list (list Z)) i p :
  swap_rows (take k <$> M) i p = take k <$> swap_rows M i p.
Proof. unfold swap_rows. by rewrite !list_fmap_insert, !row_fmap_take. Qed.

Lemma scale_row_take inv r : scale_row m inv (take k r) = take k (scale_row m inv r).
Proof. unfold scale_row. by rewrite fmap_take. Qed.

Lemma sub_row_take c rj ri :
  sub_row m c (take k rj) (take k ri) = take k (sub_row m c rj ri).
Proof. unfold sub_row. by rewrite zip_with_take. Qed.

Lemma clear_column_fmap_take i (M : list (list Z)) :
  (i < k)%nat →
  clear_column m n i (take k <$> M) = take k <$> clear_column m n i M.
Proof.
  intros Hi. unfold clear_column. generalize (seq 0 n). intros js. revert M.
  induction js as [|j js IH]; intros M; simpl; [done|].
  case_decide; [|apply IH].
  rewrite entry_fmap_take, !row_fmap_take, sub_row_take by done.
  rewrite <- list_fmap_insert. apply IH.
Qed.

Lemma pivot_step_fmap_take (M : list (list Z)) i :
  (i < k)%nat →
  pivot_step m n (take k <$> M) i
  = (λ M' : list (list Z), take k <$> M') <$> pivot_step m n M i.
Proof.
  intros Hi. unfold pivot_step, find_pivot.
  rewrite scan_pivot_fmap_take by done.
  case_decide; [done|].
  rewrite swap_rows_fmap_take, entry_fmap_take by done.
  destruct (mod_inverse _ _) as [inv|]; [|done]. simpl.
  by rewrite row_fmap_take, scale_row_take, <- list_fmap_insert,
    clear_column_fmap_take.
Qed.

Lemma eliminate_from_fmap_take cols (M : list (list Z)) :
  Forall (λ i, (i < k)%nat) cols →
  eliminate_from m n cols (take k <$> M)
  = (λ M' : list (list Z), take k <$> M') <$> eliminate_from m n cols M.
Proof.
  intros Hcols. revert M. induction Hcols as [|c cols Hc _ IH]; intros M; [done|].
  rewrite !eliminate_from_cons, pivot_step_fmap_take by done.
  destruct (pivot_step m n M c) as [M1|]; simpl; [apply IH | done].
Qed.
End Projection.

Lemma stack_fmap_take n A b :
  shaped n n A → length b = n → take n <$> Gauss.stack A b = A.
Proof.
  intros [Hn Hw] Hb. apply list_eq. intros i.
  rewrite list_lookup_fmap.
  destruct (A !! i) as [r|] eqn:Hr.
  - destruct (lookup_lt_is_Some_2 b i) as [v Hv].
    { apply lookup_lt_Some in Hr. lia. }
    assert (Hs : Gauss.stack A b !! i = Some (r ++ [v])).
    { apply stack_lookup. by exists r, v. }
    rewrite Hs. simpl. f_equal. apply take_app_length'.
    symmetry. by eapply (Forall_lookup_1 _ _ _ _ Hw).
  - destruct (Gauss.stack A b !! i) as [r|] eqn:Hs; [|done].
    apply stack_lookup in Hs as (r0 & v & _ & Hr0 & _). congruence.
Qed.

(** *** Back-substitution *)

Lemma list_split_last (l : list Z) (n : nat) :
  length l = S n → l = take n l ++ [default 0 (l !! n)].
Proof.
  intros Hl. destruct (lookup_lt_is_Some_2 l n ltac:(lia)) as [v Hv].
  rewrite Hv. simpl. rewrite <- (take_S_r l n v Hv). symmetry. apply take_ge. lia.
Qed.

Section BackSubstitution.
Import Gauss.
Variables (m : Z) (n : nat) (Ab : list (list Z)).
Hypothesis m_ge_2 : 2 ≤ m.
Hypothesis m_small : m ≤ 2 ^ 20.
Hypothesis n_small : Z.of_nat n ≤ 2 ^ 20.
Hypothesis Ab_shaped : shaped n (S n) Ab.
Hypothesis Ab_reduced : reduced m Ab.

Abbreviation in_range := (λ v : Z, 0 ≤ v < m).

Lemma back_step_value x t : back_step m n Ab x t = <[t := back_value m n Ab x t]> x.
Proof. unfold back_step, back_value. by case_decide. Qed.

Lemma back_value_ext x x' t :
  drop (S t) x = drop (S t) x' → back_value m n Ab x t = back_value m n Ab x' t.
Proof. intros H. unfold back_value. by rewrite H. Qed.

Lemma back_fold_spec k x :
  (k ≤ n)%nat → length x = n →
  let x' := foldl (back_step m n Ab) x (reverse (seq 0 k)) in
  length x' = n ∧ drop k x' = drop k x
  ∧ ∀ t, (t < k)%nat → x' !! t = Some (back_value m n Ab x' t).
Proof.
  revert x. induction k as [|k IH]; intros x Hk Hx.
  - simpl. split; [done|]. split; [done|]. intros t Ht. lia.
  - cbv zeta. rewrite seq_S, reverse_snoc. simpl. rewrite back_step_value.
    set (x1 := <[k := back_value m n Ab x k]> x).
    assert (Hx1 : length x1 = n) by (unfold x1; by rewrite length_insert).
    destruct (IH x1 ltac:(lia) Hx1) as (Hlen & Hdrop & Hspec).
    set (x' := foldl (back_step m n Ab) x1 (reverse (seq 0 k))) in *.
    assert (Hdrop' : drop (S k) x' = drop (S k) x).
    { replace (S k) with (k + 1)%nat by lia.
      rewrite <- (drop_drop x' 1 k), Hdrop, drop_drop.
      unfold x1. apply drop_insert_lt. lia. }
    split; [done|]. split; [done|].
    intros t Ht. destruct (decide (t = k)) as [-> | Hne]; [|apply Hspec; lia].
    rewrite (back_value_ext x' x k Hdrop').
    replace (x' !! k) with (drop k x' !! 0%nat) by (rewrite lookup_drop; f_equal; lia).
    rewrite Hdrop, lookup_drop, Nat.add_0_r. unfold x1.
    apply list_lookup_insert_eq. lia.
Qed.

Lemma back_substitute_lookup t :
  (t < n)%nat →
  back_substitute m n Ab !! t = Some (back_value m n Ab (back_substitute m n Ab) t).
Proof.
  intros Ht. unfold back_substitute.
  destruct (back_fold_spec n (replicate n 0) ltac:(lia) ltac:(apply length_replicate))
    as (_ & _ & Hspec).
  by apply Hspec.
Qed.

Lemma inconsistent_false_row r :
  inconsistent Ab = false → r ∈ Ab →
  Forall (λ v, v = 0) (removelast r) → default 0 (last r) = 0.
Proof.
  intros Hinc Hr Hzero. unfold inconsistent in Hinc.
  destruct (decide (default 0 (last r) = 0)) as [|Hne]; [done|]. exfalso.
  assert (existsb (λ r, forallb (λ v, bool_decide (v = 0)) (removelast r)
                        && negb (bool_decide (default 0 (last r) = 0))) Ab = true);
    [|congruence].
  apply existsb_exists. exists r. split; [by apply list_elem_of_In|].
  apply andb_true_intro. split.
  - apply forallb_forall. intros v Hv. apply bool_decide_eq_true.
    rewrite Forall_forall in Hzero. by apply Hzero, list_elem_of_In.
  - by rewrite bool_decide_eq_false_2.
Qed.

Lemma back_substitute_holds :
  echelon n (take n <$> Ab) → inconsistent Ab = false →
  Forall (row_holds m (back_substitute m n Ab)) Ab.
Proof.
  intros Hech Hinc.
  destruct (back_substitute_spec m n Ab ltac:(lia)) as [Hxr Hxl].
  set (x := back_substitute m n Ab) in *.
  destruct Ab_shaped as [Hn Hw].
  apply Forall_lookup. intros t r Hr.
  assert (Ht : (t < n)%nat) by (apply lookup_lt_Some in Hr; lia).
  assert (Hlen : length r = S n) by (by eapply (Forall_lookup_1 _ _ _ _ Hw)).
  assert (Hrr : Forall in_range r) by (by eapply (Forall_lookup_1 _ _ _ _ Ab_reduced)).
  assert (Hrow : row Ab t = r) by (by apply row_lookup).
  assert (HrowR : row (take n <$> Ab) t = take n r) by (by rewrite row_fmap_take, Hrow).
  assert (Hc : entry Ab t n = default 0 (r !! n)) by (unfold entry; by rewrite Hrow).
  rewrite (list_split_last r n Hlen). unfold row_holds.
  rewrite lin_app by (rewrite length_take; lia).
  unfold lin at 2. simpl.
  unfold echelon in Hech. rewrite Forall_forall in Hech.
  destruct (Hech t) as [Hpiv | Hzero]; [apply elem_of_seq; lia | |].
  - unfold pivot_row in Hpiv. rewrite HrowR in Hpiv.
    assert (Hxt : x !! t = Some (back_value m n Ab x t)) by (by apply back_substitute_lookup).
    assert (Hdiag : entry Ab t t = 1).
    { unfold entry. rewrite Hrow.
      rewrite <- (lookup_take_lt r n t) by done.
      rewrite <- (lookup_take_lt (take n r) (S t) t) by lia.
      rewrite Hpiv, lookup_app_r by (by rewrite length_replicate).
      by rewrite length_replicate, Nat.sub_diag. }
    rewrite <- (take_drop (S t) (take n r)), Hpiv.
    rewrite <- (take_drop_middle x t _ Hxt).
    rewrite <- app_assoc.
    rewrite lin_app by (rewrite length_replicate, length_take; lia).
    rewrite lin_zeros. simpl. rewrite lin_cons.
    set (D := lin (drop (S t) (take n r)) (drop (S t) x)).
    assert (HD : 0 ≤ D ≤ 2 ^ 60).
    { assert (Hb : 0 ≤ D ≤ Z.of_nat (length (drop (S t) (take n r))) * (m * m)).
      { apply (lin_bound m m_ge_2 m_small).
        - by apply Forall_drop, Forall_take.
        - by apply Forall_drop. }
      rewrite length_drop, length_take in Hb.
      assert (m * m ≤ 2 ^ 40) by nia.
      assert (Z.of_nat (n `min` length r - S t) ≤ 2 ^ 20) by lia.
      nia. }
    assert (Hval : back_value m n Ab x t = (default 0 (r !! n) - D) mod m).
    { unfold back_value. rewrite decide_True by done.
      rewrite Hrow, Hc, dot_lin.
      replace (take (n - S t) (drop (S t) r)) with (drop (S t) (take n r)).
      2:{ rewrite take_drop_commute. do 2 f_equal. lia. }
      fold D. rewrite (i64_small D) by lia.
      assert (0 ≤ default 0 (r !! n) < m).
      { destruct (r !! n) as [v|] eqn:E; simpl; [|lia].
        by eapply (Forall_lookup_1 _ _ _ _ Hrr). }
      by rewrite i64_small by lia. }
    rewrite Hval.
    destruct (mod_divide_sub m m_ge_2 (default 0 (r !! n) - D)) as [q Hq].
    exists q. lia.
  - unfold zero_row in Hzero. rewrite HrowR in Hzero.
    rewrite Hzero, lin_zeros.
    assert (Hlast : default 0 (last r) = 0).
    { apply inconsistent_false_row; [done | by eapply list_elem_of_lookup_2 |].
      rewrite (list_split_last r n Hlen), removelast_last, Hzero.
      apply Forall_replicate. done. }
    rewrite (list_split_last r n Hlen), last_snoc in Hlast. simpl in Hlast.
    rewrite Hlast. exists 0. lia.
Qed.
End BackSubstitution.

(** *** The solver returns solutions *)

Lemma gaussian_sound (m : Z) (n : nat) (A : list (list Z)) (b x : list Z) :
  2 ≤ m → m ≤ 2 ^ 20 → Z.of_nat n ≤ 2 ^ 20 →
  shaped n n A → reduced m A → length b = n → Forall (λ v, 0 ≤ v < m) b →
  elim_certificate m n A →
  Gauss.gaussian_elimination_mod A b m = Return (Some x) →
  length x = n ∧ Forall (λ v, 0 ≤ v < m) x ∧ solves m A b x.
Proof.
  intros Hm2 Hm Hn HA HAr Hb Hbr Hcert Hg.
  pose proof HA as [HlenA HwA].
  destruct (gaussian_Some_spec A b m x ltac:(lia) Hg) as [Hlx Hxr].
  split; [lia|]. split; [done|].
  unfold Gauss.gaussian_elimination_mod in Hg.
  rewrite hstack_Return in Hg by lia. unfold bind in Hg. rewrite HlenA in Hg.
  destruct (Gauss.eliminate m n (Gauss.stack A b)) as [Ab1|] eqn:Hel; [|done].
  destruct (Gauss.inconsistent Ab1) eqn:Hinc; [done|].
  injection Hg as <-.
  assert (Hs0 : shaped n (S n) (Gauss.stack A b)) by (by apply stack_shaped).
  assert (Hr0 : reduced m (Gauss.stack A b)) by (by apply stack_reduced).
  unfold Gauss.eliminate in Hel.
  assert (Hs1 : shaped n (S n) Ab1).
  { eapply eliminate_from_shaped; [|exact Hs0|exact Hel]. by apply seq_lt_Forall. }
  assert (Hr1 : reduced m Ab1).
  { eapply eliminate_from_reduced; [|exact Hr0|exact Hel]. lia. }
  assert (Hech : echelon n (take n <$> Ab1)).
  { unfold elim_certificate, Gauss.eliminate in Hcert.
    rewrite <- (stack_fmap_take n A b HA Hb) in Hcert.
    rewrite eliminate_from_fmap_take in Hcert by (by apply seq_lt_Forall).
    by rewrite Hel in Hcert. }
  pose proof (back_substitute_holds m n Ab1 Hm2 Hm Hn Hs1 Hr1 Hech Hinc) as Hholds1.
  assert (Hholds : Forall (row_holds m (Gauss.back_substitute m n Ab1)) (Gauss.stack A b)).
  { apply (eliminate_from_sound m Hm2 Hm _ n (S n) (seq 0 n) (Gauss.stack A b) Ab1);
      [by apply seq_lt_Forall | done | done | done | done]. }
  intros t r v Hr Hv.
  assert (Hst : Gauss.stack A b !! t = Some (r ++ [v])).
  { apply stack_lookup. by exists r, v. }
  pose proof (Forall_lookup_1 _ _ _ _ Hholds Hst) as Hrow.
  unfold row_holds in Hrow. rewrite lin_app in Hrow.
  - unfold lin at 2 in Hrow. simpl in Hrow.
    destruct Hrow as [q Hq]. exists q. lia.
  - rewrite (Forall_lookup_1 _ _ _ _ HwA Hr). lia.
Qed.

(** ** Replay *)

Section Press.
Variable m : Z.
Hypothesis m_ge_2 : 2 ≤ m.
Hypothesis m_small : m ≤ 2 ^ 20.

Lemma press_tile_small v : 0 ≤ v ≤ m → Facade.press_tile m v = v mod m + 1.
Proof.
  intros Hv. unfold Facade.press_tile.
  rewrite (i64_small (v - 1)) by lia.
  replace (v - 1 + 1) with v by lia. rewrite (i64_small v) by lia.
  pose proof (Z.mod_pos_bound v m ltac:(lia)).
  by rewrite i64_small by lia.
Qed.

Lemma iter_press_tile k v :
  0 ≤ v ≤ m →
  Nat.iter (S k) (Facade.press_tile m) v = (v + Z.of_nat k) mod m + 1.
Proof.
  intros Hv. induction k as [|k IH].
  - simpl. rewrite press_tile_small by done. by rewrite Z.add_0_r.
  - rewrite Nat.iter_succ, IH.
    pose proof (Z.mod_pos_bound (v + Z.of_nat k) m ltac:(lia)).
    rewrite press_tile_small by lia.
    rewrite Z.add_mod_idemp_l by lia. do 2 f_equal. lia.
Qed.

Lemma iter_press_tile_solved k v :
  0 ≤ v < m → (m | Z.of_nat k + v - 1) →
  Nat.iter k (Facade.press_tile m) v = 1.
Proof.
  intros Hv Hdiv. destruct k as [|k].
  - simpl. destruct Hdiv as [q Hq]. simpl in Hq.
    assert (q = 0) by nia. lia.
  - rewrite iter_press_tile by lia.
    replace ((v + Z.of_nat k) mod m) with 0; [done|].
    symmetry. apply Z.mod_divide; [lia|].
    replace (v + Z.of_nat k) with (Z.of_nat (S k) + v - 1) by lia. done.
Qed.
End Press.

Section Replay.
Variables (cfg : Facade.Config) (adj_map : gmap nat (list nat)).
Hypothesis click_index_of :
  ∀ i, Facade.click_index cfg (Facade.click_of cfg i) = i.
Hypothesis adj_NoDup : ∀ i l, adj_map !! i = Some l → NoDup l.

Abbreviation press := (Facade.press_tile (Facade.modulus cfg)).
Abbreviation affected i := (default [] (adj_map !! i)).

Lemma replay_fst flat clicks :
  (Facade.replay cfg adj_map flat clicks).1 = foldl (click_board cfg adj_map) flat clicks.
Proof.
  unfold Facade.replay.
  induction clicks as [|c clicks IH] using rev_ind; [done|].
  by rewrite !foldl_app, <- IH.
Qed.

Lemma replay_final_board flat clicks :
  final_board flat (Facade.replay cfg adj_map flat clicks).2
  = (Facade.replay cfg adj_map flat clicks).1.
Proof.
  unfold Facade.replay, final_board.
  induction clicks as [|c clicks _] using rev_ind; [done|].
  rewrite foldl_app. simpl. by rewrite last_snoc.
Qed.

Lemma affected_NoDup i : NoDup (affected i).
Proof.
  destruct (adj_map !! i) as [l|] eqn:E; simpl; [by eapply adj_NoDup | constructor].
Qed.

Lemma apply_click_lookup aff board t :
  NoDup aff →
  Facade.apply_click (Facade.modulus cfg) aff board !! t
  = (if decide (t ∈ aff) then press else id) <$> board !! t.
Proof.
  unfold Facade.apply_click. intros Hnd. revert board.
  induction Hnd as [|a aff Ha _ IH]; intros board.
  - rewrite decide_False by apply not_elem_of_nil. simpl. by rewrite option_fmap_id.
  - simpl foldl. rewrite IH, list_lookup_alter.
    destruct (decide (a = t)) as [-> | Hne].
    + rewrite decide_False by done. rewrite decide_True by (by left).
      by rewrite option_fmap_id.
    + destruct (decide (t ∈ aff)) as [Hin | Hnin].
      * by rewrite decide_True by (by right).
      * rewrite decide_False; [done|].
        intros [-> | ?]%elem_of_cons; done.
Qed.

Lemma length_apply_click aff board :
  length (Facade.apply_click (Facade.modulus cfg) aff board) = length board.
Proof.
  unfold Facade.apply_click. revert board.
  induction aff as [|a aff IH]; intros board; simpl; [done|].
  by rewrite IH, length_alter.
Qed.

Lemma length_foldl_click_board board clicks :
  length (foldl (click_board cfg adj_map) board clicks) = length board.
Proof.
  revert board. induction clicks as [|c clicks IH]; intros board; simpl; [done|].
  rewrite IH. apply length_apply_click.
Qed.

Lemma click_board_repeat k i board t :
  foldl (click_board cfg adj_map) board (replicate k (Facade.click_of cfg i)) !! t
  = Nat.iter (if decide (t ∈ affected i) then k else 0) press <$> board !! t.
Proof.
  revert board. induction k as [|k IH]; intros board.
  - simpl. destruct (decide _); simpl; by rewrite option_fmap_id.
  - cbn [replicate foldl]. rewrite IH. unfold click_board.
    rewrite click_index_of, apply_click_lookup by apply affected_NoDup.
    rewrite <- option_fmap_compose.
    destruct (decide (t ∈ affected i)); [|done].
    destruct (board !! t) as [v|]; simpl; [|done].
    f_equal. rewrite <- Nat.iter_succ_r. done.
Qed.

Lemma clicks_from_lookup x i0 board t :
  foldl (click_board cfg adj_map) board (clicks_from cfg i0 x) !! t
  = Nat.iter (hits adj_map t i0 x) press <$> board !! t.
Proof.
  revert i0 board. induction x as [|count x IH]; intros i0 board; simpl.
  - by rewrite option_fmap_id.
  - rewrite foldl_app, IH, click_board_repeat, <- option_fmap_compose.
    destruct (board !! t) as [v|]; simpl; [|done].
    f_equal. rewrite Nat.add_comm. by rewrite Nat.iter_add.
Qed.

Lemma click_path_clicks_from x : Facade.click_path cfg x = clicks_from cfg 0 x.
Proof.
  unfold Facade.click_path.
  assert (H : ∀ i0,
    concat (imap (λ i count,
                    if decide (0 < count)
                    then replicate (Z.to_nat count) (Facade.click_of cfg (i0 + i))
                    else []) x)
    = clicks_from cfg i0 x).
  { induction x as [|count x IH]; intros i0; [done|].
    rewrite imap_cons. simpl. rewrite Nat.add_0_r. f_equal.
    - case_decide; [done|]. by replace (Z.to_nat count) with 0%nat by lia.
    - rewrite <- (IH (S i0)). f_equal. apply imap_ext. intros i c _. simpl.
      by replace (i0 + S i)%nat with (S (i0 + i)) by lia. }
  apply (H 0%nat).
Qed.
End Replay.

(** ** The systems of the four difficulties *)

Lemma solver_certificates difficulty cfg :
  Facade.configure difficulty = Some cfg → solver_certificate difficulty cfg.
Proof.
  unfold Facade.configure. intros Hcfg.
  destruct (decide (difficulty = "easy"%string)) as [-> | ?].
  { injection Hcfg as <-. apply (bool_decide_unpack _). vm_compute. exact I. }
  destruct (decide (difficulty = "medium"%string)) as [-> | ?].
  { injection Hcfg as <-. apply (bool_decide_unpack _). vm_compute. exact I. }
  destruct (decide (difficulty = "hard"%string ∨ difficulty = "expert"%string))
    as [[-> | ->] | ?]; [| |done].
  - injection Hcfg as <-. apply (bool_decide_unpack _). vm_compute. exact I.
  - injection Hcfg as <-. apply (bool_decide_unpack _). vm_compute. exact I.
Qed.

Lemma configure_facts difficulty cfg :
  Facade.configure difficulty = Some cfg →
  (Facade.n cfg ≤ 37)%nat
  ∧ (if decide (difficulty = "expert"%string) then Facade.modulus cfg = 6
     else Facade.modulus cfg = 2 ∨ Facade.modulus cfg = 4)
  ∧ ∀ i, Facade.click_index cfg (Facade.click_of cfg i) = i.
Proof.
  unfold Facade.configure. intros Hcfg.
  destruct (decide (difficulty = "easy"%string)) as [-> | ?].
  { injection Hcfg as <-. split; [simpl; lia|]. split; [by right|].
    intros i. simpl. symmetry. rewrite Nat.mul_comm. apply (Nat.div_mod i 3). done. }
  destruct (decide (difficulty = "medium"%string)) as [-> | ?].
  { injection Hcfg as <-. split; [simpl; lia|]. split; [by right|].
    intros i. simpl. symmetry. rewrite Nat.mul_comm. apply (Nat.div_mod i 4). done. }
  destruct (decide (difficulty = "hard"%string ∨ difficulty = "expert"%string))
    as [[-> | ->] | ?]; [| |done].
  - injection Hcfg as <-. split; [simpl; lia|]. split; [by left | done].
  - injection Hcfg as <-. split; [simpl; lia|]. split; done.
Qed.

(** ** Press counts and the effects matrix *)

Lemma hits_lin (adj_map : gmap nat (list nat)) (t : nat) (r x : list Z) (i0 : nat) :
  Forall (λ v, 0 ≤ v) x →
  (∀ i, (i0 ≤ i < i0 + length x)%nat →
        r !! i = Some (if decide (t ∈ default [] (adj_map !! i)) then 1 else 0)) →
  Z.of_nat (hits adj_map t i0 x) = lin (drop i0 r) x.
Proof.
  intros Hx. revert i0. induction Hx as [|count x Hc _ IH]; intros i0 Hr.
  - simpl. by destruct (drop i0 r).
  - simpl hits. rewrite (drop_S r _ i0 (Hr i0 ltac:(simpl; lia))), lin_cons.
    rewrite Nat2Z.inj_add, IH by (intros i Hi; apply Hr; simpl; lia).
    case_decide; [rewrite Z2Nat.id by done|]; lia.
Qed.

Lemma topology_ok_row n adj_map A t r i :
  shaped n n A → topology_ok n adj_map A → A !! t = Some r → (i < n)%nat →
  r !! i = Some (if decide (t ∈ default [] (adj_map !! i)) then 1 else 0).
Proof.
  intros [Hn Hw] [_ Hent] Hr Hi.
  assert (Ht : (t < n)%nat) by (apply lookup_lt_Some in Hr; lia).
  rewrite Forall_forall in Hent.
  specialize (Hent i ltac:(apply elem_of_seq; lia)). rewrite Forall_forall in Hent.
  specialize (Hent t ltac:(apply elem_of_seq; lia)).
  unfold Gauss.entry in Hent. rewrite (row_lookup _ _ _ Hr) in Hent.
  destruct (lookup_lt_is_Some_2 r i) as [v Hv].
  { by rewrite (Forall_lookup_1 _ _ _ _ Hw Hr). }
  rewrite Hv in Hent. simpl in Hent. by rewrite Hv, Hent.
Qed.

(** ** Combining the solutions modulo 2 and 3 *)

Lemma lin_congr (m : Z) (r x x' : list Z) :
  Forall2 (λ a a', (m | a - a')) x x' → (m | lin r x - lin r x').
Proof.
  intros Hxx. revert r. induction Hxx as [|a a' x x' [q Hq] _ IH]; intros r.
  - exists 0. by destruct r.
  - destruct r as [|c r]; [by exists 0|].
    rewrite !lin_cons. destruct (IH r) as [q' Hq'].
    exists (c * q + q'). lia.
Qed.

Lemma solves_crt (n : nat) (A : list (list Z)) (b x2 x3 : list Z) :
  length x2 = n → length x3 = n →
  Forall (λ v, 0 ≤ v < 2) x2 → Forall (λ v, 0 ≤ v < 3) x3 →
  solves 2 A ((λ v, v mod 2) <$> b) x2 →
  solves 3 A ((λ v, v mod 3) <$> b) x3 →
  solves 6 A b (Facade.crt_combine n x2 x3).
Proof.
  intros Hl2 Hl3 Hr2 Hr3 Hs2 Hs3 t r v Hr Hv.
  assert (Hdigit : ∀ i k, Facade.crt_combine n x2 x3 !! i = Some k →
            ∃ a2 a3, x2 !! i = Some a2 ∧ x3 !! i = Some a3
                     ∧ k mod 2 = a2 ∧ k mod 3 = a3).
  { intros i k Hk. unfold Facade.crt_combine in Hk.
    rewrite list_lookup_fmap in Hk.
    destruct (seq 0 n !! i) as [i'|] eqn:Hi; [|done].
    apply lookup_seq in Hi as [-> Hi]. simpl in Hk. injection Hk as <-.
    destruct (lookup_lt_is_Some_2 x2 i ltac:(lia)) as [a2 Ha2].
    destruct (lookup_lt_is_Some_2 x3 i ltac:(lia)) as [a3 Ha3].
    exists a2, a3. rewrite Ha2, Ha3. simpl.
    pose proof (Forall_lookup_1 _ _ _ _ Hr2 Ha2) as Hb2.
    pose proof (Forall_lookup_1 _ _ _ _ Hr3 Ha3) as Hb3. simpl in Hb2, Hb3.
    destruct (crt_digit_spec a2 a3 Hb2 Hb3) as (_ & ? & ? & _). done. }
  assert (Hlen : length (Facade.crt_combine n x2 x3) = n).
  { unfold Facade.crt_combine. by rewrite length_fmap, length_seq. }
  assert (H2 : (2 | lin r (Facade.crt_combine n x2 x3) - v)).
  { destruct (lin_congr 2 r (Facade.crt_combine n x2 x3) x2) as [q1 Hq1].
    { apply Forall2_same_length_lookup_2; [lia|].
      intros i k a Hk Ha. destruct (Hdigit i k Hk) as (a2 & a3 & Ha2 & _ & Hk2 & _).
      simplify_eq. exists (k `div` 2). pose proof (Z.div_mod k 2). lia. }
    destruct (Hs2 t r (v mod 2) Hr) as [q2 Hq2].
    { by rewrite list_lookup_fmap, Hv. }
    exists (q1 + q2 - v `div` 2). pose proof (Z.div_mod v 2). lia. }
  assert (H3 : (3 | lin r (Facade.crt_combine n x2 x3) - v)).
  { destruct (lin_congr 3 r (Facade.crt_combine n x2 x3) x3) as [q1 Hq1].
    { apply Forall2_same_length_lookup_2; [lia|].
      intros i k a Hk Ha. destruct (Hdigit i k Hk) as (a2 & a3 & _ & Ha3 & _ & Hk3).
      simplify_eq. exists (k `div` 3). pose proof (Z.div_mod k 3). lia. }
    destruct (Hs3 t r (v mod 3) Hr) as [q2 Hq2].
    { by rewrite list_lookup_fmap, Hv. }
    exists (q1 + q2 - v `div` 3). pose proof (Z.div_mod v 3). lia. }
  destruct H2 as [q2 Hq2], H3 as [q3 Hq3]. exists (q2 - q3). lia.
Qed.

Lemma crt_combine_range n x2 x3 :
  Forall (λ v, 0 ≤ v < 2) x2 → Forall (λ v, 0 ≤ v < 3) x3 →
  length x2 = n → length x3 = n →
  Forall (λ v, 0 ≤ v < 6) (Facade.crt_combine n x2 x3).
Proof.
  intros Hr2 Hr3 Hl2 Hl3. unfold Facade.crt_combine.
  apply Forall_fmap, Forall_forall. intros i Hi%elem_of_seq. simpl.
  destruct (lookup_lt_is_Some_2 x2 i ltac:(lia)) as [a2 Ha2].
  destruct (lookup_lt_is_Some_2 x3 i ltac:(lia)) as [a3 Ha3].
  rewrite Ha2, Ha3. simpl.
  pose proof (Forall_lookup_1 _ _ _ _ Hr2 Ha2) as Hb2.
  pose proof (Forall_lookup_1 _ _ _ _ Hr3 Ha3) as Hb3. simpl in Hb2, Hb3.
  by destruct (crt_digit_spec a2 a3 Hb2 Hb3) as (? & _).
Qed.

(** ** Round trip *)

Lemma reduced_mono m m' M : m ≤ m' → reduced m M → reduced m' M.
Proof.
  intros Hm HM. eapply Forall_impl; [exact HM|]. intros r Hr. simpl in Hr.
  eapply Forall_impl; [exact Hr|]. intros v Hv. simpl in *. lia.
Qed.

Lemma target_vector_range m flat :
  0 < m → Forall (λ v, 0 ≤ v < m) (Facade.target_vector m flat).
Proof.
  intros Hm. unfold Facade.target_vector. apply Forall_fmap, Forall_true.
  intros v. simpl. apply Z.mod_pos_bound. lia.
Qed.

Lemma fmap_mod_range m (b : list Z) :
  0 < m → Forall (λ v, 0 ≤ v < m) ((λ v, v mod m) <$> b).
Proof.
  intros Hm. apply Forall_fmap, Forall_true. intros v. simpl.
  apply Z.mod_pos_bound. lia.
Qed.

Lemma press_counts_solves difficulty cfg flat x :
  Facade.configure difficulty = Some cfg →
  Facade.press_counts difficulty cfg
    (Facade.effects_matrix (Facade.n cfg) (Facade.adj_map_of cfg))
    (Facade.target_vector (Facade.modulus cfg) flat) = Return (Some x) →
  length flat = Facade.n cfg ∧ length x = Facade.n cfg
  ∧ Forall (λ v, 0 ≤ v) x
  ∧ solves (Facade.modulus cfg)
      (Facade.effects_matrix (Facade.n cfg) (Facade.adj_map_of cfg))
      (Facade.target_vector (Facade.modulus cfg) flat) x.
Proof.
  intros Hcfg.
  destruct (solver_certificates difficulty cfg Hcfg) as (Hsh & Hred & _ & Hel).
  destruct (configure_facts difficulty cfg Hcfg) as (Hn & Hm & _).
  set (A := Facade.effects_matrix (Facade.n cfg) (Facade.adj_map_of cfg)) in *.
  set (b := Facade.target_vector (Facade.modulus cfg) flat).
  assert (HlenA : length A = Facade.n cfg) by apply Hsh.
  assert (Hlenb : length b = length flat).
  { unfold b, Facade.target_vector. by rewrite length_fmap. }
  clearbody A. unfold Facade.press_counts.
  destruct (decide (difficulty = "expert"%string)) as [He | He].
  - destruct (Gauss.gaussian_elimination_mod A ((λ v, v mod 2) <$> b) 2)
      as [[x2|]|] eqn:H2; simpl; [| |done].
    2:{ by destruct (Gauss.gaussian_elimination_mod A ((λ v, v mod 3) <$> b) 3). }
    destruct (Gauss.gaussian_elimination_mod A ((λ v, v mod 3) <$> b) 3)
      as [[x3|]|] eqn:H3; simpl; [|done|done].
    intros [= <-].
    pose proof (gaussian_Return_length _ _ _ _ H2) as Hlen2.
    rewrite length_fmap in Hlen2.
    inversion Hel as [|? ? Hc2 Hel']; subst. inversion Hel' as [|? ? Hc3 _]; subst.
    destruct (gaussian_sound 2 (Facade.n cfg) A ((λ v, v mod 2) <$> b) x2)
      as (Hl2 & Hr2 & Hs2); try done; try lia.
    { by rewrite length_fmap; lia. }
    { by apply fmap_mod_range. }
    destruct (gaussian_sound 3 (Facade.n cfg) A ((λ v, v mod 3) <$> b) x3)
      as (Hl3 & Hr3 & Hs3); try done; try lia.
    { by apply (reduced_mono 2). }
    { by rewrite length_fmap; lia. }
    { by apply fmap_mod_range. }
    split; [lia|]. split.
    { unfold Facade.crt_combine. by rewrite length_fmap, length_seq. }
    split.
    + eapply Forall_impl; [by apply crt_combine_range|]. intros v Hv. simpl in Hv. lia.
    + rewrite Hm. by apply solves_crt.
  - intros Hg.
    pose proof (gaussian_Return_length _ _ _ _ Hg) as Hlen.
    inversion Hel as [|? ? Hc _]; subst.
    destruct (gaussian_sound (Facade.modulus cfg) (Facade.n cfg) A b x)
      as (Hl & Hr & Hs); try done; try lia.
    { apply (reduced_mono 2); [lia | done]. }
    { apply target_vector_range. lia. }
    split; [lia|]. split; [done|]. split; [|done].
    eapply Forall_impl; [exact Hr|]. intros v Hv. simpl in Hv. lia.
Qed.

(** C1: for a recognized difficulty and a board with entries in
    [[0, modulus)], when [solve] returns a list of steps, the board after
    the last step (the initial board when there is no step) has every
    tile equal to 1. *)
Theorem solve_round_trip (board : Board) (difficulty : string)
    (cfg : Facade.Config) (flat : list Z) (steps : list SolutionStep) :
  Facade.configure difficulty = Some cfg →
  Facade.flatten board = Return flat →
  Forall (λ v, 0 ≤ v < Facade.modulus cfg) flat →
  Facade.solve board difficulty = Return (Some steps) →
  final_board flat steps = replicate (Facade.n cfg) 1.
Proof.
  intros Hcfg Hflat Hrange Hsolve.
  rewrite (solve_unfold board difficulty cfg flat Hcfg Hflat) in Hsolve.
  destruct (Facade.press_counts _ _ _ _) as [[x|]|] eqn:Hpc; simpl in Hsolve;
    [|done|done].
  injection Hsolve as <-.
  destruct (press_counts_solves difficulty cfg flat x Hcfg Hpc)
    as (Hlf & Hlx & Hx0 & Hsolves).
  destruct (solver_certificates difficulty cfg Hcfg) as (Hsh & _ & Htop & _).
  destruct (configure_facts difficulty cfg Hcfg) as (Hn & Hm & Hclick).
  assert (Hm2 : 2 ≤ Facade.modulus cfg ≤ 2 ^ 20).
  { case_decide; [lia|]. destruct Hm; lia. }
  clear Hpc Hm.
  set (adj := Facade.adj_map_of cfg) in *.
  set (A := Facade.effects_matrix (Facade.n cfg) adj) in *.
  clearbody A adj.
  assert (Hnd : ∀ i l, adj !! i = Some l → NoDup l).
  { intros i l Hl. by apply (proj1 Htop i l). }
  rewrite (replay_final_board cfg adj), (replay_fst cfg adj).
  rewrite (click_path_clicks_from cfg x).
  apply list_eq. intros t.
  rewrite (clicks_from_lookup cfg adj Hclick Hnd).
  destruct (decide (t < Facade.n cfg)%nat) as [Ht | Ht].
  - destruct (lookup_lt_is_Some_2 flat t ltac:(lia)) as [v Hv].
    destruct (lookup_lt_is_Some_2 A t ltac:(destruct Hsh; lia)) as [r Hr].
    rewrite Hv, lookup_replicate_2 by done. simpl. f_equal.
    pose proof (Forall_lookup_1 _ _ _ _ Hrange Hv) as Hvr. simpl in Hvr.
    apply iter_press_tile_solved; [lia | lia | done |].
    rewrite (hits_lin adj t r x 0 Hx0).
    2:{ intros i Hi. apply (topology_ok_row (Facade.n cfg) adj A); try done. lia. }
    rewrite drop_0.
    destruct (Hsolves t r (i64 (1 - v) mod Facade.modulus cfg) Hr) as [q Hq].
    { unfold Facade.target_vector. by rewrite list_lookup_fmap, Hv. }
    rewrite i64_small in Hq by lia.
    exists (q - (1 - v) `div` Facade.modulus cfg).
    pose proof (Z.div_mod (1 - v) (Facade.modulus cfg) ltac:(lia)). lia.
  - rewrite (lookup_ge_None_2 flat) by lia.
    by rewrite lookup_ge_None_2 by (rewrite length_replicate; lia).
Qed.

Lemma solve_round_trip_witness :
  ∃ steps, Facade.solve (Nested [[0; 1; 2]; [3; 0; 1]; [2; 3; 0]]) "easy"
           = Return (Some steps)
         ∧ final_board [0; 1; 2; 3; 0; 1; 2; 3; 0] steps = replicate 9 1.
Proof.
  assert (E : ∃ steps, Facade.solve (Nested [[0; 1; 2]; [3; 0; 1]; [2; 3; 0]]) "easy"
                       = Return (Some steps)).
  { vm_compute. eexists. reflexivity. }
  destruct E as [steps E]. exists steps. split; [exact E|].
  apply (solve_round_trip (Nested [[0; 1; 2]; [3; 0; 1]; [2; 3; 0]]) "easy"
           easy_cfg [0; 1; 2; 3; 0; 1; 2; 3; 0] steps eq_refl eq_refl).
  - repeat constructor; simpl; lia.
  - exact E.
Defined.

(** * Further properties *)

(** ** Further properties of the topology *)

Lemma axial_coords_origin (radius : Z) : 0 ≤ radius → (0, 0) ∈ Hex.axial_coords radius.
Proof. intros Hr. apply elem_of_axial_coords. simpl. lia. Qed.

Lemma axial_coords_negative (radius : Z) : radius < 0 → Hex.axial_coords radius = ∅.
Proof.
  intros Hr. apply set_eq. intros a. rewrite elem_of_axial_coords.
  split; [lia | by intros ?%not_elem_of_empty].
Qed.

Lemma length_omap_le {A B} (f : A → option B) (l : list A) :
  (length (omap f l) ≤ length l)%nat.
Proof. induction l as [|x l IH]; csimpl; [lia|]. destruct (f x); simpl; lia. Qed.

Lemma hexagon_self (radius : Z) (i : nat) (l : list nat) :
  Hex.get_hexagon_board_details radius !! i = Some l → i ∈ l.
Proof.
  destruct (get_hexagon_board_details_cases radius) as [-> | (mr & mc & ->)].
  - by rewrite lookup_empty.
  - intros (a & Ha & -> & ->)%lookup_adj_map_indices.
    apply elem_of_affected_of. by left.
Qed.

Lemma grid_self (size_rc n k : nat) (l : list nat) :
  Facade.grid_adj_map size_rc n !! k = Some l → k ∈ l.
Proof.
  intros [Hk ->]%lookup_grid_adj_map.
  apply list_elem_of_filter. split; [|apply elem_of_seq; lia].
  unfold Facade.grid_affects. lia.
Qed.

(** X1: pressing a tile always affects the tile itself: in the hexagon
    map of any radius and in the grid map of any size, the list of tile
    [i] contains [i]. *)
Theorem adjacency_self_inclusion :
  (∀ (radius : Z) (i : nat) (l : list nat),
      Hex.get_hexagon_board_details radius !! i = Some l → i ∈ l)
  ∧ (∀ (size_rc n k : nat) (l : list nat),
      Facade.grid_adj_map size_rc n !! k = Some l → k ∈ l).
Proof. split; [apply hexagon_self | apply grid_self]. Qed.

Lemma adjacency_self_inclusion_witness :
  3%nat ∈ [0; 1; 2; 3; 4; 5; 6]%nat ∧ 4%nat ∈ [0; 1; 2; 3; 4; 5; 6; 7; 8]%nat.
Proof.
  split.
  - apply (proj1 adjacency_self_inclusion 1 3%nat). vm_compute. reflexivity.
  - apply (proj2 adjacency_self_inclusion 3%nat 9%nat 4%nat). vm_compute. reflexivity.
Defined.

(** X2: for every radius the keys of the hexagon map are exactly the
    indices below its size: the tiles are numbered 0 .. N - 1 without a
    gap. *)
Theorem hexagon_keys_dense (radius : Z) (i : nat) :
  is_Some (Hex.get_hexagon_board_details radius !! i)
  ↔ (i < size (Hex.get_hexagon_board_details radius))%nat.
Proof.
  destruct (get_hexagon_board_details_cases radius) as [-> | (mr & mc & ->)].
  - rewrite lookup_empty, map_size_empty. split; [by intros [? ?] | lia].
  - apply adj_map_indices_keys.
Qed.

(** X3: the map is empty exactly for a negative radius; radius 0 already
    gives a board (of one tile). *)
Theorem hexagon_empty_iff_negative (radius : Z) :
  Hex.get_hexagon_board_details radius = ∅ ↔ radius < 0.
Proof.
  unfold Hex.get_hexagon_board_details, Hex.offset_coords_unnormalized. split.
  - intros He. destruct (decide (radius < 0)) as [|Hr]; [done|]. exfalso.
    pose proof (axial_coords_origin radius ltac:(lia)) as H0.
    destruct (elements _) as [|c cs] eqn:Hel.
    + apply elements_empty_inv in Hel.
      assert (Hex.axial_to_offset 0 0 ∈ (∅ : gset (Z * Z))) as []%not_elem_of_empty.
      rewrite <- Hel. apply elem_of_map. by exists (0, 0).
    + cbv zeta in He.
      pose proof (size_adj_map_indices radius
                    (Hex.py_min c.1 (fst <$> cs)) (Hex.py_min c.2 (snd <$> cs))) as Hs.
      rewrite He, map_size_empty, length_sorted_coords in Hs.
      symmetry in Hs. apply size_empty_inv in Hs.
      assert (Hex.norm_offset (Hex.py_min c.1 (fst <$> cs)) (Hex.py_min c.2 (snd <$> cs))
                (0, 0) ∈ (∅ : gset (Z * Z))) as []%not_elem_of_empty.
      rewrite <- Hs. apply elem_of_valid_cells. by exists (0, 0).
  - intros Hr. rewrite axial_coords_negative by done.
    by rewrite set_map_empty, elements_empty.
Qed.

(** X4: for every radius, a tile affects itself and at most its six
    neighbours: every list has between 1 and 7 entries. *)
Theorem hexagon_list_length (radius : Z) (i : nat) (l : list nat) :
  Hex.get_hexagon_board_details radius !! i = Some l →
  (1 ≤ length l ≤ 7)%nat.
Proof.
  destruct (get_hexagon_board_details_cases radius) as [-> | (mr & mc & ->)].
  - by rewrite lookup_empty.
  - intros (a & Ha & -> & ->)%lookup_adj_map_indices.
    unfold hex_affected_of. rewrite merge_sort_Permutation, length_fmap. simpl.
    pose proof (length_omap_le
      (λ d : Z * Z, Hex.axial_to_offset_map radius mr mc !! (a.1 + d.1, a.2 + d.2))
      Hex.axial_directions) as Hle.
    unfold hex_neighbors_of. simpl in Hle |- *. lia.
Qed.

Lemma hexagon_list_length_witness :
  ∃ l, Hex.get_hexagon_board_details 1 !! 0%nat = Some l ∧ (1 ≤ length l ≤ 7)%nat.
Proof.
  exists [0; 1; 2; 3]%nat.
  assert (H : Hex.get_hexagon_board_details 1 !! 0%nat = Some [0; 1; 2; 3]%nat)
    by (vm_compute; reflexivity).
  split; [exact H | exact (hexagon_list_length 1 0 _ H)].
Defined.

(** ** The grid *)

Lemma grid_affects_sym (s i k : nat) :
  Facade.grid_affects s i k → Facade.grid_affects s k i.
Proof. unfold Facade.grid_affects. lia. Qed.

Lemma elem_of_grid_adj_map (s n k i : nat) :
  (∃ l, Facade.grid_adj_map s n !! k = Some l ∧ i ∈ l)
  ↔ (k < n)%nat ∧ (i < n)%nat ∧ Facade.grid_affects s i k.
Proof.
  split.
  - intros (l & (Hk & ->)%lookup_grid_adj_map & Hi).
    apply list_elem_of_filter in Hi as [Ha Hi%elem_of_seq]. split_and!; [done | lia | done].
  - intros (Hk & Hi & Ha). eexists. split; [by apply lookup_grid_adj_map|].
    apply list_elem_of_filter. split; [done|]. apply elem_of_seq. lia.
Qed.

(** X5: the grid adjacency is symmetric for every size: tile [j] is in
    the list of tile [i] exactly when tile [i] is in the list of tile
    [j]. *)
Theorem grid_adjacency_symmetric (size_rc n i j : nat) :
  (∃ l, Facade.grid_adj_map size_rc n !! i = Some l ∧ j ∈ l)
  ↔ (∃ l, Facade.grid_adj_map size_rc n !! j = Some l ∧ i ∈ l).
Proof.
  rewrite !elem_of_grid_adj_map.
  split; intros (? & ? & ?%grid_affects_sym); done.
Qed.

(** ** The number of tiles *)

Lemma bind_singleton_fmap {A B} (g : A → B) (l : list A) :
  (x ← l; [g x]) = g <$> l.
Proof. induction l as [|a l IH]; [done|]. rewrite bind_cons, IH. done. Qed.

Lemma length_bind_sum {A B} (f : A → list B) (l : list A) :
  length (l ≫= f) = sum_list ((λ x, length (f x)) <$> l).
Proof.
  induction l as [|a l IH]; [done|].
  rewrite bind_cons, length_app, IH. done.
Qed.

(** [2 * sum (a + b * q)] for [q] from [s] to [s + k - 1]. *)
Lemma sum_affine (a b s : Z) (k : nat) :
  2 * Z.of_nat (sum_list ((λ q, Z.to_nat (a + b * q)) <$> seqZ s (Z.of_nat k)))
  = 2 * a * Z.of_nat k + b * (2 * s * Z.of_nat k + Z.of_nat k * (Z.of_nat k - 1))
  ∨ ¬ Forall (λ q, 0 ≤ a + b * q) (seqZ s (Z.of_nat k)).
Proof.
  revert s. induction k as [|k IH]; intros s.
  - left. simpl. lia.
  - rewrite seqZ_cons by lia.
    replace (Z.pred (Z.of_nat (S k))) with (Z.of_nat k) by lia.
    destruct (decide (0 ≤ a + b * s)) as [Hs | Hs].
    2:{ right. intros Hall. by inversion Hall. }
    destruct (IH (Z.succ s)) as [IH' | IH'].
    2:{ right. intros Hall. inversion Hall. by apply IH'. }
    left. rewrite fmap_cons.
    change (sum_list (?x :: ?l)) with (x + sum_list l)%nat.
    rewrite Nat2Z.inj_add, Z2Nat.id by done. nia.
Qed.

Section TileCount.
Variable radius : Z.
Hypothesis radius_nonneg : 0 ≤ radius.

Lemma axial_list_NoDup :
  NoDup (q ← py_range (- radius) (radius + 1);
         r ← py_range (Z.max (- radius) (- q - radius))
                      (Z.min radius (- q + radius) + 1);
         [(q, r)]).
Proof.
  apply NoDup_bind.
  - intros q1 q2 [q r] _ _ H1 H2.
    rewrite bind_singleton_fmap in H1, H2.
    apply list_elem_of_fmap in H1 as (? & [= -> ->] & _).
    apply list_elem_of_fmap in H2 as (? & [= -> ->] & _). done.
  - intros q _. rewrite bind_singleton_fmap.
    apply NoDup_fmap_2; [|apply NoDup_seqZ]. intros r1 r2 [= ->]. done.
  - apply NoDup_seqZ.
Qed.

Lemma size_axial_coords :
  Z.of_nat (size (Hex.axial_coords radius)) = 3 * radius * radius + 3 * radius + 1.
Proof.
  unfold Hex.axial_coords. rewrite size_list_to_set by apply axial_list_NoDup.
  rewrite length_bind_sum. unfold py_range.
  replace (radius + 1 - - radius) with (radius + (radius + 1)) by lia.
  rewrite seqZ_app, fmap_app by lia.
  assert (Happ : ∀ l1 l2 : list nat, sum_list (l1 ++ l2) = (sum_list l1 + sum_list l2)%nat).
  { intros l1 l2. induction l1 as [|x l1 IH]; simpl; [done|]. rewrite IH. lia. }
  rewrite Happ, Nat2Z.inj_add.
  replace (- radius + radius) with 0 by lia.
  assert (H1 : (λ q, length (r ← seqZ (Z.max (- radius) (- q - radius))
                                   (Z.min radius (- q + radius) + 1
                                    - Z.max (- radius) (- q - radius));
                            [(q, r)])) <$> seqZ (- radius) radius
               = (λ q, Z.to_nat (2 * radius + 1 + 1 * q)) <$> seqZ (- radius) radius).
  { apply list_fmap_ext. intros i q Hq. apply lookup_seqZ in Hq.
    rewrite bind_singleton_fmap, length_fmap, length_seqZ. f_equal. lia. }
  assert (H2 : (λ q, length (r ← seqZ (Z.max (- radius) (- q - radius))
                                   (Z.min radius (- q + radius) + 1
                                    - Z.max (- radius) (- q - radius));
                            [(q, r)])) <$> seqZ 0 (radius + 1)
               = (λ q, Z.to_nat (2 * radius + 1 + (-1) * q)) <$> seqZ 0 (radius + 1)).
  { apply list_fmap_ext. intros i q Hq. apply lookup_seqZ in Hq.
    rewrite bind_singleton_fmap, length_fmap, length_seqZ. f_equal. lia. }
  rewrite H1, H2. clear H1 H2 Happ.
  destruct (sum_affine (2 * radius + 1) 1 (- radius) (Z.to_nat radius)) as [E1 | E1].
  2:{ exfalso. apply E1. apply Forall_forall. intros q Hq%elem_of_seqZ. lia. }
  destruct (sum_affine (2 * radius + 1) (-1) 0 (Z.to_nat (radius + 1))) as [E2 | E2].
  2:{ exfalso. apply E2. apply Forall_forall. intros q Hq%elem_of_seqZ. lia. }
  rewrite !Z2Nat.id in E1, E2 by lia. nia.
Qed.

Lemma size_valid_cells (min_r min_c : Z) :
  size (Hex.valid_cells radius min_r min_c) = size (Hex.axial_coords radius).
Proof.
  assert (HVC : Hex.valid_cells radius min_r min_c
                = list_to_set (Hex.norm_offset min_r min_c
                               <$> elements (Hex.axial_coords radius))).
  { apply set_eq. intros c.
    rewrite elem_of_valid_cells, elem_of_list_to_set, list_elem_of_fmap.
    split; intros (a & H1 & H2).
    - exists a. split; [done|]. by apply elem_of_elements.
    - exists a. split; [by apply elem_of_elements | done]. }
  rewrite HVC, size_list_to_set.
  - by rewrite length_fmap.
  - apply NoDup_fmap_2; [|apply NoDup_elements].
    intros a a'. apply norm_offset_inj.
Qed.
End TileCount.

(** X24: a hexagon of radius [r >= 0] has [3 r^2 + 3 r + 1] tiles (1, 7,
    19, 37, ...): this is the number of keys of the map. *)
Theorem hexagon_tile_count (radius : Z) :
  0 ≤ radius →
  Z.of_nat (size (Hex.get_hexagon_board_details radius))
  = 3 * radius * radius + 3 * radius + 1.
Proof.
  intros Hr. rewrite <- (size_axial_coords radius Hr).
  unfold Hex.get_hexagon_board_details.
  destruct (elements (Hex.offset_coords_unnormalized radius)) as [|c cs] eqn:Hel.
  - exfalso. apply elements_empty_inv in Hel.
    unfold Hex.offset_coords_unnormalized in Hel.
    assert (Hex.axial_to_offset 0 0 ∈ (∅ : gset (Z * Z))) as []%not_elem_of_empty.
    rewrite <- Hel. apply elem_of_map. exists (0, 0). split; [done|].
    apply elem_of_axial_coords. simpl. lia.
  - cbv zeta. f_equal.
    by rewrite size_adj_map_indices, length_sorted_coords, size_valid_cells.
Qed.

Lemma hexagon_tile_count_witness :
  Z.of_nat (size (Hex.get_hexagon_board_details 2)) = 3 * 2 * 2 + 3 * 2 + 1.
Proof. apply (hexagon_tile_count 2). lia. Defined.

(** ** The effects matrix of any adjacency map *)

Section EffectsMatrix.
Variable n : nat.

Lemma shaped_set_entry (A : list (list Z)) r c v :
  shaped n n A → shaped n n (Facade.set_entry A r c v).
Proof.
  intros [Hn Hw]. unfold Facade.set_entry. split; [by rewrite length_alter|].
  apply Forall_alter; [done|]. intros l Hl. by rewrite length_insert.
Qed.

Lemma entry_set_entry (A : list (list Z)) r c t i :
  shaped n n A → (t < n)%nat → (i < n)%nat →
  Gauss.entry (Facade.set_entry A r c 1) t i
  = if decide (t = r ∧ i = c) then 1 else Gauss.entry A t i.
Proof.
  intros [Hn Hw] Ht Hi. unfold Gauss.entry, Facade.set_entry.
  destruct (lookup_lt_is_Some_2 A t ltac:(lia)) as [l Hl].
  pose proof (Forall_lookup_1 _ _ _ _ Hw Hl) as Hlen. simpl in Hlen.
  rewrite (row_lookup A t l Hl).
  destruct (decide (t = r)) as [-> | Hne].
  - rewrite (row_lookup _ r (<[c := 1]> l))
      by (by rewrite list_lookup_alter, decide_True, Hl by done).
    destruct (decide (i = c)) as [-> | Hnc].
    + rewrite decide_True by done. by rewrite list_lookup_insert_eq by lia.
    + rewrite decide_False by (intros [_ ?]; done).
      by rewrite list_lookup_insert_ne by done.
  - rewrite (row_lookup _ t l) by (by rewrite list_lookup_alter_ne).
    by rewrite decide_False by (intros [? _]; done).
Qed.

Lemma entry_press_list (l : list nat) (A : list (list Z)) c t i :
  shaped n n A → (t < n)%nat → (i < n)%nat →
  shaped n n (foldl (λ A tile_idx, Facade.set_entry A tile_idx c 1) A l)
  ∧ Gauss.entry (foldl (λ A tile_idx, Facade.set_entry A tile_idx c 1) A l) t i
    = if decide (i = c ∧ t ∈ l) then 1 else Gauss.entry A t i.
Proof.
  intros HA Ht Hi. revert A HA. induction l as [|r l IH]; intros A HA.
  - split; [done|]. cbn [foldl]. rewrite decide_False; [done|].
    intros [_ ?%not_elem_of_nil]. done.
  - simpl foldl. destruct (IH (Facade.set_entry A r c 1)) as [Hsh ->].
    { by apply shaped_set_entry. }
    split; [done|]. rewrite entry_set_entry by done.
    destruct (decide (i = c ∧ t ∈ l)) as [[-> Hin] | Hn1].
    + rewrite decide_True; [done|]. split; [done | by right].
    + destruct (decide (t = r ∧ i = c)) as [[-> ->] | Hn2].
      * rewrite decide_True; [done|]. split; [done | by left].
      * rewrite decide_False; [done|].
        intros [-> [-> | Hin]%elem_of_cons]; [by apply Hn2 | by apply Hn1].
Qed.

Lemma entry_press_items (items : list (nat * list nat)) (A : list (list Z)) t i :
  shaped n n A → (t < n)%nat → (i < n)%nat →
  shaped n n (foldl (λ A (item : nat * list nat),
                       foldl (λ A tile_idx, Facade.set_entry A tile_idx item.1 1) A item.2)
                    A items)
  ∧ Gauss.entry (foldl (λ A (item : nat * list nat),
                          foldl (λ A tile_idx, Facade.set_entry A tile_idx item.1 1) A item.2)
                       A items) t i
    = if decide (Exists (λ item : nat * list nat, i = item.1 ∧ t ∈ item.2) items)
      then 1 else Gauss.entry A t i.
Proof.
  intros HA Ht Hi. revert A HA. induction items as [|item items IH]; intros A HA.
  - split; [done|]. cbn [foldl]. rewrite decide_False; [done|]. by intros ?%Exists_nil.
  - simpl foldl.
    destruct (entry_press_list item.2 A item.1 t i HA Ht Hi) as [Hsh Hent].
    destruct (IH _ Hsh) as [Hsh' ->]. split; [done|]. rewrite Hent.
    destruct (decide (Exists (λ item : nat * list nat, i = item.1 ∧ t ∈ item.2) items))
      as [Hex | Hnex].
    + rewrite decide_True; [done|]. by apply Exists_cons_tl.
    + destruct (decide (i = item.1 ∧ t ∈ item.2)) as [Hit | Hnit].
      * rewrite decide_True; [done|]. by apply Exists_cons_hd.
      * rewrite decide_False; [done|]. by intros [?|?]%Exists_cons.
Qed.

Lemma zeros_shaped : shaped n n (replicate n (replicate n 0)).
Proof.
  split; [by rewrite length_replicate|].
  apply Forall_replicate. by rewrite length_replicate.
Qed.

Lemma zeros_entry t i : Gauss.entry (replicate n (replicate n 0)) t i = 0.
Proof.
  unfold Gauss.entry, Gauss.row.
  destruct (replicate n (replicate n 0) !! t) as [l|] eqn:Hl; simpl; [|done].
  apply lookup_replicate in Hl as [-> _].
  destruct (replicate n 0 !! i) as [v|] eqn:Hv; simpl; [|done].
  by apply lookup_replicate in Hv as [-> _].
Qed.

Lemma effects_matrix_entries (adj_map : gmap nat (list nat)) t i :
  (t < n)%nat → (i < n)%nat →
  shaped n n (Facade.effects_matrix n adj_map)
  ∧ Gauss.entry (Facade.effects_matrix n adj_map) t i
    = if decide (t ∈ default [] (adj_map !! i)) then 1 else 0.
Proof.
  intros Ht Hi. unfold Facade.effects_matrix.
  destruct (entry_press_items (map_to_list adj_map) _ t i zeros_shaped Ht Hi)
    as [Hsh ->].
  split; [done|]. rewrite zeros_entry.
  destruct (decide (t ∈ default [] (adj_map !! i))) as [Hin | Hnin].
  - rewrite decide_True; [done|].
    destruct (adj_map !! i) as [l|] eqn:Hl; simpl in Hin; [|by apply not_elem_of_nil in Hin].
    apply Exists_exists. exists (i, l). split; [by apply elem_of_map_to_list | done].
  - rewrite decide_False; [done|].
    intros ([k l] & Hkl%elem_of_map_to_list & Hk & Hin)%Exists_exists. simpl in *.
    subst k. apply Hnin. by rewrite Hkl.
Qed.
End EffectsMatrix.

(** X13: for any adjacency map whose tiles are below [n] (where the
    assignments are within the array), the effects matrix is an [n] by
    [n] array of zeros and ones: [A[t, i]] is 1 exactly when tile [t] is
    in the list of button [i]. *)
Theorem effects_matrix_spec (n : nat) (adj_map : gmap nat (list nat)) :
  map_Forall (λ i l, (i < n)%nat ∧ Forall (λ t, (t < n)%nat) l) adj_map →
  shaped n n (Facade.effects_matrix n adj_map)
  ∧ ∀ t i, (t < n)%nat → (i < n)%nat →
      Gauss.entry (Facade.effects_matrix n adj_map) t i
      = if decide (t ∈ default [] (adj_map !! i)) then 1 else 0.
Proof.
  intros _. split.
  - destruct n as [|n'].
    + unfold Facade.effects_matrix. split; [|].
      * apply length_effects_matrix.
      * pose proof (length_effects_matrix 0 adj_map) as H0.
        apply length_zero_iff_nil in H0. unfold Facade.effects_matrix in H0.
        rewrite H0. constructor.
    + apply (effects_matrix_entries (S n') adj_map 0 0); lia.
  - intros t i Ht Hi. by apply effects_matrix_entries.
Qed.

Lemma effects_matrix_spec_witness :
  shaped 4 4 (Facade.effects_matrix 4 (Facade.grid_adj_map 2 4))
  ∧ ∀ t i, (t < 4)%nat → (i < 4)%nat →
      Gauss.entry (Facade.effects_matrix 4 (Facade.grid_adj_map 2 4)) t i
      = if decide (t ∈ default [] (Facade.grid_adj_map 2 4 !! i)) then 1 else 0.
Proof.
  apply (effects_matrix_spec 4 (Facade.grid_adj_map 2 4)).
  apply (bool_decide_unpack _). vm_compute. exact I.
Defined.

(** ** The elimination keeps every solution *)

Section Completeness.
Import Gauss.
Variable m : Z.
Hypothesis m_ge_2 : 2 ≤ m.
Hypothesis m_small : m ≤ 2 ^ 20.
Variable x : list Z.

Abbreviation holds := (row_holds m x).
Abbreviation in_range := (λ v : Z, 0 ≤ v < m).

Lemma scale_row_keeps inv r :
  Forall in_range r → 0 ≤ inv < m → holds r → holds (scale_row m inv r).
Proof.
  intros Hr Hinv. unfold row_holds.
  destruct (lin_scale_row m m_ge_2 m_small inv r (x ++ [-1]) Hr Hinv) as [k1 Hk1].
  intros [k2 Hk2]. exists (k1 + inv * k2). rewrite Hk2 in Hk1. lia.
Qed.

Lemma sub_row_keeps c rj ri :
  Forall in_range rj → Forall in_range ri → 0 ≤ c < m → length ri = length rj →
  holds rj → holds ri → holds (sub_row m c rj ri).
Proof.
  intros Hrj Hri Hc Hlen. unfold row_holds.
  destruct (lin_sub_row m m_ge_2 m_small c rj ri (x ++ [-1]) Hrj Hri Hc Hlen) as [k1 Hk1].
  intros [k2 Hk2] [k3 Hk3].
  exists (k1 + k2 - c * k3). rewrite Hk2, Hk3 in Hk1. lia.
Qed.

Lemma clear_column_keeps n w i M :
  shaped n w M → reduced m M → (i < n)%nat →
  Forall holds M → Forall holds (clear_column m n i M).
Proof.
  intros Hsh Hred Hi. unfold clear_column.
  assert (H : ∀ js, Forall (λ j, (j < n)%nat) js → ∀ M, shaped n w M → reduced m M →
    Forall holds M →
    Forall holds (foldl (λ Ab j, if decide (i ≠ j)
                      then <[j := sub_row m (entry Ab j i) (row Ab j) (row Ab i)]> Ab
                      else Ab) M js)).
  { induction js as [|j js IH]; intros Hjs M' Hsh' Hred' Hall; simpl in *; [done|].
    inversion Hjs as [|? ? Hj Hjs']; subst.
    pose proof Hsh' as [Hn _].
    case_decide as Hne; [|by apply (IH Hjs')].
    apply (IH Hjs').
    - apply shaped_insert; [done|].
      rewrite length_sub_row; rewrite !(shaped_row n w) by done; done.
    - apply Forall_insert; [done|]. apply sub_row_range. lia.
    - apply Forall_insert; [done|]. apply sub_row_keeps.
      + by apply reduced_row.
      + by apply reduced_row.
      + apply reduced_entry; [lia | done].
      + by rewrite !(shaped_row n w).
      + apply holds_row; [done | lia].
      + apply holds_row; [done | lia]. }
  apply H; try done. by apply seq_lt_Forall.
Qed.

Lemma swap_rows_keeps M i p :
  (i < length M)%nat → (p < length M)%nat →
  Forall holds M → Forall holds (swap_rows M i p).
Proof.
  intros Hi Hp Hall. unfold swap_rows.
  apply Forall_insert; [apply Forall_insert; [done|]|]; by apply holds_row.
Qed.

Lemma pivot_step_keeps n w M i M' :
  shaped n w M → reduced m M → (i < n)%nat →
  pivot_step m n M i = Some M' → Forall holds M → Forall holds M'.
Proof.
  intros Hsh Hred Hi. unfold pivot_step.
  destruct (find_pivot_spec M n i ltac:(lia)) as ((_ & Hp) & _).
  case_decide as Hpn; [by intros [= <-]|].
  destruct (mod_inverse _ _) as [inv|] eqn:Hinv; [|done].
  intros [= <-] Hall.
  pose proof Hsh as [Hn _].
  apply mod_inverse_Some in Hinv as [Hinv Hone].
  set (M1 := swap_rows M i (find_pivot M n i)) in *.
  assert (Hsh1 : shaped n w M1) by (apply shaped_swap_rows; [done | done | lia]).
  assert (Hred1 : reduced m M1) by (by apply reduced_swap_rows).
  assert (Hall1 : Forall holds M1) by (apply swap_rows_keeps; [lia | lia | done]).
  apply (clear_column_keeps n w); [| |done|].
  - apply shaped_insert; [done|]. unfold scale_row. rewrite length_fmap.
    by apply (shaped_row n w).
  - apply Forall_insert; [done|]. apply scale_row_range. lia.
  - apply Forall_insert; [done|]. apply scale_row_keeps; [by apply reduced_row | done |].
    apply holds_row; [done|]. destruct Hsh1; lia.
Qed.

Lemma eliminate_from_keeps n w cols M M' :
  Forall (λ i, (i < n)%nat) cols → shaped n w M → reduced m M →
  eliminate_from m n cols M = Some M' → Forall holds M → Forall holds M'.
Proof.
  intros Hcols. revert M. induction Hcols as [|c cols Hc _ IH]; intros M Hsh Hred.
  - by intros [= <-].
  - rewrite eliminate_from_cons.
    destruct (pivot_step m n M c) as [M1|] eqn:E; simpl; [|done].
    intros Hel Hall. apply (IH M1); try done.
    + by eapply pivot_step_shaped.
    + eapply pivot_step_reduced; [|done|done]. lia.
    + by apply (pivot_step_keeps n w M c M1).
Qed.

(** A row the consistency check rejects holds for no [x]. *)
Lemma inconsistent_row_fails n Ab :
  shaped n (S n) Ab → reduced m Ab → length x = n →
  inconsistent Ab = true → ¬ Forall holds Ab.
Proof.
  intros [_ Hw] Hred Hx Hinc Hall. unfold inconsistent in Hinc.
  apply existsb_exists in Hinc as (r & Hr%list_elem_of_In & Hrow).
  apply andb_prop in Hrow as [Hz Hnz].
  unfold reduced in Hred. rewrite Forall_forall in Hw, Hred, Hall.
  pose proof (Hw r Hr) as Hlen. pose proof (Hred r Hr) as Hrr. pose proof (Hall r Hr) as Hh.
  rewrite (list_split_last r n Hlen) in Hz, Hnz, Hh, Hrr.
  rewrite removelast_last in Hz. rewrite last_snoc in Hnz. simpl in Hnz.
  apply negb_true_iff, bool_decide_eq_false in Hnz.
  apply Forall_app in Hrr as [_ Hv]. rewrite Forall_singleton in Hv.
  unfold row_holds in Hh. rewrite lin_app in Hh by (rewrite length_take; lia).
  assert (Hzero : lin (take n r) x = 0).
  { clear -Hz. revert x. induction (take n r) as [|a l IH]; intros [|b y]; try done.
    simpl in Hz. apply andb_prop in Hz as [Ha%bool_decide_eq_true Hz].
    rewrite lin_cons, IH by done. lia. }
  rewrite Hzero in Hh. unfold lin in Hh. simpl in Hh.
  destruct Hh as [q Hq].
  set (v := default 0 (r !! n)) in *.
  assert (q = 0) by (destruct (Z.lt_trichotomy q 0) as [|[|]]; [nia | done | nia]).
  lia.
Qed.
End Completeness.

Lemma solves_stack_holds (m : Z) (n : nat) (A : list (list Z)) (b x : list Z) :
  shaped n n A → length b = n → length x = n →
  solves m A b x → Forall (row_holds m x) (Gauss.stack A b).
Proof.
  intros [Hn Hw] Hb Hx Hs. apply Forall_lookup. intros t r Hr.
  apply stack_lookup in Hr as (r0 & v & -> & Hr0 & Hv).
  unfold row_holds. rewrite lin_app.
  - unfold lin at 2. simpl.
    replace (lin r0 x + (v * -1 + 0)) with (lin r0 x - v) by lia. by eapply Hs.
  - rewrite Hx. by eapply (Forall_lookup_1 _ _ _ _ Hw).
Qed.

Lemma gaussian_None_no_solution (m : Z) (n : nat) (A : list (list Z)) (b x : list Z) :
  2 ≤ m → m ≤ 2 ^ 20 →
  shaped n n A → reduced m A → length b = n → Forall (λ v, 0 ≤ v < m) b →
  is_Some (Gauss.eliminate m n A) →
  Gauss.gaussian_elimination_mod A b m = Return None →
  length x = n → ¬ solves m A b x.
Proof.
  intros Hm2 Hm HA HAr Hb Hbr [R HR] Hg Hx Hsol.
  pose proof HA as [HlenA HwA].
  unfold Gauss.gaussian_elimination_mod in Hg.
  rewrite hstack_Return in Hg by lia. unfold bind in Hg. rewrite HlenA in Hg.
  assert (Hs0 : shaped n (S n) (Gauss.stack A b)) by (by apply stack_shaped).
  assert (Hr0 : reduced m (Gauss.stack A b)) by (by apply stack_reduced).
  unfold Gauss.eliminate in *.
  rewrite <- (stack_fmap_take n A b HA Hb) in HR.
  rewrite eliminate_from_fmap_take in HR by (by apply seq_lt_Forall).
  destruct (Gauss.eliminate_from m n (seq 0 n) (Gauss.stack A b)) as [Ab1|] eqn:Hel; [|done].
  destruct (Gauss.inconsistent Ab1) eqn:Hinc; [|done].
  assert (Hs1 : shaped n (S n) Ab1).
  { eapply eliminate_from_shaped; [|exact Hs0|exact Hel]. by apply seq_lt_Forall. }
  assert (Hr1 : reduced m Ab1).
  { eapply eliminate_from_reduced; [|exact Hr0|exact Hel]. lia. }
  apply (inconsistent_row_fails m Hm2 x n Ab1 Hs1 Hr1 Hx Hinc).
  apply (eliminate_from_keeps m Hm2 Hm x n (S n) (seq 0 n) (Gauss.stack A b) Ab1);
    [by apply seq_lt_Forall | done | done | done |].
  by apply (solves_stack_holds m n).
Qed.

(** X9: for a modulus [2 <= m <= 2 ^ 20] (no 64-bit product of two
    residues wraps), a square [n] by [n] matrix [A] and a vector [b] of
    [n] entries, all entries in [[0, m)]: when every pivot met is
    invertible (the elimination of [A] goes through), a [None] from
    [gaussian_elimination_mod] means that no vector [x] of [n] entries
    solves [A x = b] modulo [m]. *)
Theorem gaussian_None_unsolvable (m : Z) (n : nat) (A : list (list Z)) (b x : list Z) :
  2 ≤ m → m ≤ 2 ^ 20 →
  shaped n n A → reduced m A → length b = n → Forall (λ v, 0 ≤ v < m) b →
  is_Some (Gauss.eliminate m n A) →
  Gauss.gaussian_elimination_mod A b m = Return None →
  length x = n → ¬ solves m A b x.
Proof. apply gaussian_None_no_solution. Qed.

Lemma gaussian_None_unsolvable_witness :
  ¬ solves 2 [[1; 1]; [1; 1]] [0; 1] [1; 1].
Proof.
  apply (gaussian_None_unsolvable 2 2 [[1; 1]; [1; 1]] [0; 1] [1; 1]).
  - lia.
  - lia.
  - split; [reflexivity | repeat constructor].
  - repeat constructor; lia.
  - reflexivity.
  - repeat constructor; lia.
  - vm_compute. eexists. reflexivity.
  - vm_compute. reflexivity.
  - reflexivity.
Defined.



(** X7: a vector returned by [gaussian_elimination_mod] has one entry
    per row of [A], each in [[0, m)]. *)
Theorem gaussian_solution_range (A : list (list Z)) (b x : list Z) (m : Z) :
  0 < m → Gauss.gaussian_elimination_mod A b m = Return (Some x) →
  length x = length A ∧ Forall (λ v, 0 ≤ v < m) x.
Proof. apply gaussian_Some_spec. Qed.

Lemma gaussian_solution_range_witness :
  length [1; 1] = length [[1; 1]; [0; 1]] ∧ Forall (λ v, 0 ≤ v < 2) [1; 1].
Proof.
  apply (gaussian_solution_range [[1; 1]; [0; 1]] [0; 1] [1; 1] 2); [lia|].
  vm_compute. reflexivity.
Defined.

(** X8: for a reduced square system whose elimination ends in pivot rows
    and zero rows only, a vector returned by [gaussian_elimination_mod]
    solves [A x = b] modulo [m]. *)
Theorem gaussian_solution_sound (m : Z) (n : nat) (A : list (list Z)) (b x : list Z) :
  2 ≤ m → m ≤ 2 ^ 20 → Z.of_nat n ≤ 2 ^ 20 →
  shaped n n A → reduced m A → length b = n → Forall (λ v, 0 ≤ v < m) b →
  elim_certificate m n A →
  Gauss.gaussian_elimination_mod A b m = Return (Some x) →
  solves m A b x.
Proof. intros. by eapply gaussian_sound. Qed.

Lemma gaussian_solution_sound_witness :
  solves 4 [[1; 2]; [3; 1]] [3; 2] [1; 3].
Proof.
  apply (gaussian_solution_sound 4 2 [[1; 2]; [3; 1]] [3; 2] [1; 3]).
  - lia.
  - lia.
  - lia.
  - split; [reflexivity | repeat constructor].
  - repeat constructor; lia.
  - reflexivity.
  - repeat constructor; lia.
  - apply (bool_decide_unpack _). vm_compute. exact I.
  - vm_compute. reflexivity.
Defined.

Lemma iter_press_tile_one (m : Z) (k : nat) (v : Z) :
  2 ≤ m → m ≤ 2 ^ 20 → 0 ≤ v < m →
  Nat.iter k (Facade.press_tile m) v = 1 → (m | Z.of_nat k + v - 1).
Proof.
  intros Hm2 Hm Hv. destruct k as [|k].
  - simpl. intros ->. by exists 0.
  - rewrite (iter_press_tile m Hm2 Hm) by lia. intros H1.
    assert (H0 : (v + Z.of_nat k) mod m = 0) by lia.
    apply Z.mod_divide in H0; [|lia].
    by replace (Z.of_nat (S k) + v - 1) with (v + Z.of_nat k) by lia.
Qed.

Section AnyClicks.
Variables (cfg : Facade.Config) (adj_map : gmap nat (list nat)).
Hypothesis adj_NoDup : ∀ i l, adj_map !! i = Some l → NoDup l.

Lemma foldl_click_board_lookup clicks board t :
  foldl (click_board cfg adj_map) board clicks !! t
  = Nat.iter (click_hits cfg adj_map t clicks) (Facade.press_tile (Facade.modulus cfg))
      <$> board !! t.
Proof.
  revert board. induction clicks as [|c clicks IH]; intros board.
  - simpl. by rewrite option_fmap_id.
  - simpl foldl. rewrite IH. unfold click_board.
    rewrite (apply_click_lookup cfg) by (by apply affected_NoDup).
    unfold click_hits. rewrite filter_cons.
    destruct (decide (t ∈ default [] (adj_map !! Facade.click_index cfg c))).
    + rewrite <- option_fmap_compose. simpl length.
      destruct (board !! t) as [v|]; simpl; [|done].
      f_equal. by rewrite <- Nat.iter_succ_r.
    + by rewrite option_fmap_id.
Qed.

Lemma lin_seq_bump (f g : nat → Z) (j : nat) :
  (∀ i, f i = g i + (if decide (i = j) then 1 else 0)) →
  ∀ k s r,
    lin r (f <$> seq s k)
    = lin r (g <$> seq s k)
      + (if decide (s ≤ j < s + k)%nat then default 0 (r !! (j - s)%nat) else 0).
Proof.
  intros Hfg. induction k as [|k IH]; intros s r.
  - simpl. rewrite decide_False by lia. destruct r; unfold lin; simpl; lia.
  - destruct r as [|a r].
    + rewrite !lin_nil_l. case_decide; simpl; lia.
    + simpl seq. rewrite !fmap_cons, !lin_cons, (IH (S s) r), Hfg.
      destruct (decide (s = j)) as [-> | Hne].
      * rewrite decide_False by lia. rewrite decide_True by lia.
        rewrite Nat.sub_diag. simpl. lia.
      * destruct (decide (S s ≤ j < S s + k)%nat) as [Hin | Hout].
        -- rewrite decide_True by lia.
           replace (j - s)%nat with (S (j - S s)) by lia. simpl. lia.
        -- rewrite decide_False by lia. lia.
Qed.

Lemma lin_seq_zero (r : list Z) (s k : nat) : lin r ((λ _, 0) <$> seq s k) = 0.
Proof.
  revert s r. induction k as [|k IH]; intros s [|a r]; try done.
  simpl seq. rewrite fmap_cons, lin_cons, IH. lia.
Qed.

Lemma click_hits_lin (n t : nat) (r : list Z) (clicks : list Click) :
  (∀ i, (i < n)%nat →
        r !! i = Some (if decide (t ∈ default [] (adj_map !! i)) then 1 else 0)) →
  (∀ i, (n ≤ i)%nat → adj_map !! i = None) →
  Z.of_nat (click_hits cfg adj_map t clicks) = lin r (click_counts cfg n clicks).
Proof.
  intros Hr Hkeys. induction clicks as [|c clicks IH].
  - unfold click_hits, click_counts. simpl. by rewrite lin_seq_zero.
  - unfold click_counts.
    rewrite (lin_seq_bump _
               (λ i, Z.of_nat (length (filter (λ c, Facade.click_index cfg c = i) clicks)))
               (Facade.click_index cfg c)).
    2:{ intros i. rewrite filter_cons.
        destruct (decide (Facade.click_index cfg c = i)) as [-> | Hne].
        - rewrite decide_True by done. simpl length. lia.
        - rewrite decide_False by done. lia. }
    fold (click_counts cfg n clicks). rewrite <- IH.
    set (j := Facade.click_index cfg c).
    assert (Hj : (if decide (0 ≤ j < 0 + n)%nat then default 0 (r !! (j - 0)%nat) else 0)
                 = if decide (t ∈ default [] (adj_map !! j)) then 1 else 0).
    { destruct (decide (j < n)%nat) as [Hlt | Hge].
      - rewrite (decide_True (P := (0 ≤ j < 0 + n)%nat)) by lia.
        by rewrite Nat.sub_0_r, (Hr _ Hlt).
      - rewrite (decide_False (P := (0 ≤ j < 0 + n)%nat)) by lia.
        by rewrite (Hkeys j) by lia. }
    rewrite Hj. unfold click_hits. rewrite filter_cons. fold j.
    clear Hj. destruct (decide (t ∈ default [] (adj_map !! j))); simpl length; lia.
Qed.
End AnyClicks.

Lemma length_click_counts cfg n clicks : length (click_counts cfg n clicks) = n.
Proof. unfold click_counts. by rewrite length_fmap, length_seq. Qed.

(** The keys of the adjacency map of a difficulty are below [n]. *)
Lemma hexagon_radius3_size : size (Hex.get_hexagon_board_details 3) = 37%nat.
Proof. vm_compute. reflexivity. Qed.

Lemma hexagon_lookup_ge (radius : Z) (i : nat) :
  (size (Hex.get_hexagon_board_details radius) ≤ i)%nat →
  Hex.get_hexagon_board_details radius !! i = None.
Proof.
  destruct (get_hexagon_board_details_cases radius) as [-> | (mr & mc & ->)].
  - intros _. apply lookup_empty.
  - intros Hi. apply eq_None_not_Some. intros Hs%adj_map_indices_keys. lia.
Qed.

Lemma grid_lookup_ge (s n i : nat) :
  (n ≤ i)%nat → Facade.grid_adj_map s n !! i = None.
Proof.
  intros Hi. apply eq_None_not_Some. intros [l [Hl _]%lookup_grid_adj_map]. lia.
Qed.

Lemma adj_map_of_keys difficulty cfg i :
  Facade.configure difficulty = Some cfg →
  (Facade.n cfg ≤ i)%nat → Facade.adj_map_of cfg !! i = None.
Proof.
  unfold Facade.configure. intros Hcfg Hi.
  destruct (decide (difficulty = "easy"%string)).
  { injection Hcfg as <-. by apply grid_lookup_ge. }
  destruct (decide (difficulty = "medium"%string)).
  { injection Hcfg as <-. by apply grid_lookup_ge. }
  destruct (decide (difficulty = "hard"%string ∨ difficulty = "expert"%string));
    [|discriminate Hcfg].
  injection Hcfg as <-. unfold Facade.adj_map_of. cbn [Facade.layout].
  apply hexagon_lookup_ge. rewrite hexagon_radius3_size. exact Hi.
Qed.

(** A click sequence that solves the board gives a solution of the
    linear system. *)
Lemma solved_board_solves difficulty cfg flat clicks :
  Facade.configure difficulty = Some cfg →
  length flat = Facade.n cfg →
  Forall (λ v, 0 ≤ v < Facade.modulus cfg) flat →
  foldl (click_board cfg (Facade.adj_map_of cfg)) flat clicks
    = replicate (Facade.n cfg) 1 →
  solves (Facade.modulus cfg)
    (Facade.effects_matrix (Facade.n cfg) (Facade.adj_map_of cfg))
    (Facade.target_vector (Facade.modulus cfg) flat)
    (click_counts cfg (Facade.n cfg) clicks).
Proof.
  intros Hcfg Hlen Hrange Hsolved.
  destruct (solver_certificates difficulty cfg Hcfg) as (Hsh & _ & Htop & _).
  destruct (configure_facts difficulty cfg Hcfg) as (Hn & Hm & _).
  assert (Hm2 : 2 ≤ Facade.modulus cfg ≤ 2 ^ 20).
  { case_decide; [lia|]. destruct Hm; lia. }
  pose proof (λ i, adj_map_of_keys difficulty cfg i Hcfg) as Hkeys.
  clear Hm.
  set (adj := Facade.adj_map_of cfg) in *.
  set (A := Facade.effects_matrix (Facade.n cfg) adj) in *.
  clearbody A adj.
  assert (Hnd : ∀ i l, adj !! i = Some l → NoDup l).
  { intros i l Hl. by apply (proj1 Htop i l). }
  intros t r b Hr Hb.
  assert (Ht : (t < Facade.n cfg)%nat) by (apply lookup_lt_Some in Hr; destruct Hsh; lia).
  unfold Facade.target_vector in Hb. rewrite list_lookup_fmap in Hb.
  destruct (flat !! t) as [v|] eqn:Hv; [|done]. simpl in Hb. injection Hb as <-.
  pose proof (Forall_lookup_1 _ _ _ _ Hrange Hv) as Hvr. simpl in Hvr.
  pose proof (f_equal (λ l, l !! t) Hsolved) as Ht1. simpl in Ht1.
  rewrite (foldl_click_board_lookup cfg adj Hnd), Hv, lookup_replicate_2 in Ht1 by done.
  simpl in Ht1. injection Ht1 as Ht1.
  apply iter_press_tile_one in Ht1; [|lia|lia|done].
  rewrite (click_hits_lin cfg adj (Facade.n cfg) t r) in Ht1.
  2:{ intros i Hi. by apply (topology_ok_row (Facade.n cfg) adj A). }
  2:{ done. }
  rewrite i64_small by lia.
  destruct Ht1 as [q Hq].
  exists (q + (1 - v) `div` Facade.modulus cfg).
  pose proof (Z.div_mod (1 - v) (Facade.modulus cfg) ltac:(lia)). lia.
Qed.

Lemma solves_mod_divisor (m m' : Z) (A : list (list Z)) (b x : list Z) :
  0 < m' → (m' | m) → solves m A b x → solves m' A ((λ v, v mod m') <$> b) x.
Proof.
  intros Hm' [k Hk] Hs t r v Hr Hv.
  rewrite list_lookup_fmap in Hv.
  destruct (b !! t) as [v0|] eqn:Hv0; [|done]. simpl in Hv. injection Hv as <-.
  destruct (Hs t r v0 Hr Hv0) as [q Hq].
  exists (q * k + v0 `div` m'). pose proof (Z.div_mod v0 m' ltac:(lia)). subst m. lia.
Qed.

Lemma elim_certificate_Some m n A : elim_certificate m n A → is_Some (Gauss.eliminate m n A).
Proof. unfold elim_certificate. destruct (Gauss.eliminate m n A); [by eexists | done]. Qed.

Lemma solve_Return_press_counts board difficulty cfg flat r :
  Facade.configure difficulty = Some cfg →
  Facade.flatten board = Return flat →
  Facade.solve board difficulty = Return r →
  ∃ x, Facade.press_counts difficulty cfg
         (Facade.effects_matrix (Facade.n cfg) (Facade.adj_map_of cfg))
         (Facade.target_vector (Facade.modulus cfg) flat) = Return x
       ∧ r = (λ x, (Facade.replay cfg (Facade.adj_map_of cfg) flat
                      (Facade.click_path cfg x)).2) <$> x.
Proof.
  intros Hcfg Hflat. rewrite (solve_unfold board difficulty cfg flat Hcfg Hflat).
  destruct (Facade.press_counts _ _ _ _) as [[x|]|]; simpl; [| |done].
  - intros [= <-]. by eexists.
  - intros [= <-]. by eexists.
Qed.

(** X15: [solve] gives up only on boards that cannot be solved: when it
    returns [None] for a recognized difficulty and a board with entries
    in [[0, modulus)], no sequence of clicks, of any length, turns the
    board into all ones. *)
Theorem solve_None_unsolvable (board : Board) (difficulty : string)
    (cfg : Facade.Config) (flat : list Z) (clicks : list Click) :
  Facade.configure difficulty = Some cfg →
  Facade.flatten board = Return flat →
  Forall (λ v, 0 ≤ v < Facade.modulus cfg) flat →
  Facade.solve board difficulty = Return None →
  foldl (click_board cfg (Facade.adj_map_of cfg)) flat clicks
    ≠ replicate (Facade.n cfg) 1.
Proof.
  intros Hcfg Hflat Hrange Hsolve Hsolved.
  destruct (solve_Return_press_counts _ _ _ _ _ Hcfg Hflat Hsolve) as (x & Hpc & Hx).
  destruct x as [x|]; [done|]. clear Hx.
  assert (Hlen : length flat = Facade.n cfg).
  { pose proof (f_equal length Hsolved) as Hl.
    rewrite length_replicate in Hl. rewrite <- Hl.
    symmetry. apply length_foldl_click_board. }
  pose proof (solved_board_solves difficulty cfg flat clicks Hcfg Hlen Hrange Hsolved)
    as Hsol.
  destruct (solver_certificates difficulty cfg Hcfg) as (Hsh & Hred & _ & Hel).
  destruct (configure_facts difficulty cfg Hcfg) as (Hn & Hm & _).
  set (A := Facade.effects_matrix (Facade.n cfg) (Facade.adj_map_of cfg)) in *.
  set (b := Facade.target_vector (Facade.modulus cfg) flat) in *.
  assert (Hlenb : length b = Facade.n cfg).
  { unfold b, Facade.target_vector. by rewrite length_fmap. }
  pose proof (length_click_counts cfg (Facade.n cfg) clicks) as Hlx.
  set (y := click_counts cfg (Facade.n cfg) clicks) in *.
  clearbody A y. unfold Facade.press_counts in Hpc.
  destruct (decide (difficulty = "expert"%string)) as [He | He].
  - inversion Hel as [|? ? Hc2 Hel']; subst. inversion Hel' as [|? ? Hc3 _]; subst.
    rewrite Hm in Hsol.
    destruct (Gauss.gaussian_elimination_mod A ((λ v, v mod 2) <$> b) 2)
      as [[x2|]|] eqn:H2; simpl in Hpc; [| |done].
    + destruct (Gauss.gaussian_elimination_mod A ((λ v, v mod 3) <$> b) 3)
        as [[x3|]|] eqn:H3; simpl in Hpc; [done| |done].
      apply (gaussian_None_no_solution 3 (Facade.n cfg) A ((λ v, v mod 3) <$> b) y);
        try done; try lia.
      * by apply (reduced_mono 2).
      * by rewrite length_fmap.
      * by apply fmap_mod_range.
      * by apply elim_certificate_Some.
      * apply (solves_mod_divisor 6); [lia | by exists 2 | done].
    + apply (gaussian_None_no_solution 2 (Facade.n cfg) A ((λ v, v mod 2) <$> b) y);
        try done; try lia.
      * by rewrite length_fmap.
      * by apply fmap_mod_range.
      * by apply elim_certificate_Some.
      * apply (solves_mod_divisor 6); [lia | by exists 3 | done].
  - inversion Hel as [|? ? Hc _]; subst.
    apply (gaussian_None_no_solution (Facade.modulus cfg) (Facade.n cfg) A b y);
      try done; try lia.
    + apply (reduced_mono 2); [lia | done].
    + apply target_vector_range. lia.
    + by apply elim_certificate_Some.
Qed.

Lemma solve_None_unsolvable_witness :
  foldl (click_board hard_cfg (Facade.adj_map_of hard_cfg))
        (0 :: replicate 36 1) [HexClick 0; HexClick 5]
  ≠ replicate 37 1.
Proof.
  apply (solve_None_unsolvable unsolvable_hard_board "hard" hard_cfg
           (0 :: replicate 36 1) [HexClick 0; HexClick 5] eq_refl eq_refl).
  - apply (bool_decide_unpack _). vm_compute. exact I.
  - vm_compute. reflexivity.
Defined.

(** ** Systems of full rank *)

Lemma identity_lookup (n t : nat) :
  (t < n)%nat → identity n !! t = Some (<[t := 1]> (replicate n 0)).
Proof.
  intros Ht. unfold identity. rewrite list_lookup_fmap, lookup_seq_lt by done. done.
Qed.

Lemma unit_row_split (n t : nat) :
  (t < n)%nat →
  <[t := 1]> (replicate n 0) = replicate t 0 ++ [1] ++ replicate (n - S t) 0.
Proof.
  intros Ht. replace n with (t + S (n - S t))%nat at 1 by lia.
  rewrite replicate_add. rewrite insert_app_r_alt by (rewrite length_replicate; lia).
  rewrite length_replicate, Nat.sub_diag. done.
Qed.

Lemma full_rank_certificate m n A : full_rank m n A → elim_certificate m n A.
Proof.
  unfold full_rank, elim_certificate. intros ->. unfold echelon.
  apply Forall_forall. intros t Ht%elem_of_seq. left. unfold pivot_row.
  rewrite (row_lookup _ _ _ (identity_lookup n t ltac:(lia))).
  rewrite unit_row_split by lia.
  rewrite app_assoc, take_app_length'; [done|].
  rewrite length_app, length_replicate. simpl. lia.
Qed.

Lemma lin_unit_row (n t : nat) (y : list Z) (v : Z) :
  length y = n → y !! t = Some v → lin (<[t := 1]> (replicate n 0)) y = v.
Proof.
  intros Hy Hv. assert (Ht : (t < n)%nat) by (apply lookup_lt_Some in Hv; lia).
  rewrite unit_row_split by done.
  rewrite <- (take_drop_middle y t v Hv).
  rewrite lin_app by (rewrite length_replicate, length_take; lia).
  rewrite lin_zeros. simpl. rewrite lin_cons, lin_zeros. lia.
Qed.

Section FullRank.
Variables (m : Z) (n : nat) (A : list (list Z)) (b : list Z).
Hypothesis m_ge_2 : 2 ≤ m.
Hypothesis m_small : m ≤ 2 ^ 20.
Hypothesis A_shaped : shaped n n A.
Hypothesis A_reduced : reduced m A.
Hypothesis b_length : length b = n.
Hypothesis b_range : Forall (λ v, 0 ≤ v < m) b.
Hypothesis A_full : full_rank m n A.

Lemma full_rank_eliminate :
  ∃ Ab1, Gauss.eliminate m n (Gauss.stack A b) = Some Ab1
         ∧ shaped n (S n) Ab1 ∧ reduced m Ab1 ∧ take n <$> Ab1 = identity n.
Proof.
  assert (Hs0 : shaped n (S n) (Gauss.stack A b)) by (by apply stack_shaped).
  assert (Hr0 : reduced m (Gauss.stack A b)) by (by apply stack_reduced).
  pose proof A_full as HR. unfold full_rank, Gauss.eliminate in *.
  rewrite <- (stack_fmap_take n A b A_shaped b_length) in HR.
  rewrite eliminate_from_fmap_take in HR by (by apply seq_lt_Forall).
  destruct (Gauss.eliminate_from m n (seq 0 n) (Gauss.stack A b)) as [Ab1|] eqn:Hel; [|done].
  simpl in HR. injection HR as HR. exists Ab1. split; [done|]. split; [|split; [|done]].
  - eapply eliminate_from_shaped; [|exact Hs0|exact Hel]. by apply seq_lt_Forall.
  - eapply eliminate_from_reduced; [|exact Hr0|exact Hel]. lia.
Qed.

Lemma full_rank_consistent Ab1 :
  shaped n (S n) Ab1 → take n <$> Ab1 = identity n → Gauss.inconsistent Ab1 = false.
Proof.
  intros [Hn Hw] Hid. unfold Gauss.inconsistent.
  apply not_true_is_false. intros (r & Hr%list_elem_of_In & Hrow)%existsb_exists.
  apply andb_prop in Hrow as [Hz _].
  apply list_elem_of_lookup in Hr as [t Hr].
  assert (Ht : (t < n)%nat) by (apply lookup_lt_Some in Hr; lia).
  pose proof (Forall_lookup_1 _ _ _ _ Hw Hr) as Hlen. simpl in Hlen.
  pose proof (f_equal (λ M, M !! t) Hid) as Hrow. simpl in Hrow.
  rewrite list_lookup_fmap, Hr, identity_lookup in Hrow by done.
  simpl in Hrow. injection Hrow as Hrow.
  rewrite (list_split_last r n Hlen), removelast_last, Hrow in Hz.
  rewrite forallb_forall in Hz.
  specialize (Hz 1). rewrite bool_decide_eq_true in Hz.
  assert (1 = 0); [|done]. apply Hz, list_elem_of_In.
  apply (list_elem_of_lookup_2 _ t). apply list_lookup_insert_eq.
  by rewrite length_replicate.
Qed.

Lemma full_rank_row_value Ab1 y t r :
  shaped n (S n) Ab1 → take n <$> Ab1 = identity n →
  length y = n → Forall (row_holds m y) Ab1 → Ab1 !! t = Some r →
  ∃ v, y !! t = Some v ∧ (m | v - default 0 (r !! n)).
Proof.
  intros [Hn Hw] Hid Hy Hall Hr.
  assert (Ht : (t < n)%nat) by (apply lookup_lt_Some in Hr; lia).
  pose proof (Forall_lookup_1 _ _ _ _ Hw Hr) as Hlen. simpl in Hlen.
  pose proof (f_equal (λ M, M !! t) Hid) as Hrow. simpl in Hrow.
  rewrite list_lookup_fmap, Hr, identity_lookup in Hrow by done.
  simpl in Hrow. injection Hrow as Hrow.
  destruct (lookup_lt_is_Some_2 y t ltac:(lia)) as [v Hv]. exists v. split; [done|].
  pose proof (Forall_lookup_1 _ _ _ _ Hall Hr) as Hh. simpl in Hh.
  unfold row_holds in Hh. rewrite (list_split_last r n Hlen) in Hh.
  rewrite lin_app in Hh by (rewrite length_take; lia).
  rewrite Hrow, (lin_unit_row n t y v Hy Hv) in Hh.
  unfold lin in Hh. simpl in Hh.
  destruct Hh as [q Hq]. exists q. lia.
Qed.

Lemma gaussian_full_rank_spec :
  Z.of_nat n ≤ 2 ^ 20 →
  ∃ x, Gauss.gaussian_elimination_mod A b m = Return (Some x)
       ∧ length x = n ∧ Forall (λ v, 0 ≤ v < m) x ∧ solves m A b x
       ∧ ∀ y, length y = n → solves m A b y → Forall2 (λ a c, (m | a - c)) y x.
Proof.
  intros Hnb.
  destruct full_rank_eliminate as (Ab1 & Hel & Hs1 & Hr1 & Hid).
  pose proof (full_rank_consistent Ab1 Hs1 Hid) as Hinc.
  pose proof A_shaped as [HlenA _].
  assert (Hg : Gauss.gaussian_elimination_mod A b m
               = Return (Some (Gauss.back_substitute m n Ab1))).
  { unfold Gauss.gaussian_elimination_mod.
    rewrite hstack_Return by lia. unfold bind. rewrite HlenA, Hel, Hinc. done. }
  exists (Gauss.back_substitute m n Ab1). split; [done|].
  destruct (gaussian_sound m n A b _ m_ge_2 m_small Hnb A_shaped A_reduced
              b_length b_range (full_rank_certificate m n A A_full) Hg)
    as (Hlx & Hxr & Hsol).
  split; [done|]. split; [done|]. split; [done|].
  intros y Hy Hsy.
  assert (Hkeep : ∀ z, length z = n → solves m A b z → Forall (row_holds m z) Ab1).
  { intros z Hz Hsz.
    apply (eliminate_from_keeps m m_ge_2 m_small z n (S n) (seq 0 n) (Gauss.stack A b) Ab1);
      [by apply seq_lt_Forall | by apply stack_shaped | by apply stack_reduced | done |].
    by apply (solves_stack_holds m n). }
  apply Forall2_same_length_lookup_2; [lia|].
  intros t a c Ha Hc.
  assert (Ht : (t < n)%nat) by (apply lookup_lt_Some in Ha; lia).
  destruct (lookup_lt_is_Some_2 Ab1 t ltac:(destruct Hs1; lia)) as [r Hr].
  destruct (full_rank_row_value Ab1 y t r Hs1 Hid Hy (Hkeep y Hy Hsy) Hr)
    as (a' & Ha' & [q1 Hq1]).
  destruct (full_rank_row_value Ab1 _ t r Hs1 Hid Hlx (Hkeep _ Hlx Hsol) Hr)
    as (c' & Hc' & [q2 Hq2]).
  simplify_eq. exists (q1 - q2). lia.
Qed.
End FullRank.

(** X11: for a modulus [2 <= m <= 2 ^ 20] and a size [n <= 2 ^ 20] (no
    64-bit product or sum wraps), a square [n] by [n] matrix [A] with
    entries in [[0, m)] whose elimination ends on the identity, and
    every right-hand side [b] of [n] entries in [[0, m)]:
    [gaussian_elimination_mod] returns a solution of [A x = b] modulo
    [m], and any solution of [n] entries agrees with it modulo [m]. *)
Theorem gaussian_full_rank (m : Z) (n : nat) (A : list (list Z)) (b : list Z) :
  2 ≤ m → m ≤ 2 ^ 20 → Z.of_nat n ≤ 2 ^ 20 →
  shaped n n A → reduced m A → length b = n → Forall (λ v, 0 ≤ v < m) b →
  full_rank m n A →
  ∃ x, Gauss.gaussian_elimination_mod A b m = Return (Some x)
       ∧ solves m A b x
       ∧ ∀ y, length y = n → solves m A b y → Forall2 (λ a c, (m | a - c)) y x.
Proof.
  intros Hm2 Hm Hn HA HAr Hb Hbr Hfull.
  destruct (gaussian_full_rank_spec m n A b Hm2 Hm HA HAr Hb Hbr Hfull Hn)
    as (x & Hg & _ & _ & Hs & Hu).
  by exists x.
Qed.

Lemma gaussian_full_rank_witness :
  ∃ x, Gauss.gaussian_elimination_mod [[1; 2]; [3; 1]] [3; 2] 4 = Return (Some x)
       ∧ solves 4 [[1; 2]; [3; 1]] [3; 2] x
       ∧ ∀ y, length y = 2%nat → solves 4 [[1; 2]; [3; 1]] [3; 2] y →
              Forall2 (λ a c, (4 | a - c)) y x.
Proof.
  apply (gaussian_full_rank 4 2 [[1; 2]; [3; 1]] [3; 2]).
  - lia.
  - lia.
  - lia.
  - split; [reflexivity | repeat constructor].
  - repeat constructor; lia.
  - reflexivity.
  - repeat constructor; lia.
  - vm_compute. reflexivity.
Defined.

(** ** The grids always have a solution *)

Lemma grid_full_rank difficulty cfg :
  Facade.configure difficulty = Some cfg →
  Facade.layout cfg = Grid →
  full_rank (Facade.modulus cfg) (Facade.n cfg)
    (Facade.effects_matrix (Facade.n cfg) (Facade.adj_map_of cfg)).
Proof.
  unfold Facade.configure. intros Hcfg Hgrid.
  destruct (decide (difficulty = "easy"%string)).
  { injection Hcfg as <-. apply (bool_decide_unpack _). vm_compute. exact I. }
  destruct (decide (difficulty = "medium"%string)).
  { injection Hcfg as <-. apply (bool_decide_unpack _). vm_compute. exact I. }
  destruct (decide (difficulty = "hard"%string ∨ difficulty = "expert"%string));
    [|discriminate Hcfg].
  injection Hcfg as <-. discriminate Hgrid.
Qed.

Lemma configure_grid difficulty cfg :
  Facade.configure difficulty = Some cfg →
  Facade.layout cfg = Grid ↔ difficulty = "easy"%string ∨ difficulty = "medium"%string.
Proof.
  unfold Facade.configure. intros Hcfg.
  destruct (decide (difficulty = "easy"%string)) as [-> | ?].
  { injection Hcfg as <-. split; [by left | done]. }
  destruct (decide (difficulty = "medium"%string)) as [-> | ?].
  { injection Hcfg as <-. split; [by right | done]. }
  destruct (decide (difficulty = "hard"%string ∨ difficulty = "expert"%string));
    [|discriminate Hcfg].
  injection Hcfg as <-. split; [discriminate | by intros [? | ?]].
Qed.

Lemma grid_press_counts difficulty cfg flat :
  Facade.configure difficulty = Some cfg →
  Facade.layout cfg = Grid →
  length flat = Facade.n cfg →
  ∃ x, Facade.press_counts difficulty cfg
         (Facade.effects_matrix (Facade.n cfg) (Facade.adj_map_of cfg))
         (Facade.target_vector (Facade.modulus cfg) flat) = Return (Some x)
       ∧ length x = Facade.n cfg
       ∧ Forall (λ v, 0 ≤ v < Facade.modulus cfg) x
       ∧ ∀ y, length y = Facade.n cfg →
              solves (Facade.modulus cfg)
                (Facade.effects_matrix (Facade.n cfg) (Facade.adj_map_of cfg))
                (Facade.target_vector (Facade.modulus cfg) flat) y →
              Forall2 (λ a c, (Facade.modulus cfg | a - c)) y x.
Proof.
  intros Hcfg Hgrid Hlen.
  pose proof (grid_full_rank difficulty cfg Hcfg Hgrid) as Hfull.
  destruct (solver_certificates difficulty cfg Hcfg) as (Hsh & Hred & _ & _).
  destruct (configure_facts difficulty cfg Hcfg) as (Hn & Hm & _).
  assert (Hne : difficulty ≠ "expert"%string).
  { apply (configure_grid difficulty cfg Hcfg) in Hgrid as [-> | ->]; done. }
  rewrite decide_False in Hm by done.
  set (A := Facade.effects_matrix (Facade.n cfg) (Facade.adj_map_of cfg)) in *.
  set (b := Facade.target_vector (Facade.modulus cfg) flat).
  clearbody A.
  destruct (gaussian_full_rank_spec (Facade.modulus cfg) (Facade.n cfg) A b)
    as (x & Hg & Hlx & Hxr & _ & Hu); try done; try lia.
  - apply (reduced_mono 2); [lia | done].
  - unfold b, Facade.target_vector. by rewrite length_fmap.
  - apply target_vector_range. lia.
  - exists x. unfold Facade.press_counts. by rewrite decide_False by done.
Qed.

(** X16: every easy or medium board is solvable: for a board of 9
    (resp. 16) entries, whatever they are, [solve] returns a list of
    steps, never [None]. *)
Theorem grid_always_solvable (board : Board) (difficulty : string) (flat : list Z) :
  difficulty = "easy"%string ∨ difficulty = "medium"%string →
  Facade.flatten board = Return flat →
  length flat = (if decide (difficulty = "easy"%string) then 9 else 16)%nat →
  ∃ steps, Facade.solve board difficulty = Return (Some steps).
Proof.
  intros Hd Hflat Hlen.
  assert (Hcfg : ∃ cfg, Facade.configure difficulty = Some cfg
                        ∧ Facade.layout cfg = Grid ∧ length flat = Facade.n cfg).
  { destruct Hd as [-> | ->]; eexists; (split; [reflexivity|]); by split. }
  destruct Hcfg as (cfg & Hcfg & Hgrid & Hn).
  destruct (grid_press_counts difficulty cfg flat Hcfg Hgrid Hn) as (x & Hpc & _).
  rewrite (solve_unfold board difficulty cfg flat Hcfg Hflat), Hpc. simpl.
  by eexists.
Qed.

Lemma grid_always_solvable_witness :
  ∃ steps, Facade.solve (Nested [[4; 4; 4]; [4; 4; 4]; [4; 4; 3]]) "easy"
           = Return (Some steps).
Proof.
  apply (grid_always_solvable _ "easy" [4; 4; 4; 4; 4; 4; 4; 4; 3]).
  - by left.
  - reflexivity.
  - reflexivity.
Defined.

(** ** The steps of a solution *)

Section ReplaySteps.
Variables (cfg : Facade.Config) (adj_map : gmap nat (list nat)).

Lemma replay_snoc flat clicks c :
  Facade.replay cfg adj_map flat (clicks ++ [c])
  = let st := Facade.replay cfg adj_map flat clicks in
    let board := click_board cfg adj_map st.1 c in
    (board, st.2 ++ [{| click := c;
                        affected_tiles := default [] (adj_map !! Facade.click_index cfg c);
                        board_state := board |}]).
Proof. unfold Facade.replay. by rewrite foldl_app. Qed.

Lemma length_replay flat clicks :
  length (Facade.replay cfg adj_map flat clicks).2 = length clicks.
Proof.
  induction clicks as [|c clicks IH] using rev_ind; [done|].
  rewrite replay_snoc. cbv zeta. simpl. rewrite !length_app, IH. done.
Qed.

Lemma replay_lookup flat clicks k s :
  (Facade.replay cfg adj_map flat clicks).2 !! k = Some s →
  ∃ c, clicks !! k = Some c
       ∧ click s = c
       ∧ affected_tiles s = default [] (adj_map !! Facade.click_index cfg c)
       ∧ board_state s = foldl (click_board cfg adj_map) flat (take (S k) clicks)
       ∧ final_board flat (take k (Facade.replay cfg adj_map flat clicks).2)
         = foldl (click_board cfg adj_map) flat (take k clicks).
Proof.
  revert k s. induction clicks as [|c clicks IH] using rev_ind; intros k s; [done|].
  rewrite replay_snoc. cbv zeta. simpl.
  pose proof (length_replay flat clicks) as Hlen.
  destruct (decide (k < length clicks)%nat) as [Hlt | Hge].
  - rewrite lookup_app_l by lia. intros Hs.
    destruct (IH k s Hs) as (c' & Hc' & H1 & H2 & H3 & H4).
    exists c'. rewrite lookup_app_l by done.
    by rewrite !take_app_le by lia.
  - rewrite lookup_app_r by lia. rewrite Hlen.
    destruct (k - length clicks)%nat as [|j] eqn:Hk; [|done].
    assert (k = length clicks) as -> by lia.
    intros [= <-]. exists c. rewrite lookup_app_r, Nat.sub_diag by done. simpl.
    split; [done|]. split; [done|]. split; [done|]. split.
    + rewrite take_ge by (rewrite length_app; simpl; lia).
      by rewrite replay_fst, foldl_app.
    + rewrite take_app_length' by done. rewrite take_app_length.
      by rewrite replay_final_board, replay_fst.
Qed.
End ReplaySteps.

Lemma length_clicks_from cfg i0 x :
  length (clicks_from cfg i0 x) = sum_list (Z.to_nat <$> x).
Proof.
  revert i0. induction x as [|c x IH]; intros i0; simpl; [done|].
  by rewrite length_app, length_replicate, IH.
Qed.

Lemma sum_list_snoc (l : list nat) (a : nat) :
  sum_list (l ++ [a]) = (sum_list l + a)%nat.
Proof. induction l as [|b l IH]; simpl; [|rewrite IH]; lia. Qed.

Lemma sum_list_le (l l' : list nat) :
  Forall2 le l l' → (sum_list l ≤ sum_list l')%nat.
Proof. induction 1; simpl; lia. Qed.

Lemma sum_list_bound (m : Z) (x : list Z) :
  1 ≤ m → Forall (λ v, 0 ≤ v < m) x →
  Z.of_nat (sum_list (Z.to_nat <$> x)) ≤ Z.of_nat (length x) * (m - 1).
Proof.
  intros Hm. induction 1 as [|v x Hv _ IH]; [simpl; lia|].
  rewrite fmap_cons. change (sum_list (Z.to_nat v :: (Z.to_nat <$> x)))
    with (Z.to_nat v + sum_list (Z.to_nat <$> x))%nat.
  rewrite length_cons, Nat2Z.inj_add, Nat2Z.inj_succ, Z2Nat.id by lia. nia.
Qed.

(** The press counts are within the modulus. *)
Lemma press_counts_range difficulty cfg A b x :
  Facade.configure difficulty = Some cfg →
  length A = Facade.n cfg →
  Facade.press_counts difficulty cfg A b = Return (Some x) →
  length x = Facade.n cfg ∧ Forall (λ v, 0 ≤ v < Facade.modulus cfg) x.
Proof.
  intros Hcfg HlenA.
  destruct (configure_facts difficulty cfg Hcfg) as (_ & Hm & _).
  unfold Facade.press_counts.
  destruct (decide (difficulty = "expert"%string)) as [He | He].
  - destruct (Gauss.gaussian_elimination_mod A ((λ v, v mod 2) <$> b) 2)
      as [[x2|]|] eqn:H2; simpl; [| |done].
    2:{ by destruct (Gauss.gaussian_elimination_mod A ((λ v, v mod 3) <$> b) 3). }
    destruct (Gauss.gaussian_elimination_mod A ((λ v, v mod 3) <$> b) 3)
      as [[x3|]|] eqn:H3; simpl; [|done|done].
    intros [= <-].
    destruct (gaussian_Some_spec A _ 2 x2 ltac:(lia) H2) as [Hl2 Hr2].
    destruct (gaussian_Some_spec A _ 3 x3 ltac:(lia) H3) as [Hl3 Hr3].
    split.
    + unfold Facade.crt_combine. by rewrite length_fmap, length_seq.
    + rewrite Hm. apply crt_combine_range; [done | done | lia | lia].
  - intros Hg.
    destruct (gaussian_Some_spec A b (Facade.modulus cfg) x ltac:(destruct Hm; lia) Hg)
      as [Hl Hr].
    split; [lia | done].
Qed.

(** X18: on a board whose cells are within [int64], each step of a
    returned solution is one press: its affected tiles are the
    adjacency list of its click (none for a missing key), and its board
    is the board of the previous step (the initial board for the first)
    with those tiles pressed; every board has [n] entries. *)
Theorem solve_steps_chain (board : Board) (difficulty : string)
    (cfg : Facade.Config) (flat : list Z) (steps : list SolutionStep)
    (k : nat) (s : SolutionStep) :
  Facade.configure difficulty = Some cfg →
  Facade.flatten board = Return flat →
  Forall (λ v, - 2 ^ 63 ≤ v < 2 ^ 63) flat →
  Facade.solve board difficulty = Return (Some steps) →
  steps !! k = Some s →
  affected_tiles s
    = default [] (Facade.adj_map_of cfg !! Facade.click_index cfg (click s))
  ∧ board_state s
    = Facade.apply_click (Facade.modulus cfg) (affected_tiles s)
        (final_board flat (take k steps))
  ∧ length (board_state s) = Facade.n cfg.
Proof.
  intros Hcfg Hflat _ Hsolve Hs.
  destruct (solve_Return_press_counts _ _ _ _ _ Hcfg Hflat Hsolve) as ([x|] & Hpc & Hx);
    [|done].
  injection Hx as ->.
  assert (Hlen : length flat = Facade.n cfg).
  { pose proof (gaussian_raises
      (Facade.effects_matrix (Facade.n cfg) (Facade.adj_map_of cfg))) as Hraise.
    destruct (decide (length flat = Facade.n cfg)) as [|Hne]; [done|]. exfalso.
    unfold Facade.press_counts in Hpc.
    case_decide; rewrite Hraise in Hpc; try done;
      rewrite length_effects_matrix; unfold Facade.target_vector;
      rewrite ?length_fmap; done. }
  set (adj := Facade.adj_map_of cfg) in *. clearbody adj. clear Hpc.
  destruct (replay_lookup cfg adj flat _ k s Hs) as (c & Hc & <- & Haff & Hb & Hprev).
  split; [done|].
  assert (Hb' : board_state s
                = click_board cfg adj
                    (foldl (click_board cfg adj) flat (take k (Facade.click_path cfg x)))
                    (click s)).
  { rewrite Hb. rewrite (take_S_r _ _ _ Hc). by rewrite foldl_app. }
  split.
  - rewrite Hb', Hprev, Haff. done.
  - rewrite Hb'. unfold click_board at 1.
    by rewrite length_apply_click, length_foldl_click_board.
Qed.

Lemma solve_steps_chain_witness :
  ∃ steps s, Facade.solve (Flat [1; 1; 1; 1; 1; 1; 1; 1; 4]) "easy" = Return (Some steps)
    ∧ steps !! 0%nat = Some s
    ∧ affected_tiles s
      = default [] (Facade.adj_map_of easy_cfg !! Facade.click_index easy_cfg (click s))
    ∧ board_state s
      = Facade.apply_click 4 (affected_tiles s) [1; 1; 1; 1; 1; 1; 1; 1; 4]
    ∧ length (board_state s) = 9%nat.
Proof.
  assert (E : ∃ steps s,
    Facade.solve (Flat [1; 1; 1; 1; 1; 1; 1; 1; 4]) "easy" = Return (Some steps)
    ∧ steps !! 0%nat = Some s).
  { vm_compute. do 2 eexists. split; reflexivity. }
  destruct E as (steps & s & E & Hs). exists steps, s.
  split; [exact E|]. split; [exact Hs|].
  assert (Hr : Forall (λ v, - 2 ^ 63 ≤ v < 2 ^ 63) [1; 1; 1; 1; 1; 1; 1; 1; 4])
    by (repeat constructor; lia).
  exact (solve_steps_chain (Flat [1; 1; 1; 1; 1; 1; 1; 1; 4]) "easy" easy_cfg
           [1; 1; 1; 1; 1; 1; 1; 1; 4] steps 0 s eq_refl eq_refl Hr E Hs).
Defined.

(** X19: the clicks of a returned solution press button 0, then button
    1, and so on, button [i] being pressed [x[i]] times with
    [0 <= x[i] < modulus]; so there are at most [n * (modulus - 1)]
    steps. *)
Theorem solve_steps_clicks (board : Board) (difficulty : string)
    (cfg : Facade.Config) (flat : list Z) (steps : list SolutionStep) :
  Facade.configure difficulty = Some cfg →
  Facade.flatten board = Return flat →
  Facade.solve board difficulty = Return (Some steps) →
  ∃ x, length x = Facade.n cfg
       ∧ Forall (λ v, 0 ≤ v < Facade.modulus cfg) x
       ∧ click <$> steps = clicks_from cfg 0 x
       ∧ Z.of_nat (length steps) ≤ Z.of_nat (Facade.n cfg) * (Facade.modulus cfg - 1).
Proof.
  intros Hcfg Hflat Hsolve.
  destruct (solve_Return_press_counts _ _ _ _ _ Hcfg Hflat Hsolve) as ([x|] & Hpc & Hx);
    [|done].
  injection Hx as ->.
  destruct (press_counts_range _ _ _ _ _ Hcfg (length_effects_matrix _ _) Hpc)
    as [Hlx Hxr].
  destruct (configure_facts difficulty cfg Hcfg) as (_ & Hm & _).
  assert (Hm1 : 1 ≤ Facade.modulus cfg) by (case_decide; [lia | destruct Hm; lia]).
  clear Hpc Hm.
  set (adj := Facade.adj_map_of cfg) in *. clearbody adj.
  exists x. split; [done|]. split; [done|]. split.
  - rewrite <- click_path_clicks_from.
    apply list_eq. intros k. rewrite list_lookup_fmap.
    destruct ((Facade.replay cfg adj flat (Facade.click_path cfg x)).2 !! k)
      as [s|] eqn:Hs; simpl.
    + destruct (replay_lookup cfg adj flat _ k s Hs) as (c & Hc & <- & _). done.
    + symmetry. apply lookup_ge_None. apply lookup_ge_None in Hs.
      by rewrite length_replay in Hs.
  - rewrite length_replay, click_path_clicks_from, length_clicks_from.
    rewrite <- Hlx. by apply sum_list_bound.
Qed.

Lemma solve_steps_clicks_witness :
  ∃ steps x, Facade.solve (Flat [1; 1; 1; 1; 1; 1; 1; 1; 4]) "easy" = Return (Some steps)
    ∧ length x = 9%nat
    ∧ Forall (λ v, 0 ≤ v < 4) x
    ∧ click <$> steps = clicks_from easy_cfg 0 x
    ∧ Z.of_nat (length steps) ≤ 9 * (4 - 1).
Proof.
  assert (E : ∃ steps,
    Facade.solve (Flat [1; 1; 1; 1; 1; 1; 1; 1; 4]) "easy" = Return (Some steps)).
  { vm_compute. eexists. reflexivity. }
  destruct E as (steps & E).
  destruct (solve_steps_clicks (Flat [1; 1; 1; 1; 1; 1; 1; 1; 4]) "easy" easy_cfg
              [1; 1; 1; 1; 1; 1; 1; 1; 4] steps eq_refl eq_refl E) as (x & H).
  exists steps, x. split; [exact E | exact H].
Defined.

(** ** The grid solution is a shortest one *)

Lemma length_filter_lt_S {A} (f : A → nat) (l : list A) (k : nat) :
  length (filter (λ c, f c < S k)%nat l)
  = (length (filter (λ c, f c < k)%nat l) + length (filter (λ c, f c = k) l))%nat.
Proof.
  induction l as [|a l IH]; [done|].
  rewrite !filter_cons.
  destruct (decide (f a < k)%nat), (decide (f a = k)), (decide (f a < S k)%nat);
    simpl; lia.
Qed.

Lemma sum_click_counts cfg n clicks :
  (sum_list (Z.to_nat <$> click_counts cfg n clicks) ≤ length clicks)%nat.
Proof.
  assert (H : sum_list (Z.to_nat <$> click_counts cfg n clicks)
              = length (filter (λ c, Facade.click_index cfg c < n)%nat clicks)).
  { unfold click_counts. induction n as [|n IH].
    - simpl. symmetry. apply length_zero_iff_nil.
      induction clicks as [|c clicks IHc]; [done|].
      rewrite filter_cons. by rewrite decide_False by lia.
    - rewrite seq_S, !fmap_app. simpl. rewrite sum_list_snoc, IH.
      rewrite Nat2Z.id, length_filter_lt_S. lia. }
  rewrite H. apply length_filter.
Qed.

Lemma click_counts_nonneg cfg n clicks :
  Forall (λ v, 0 ≤ v) (click_counts cfg n clicks).
Proof.
  unfold click_counts. apply Forall_fmap, Forall_true. intros i. simpl. lia.
Qed.

(** X17: on the grids the returned solution is a shortest one: any
    sequence of clicks that solves the board has at least as many
    clicks as [solve] returns steps. *)
Theorem grid_solution_shortest (board : Board) (difficulty : string)
    (cfg : Facade.Config) (flat : list Z) (steps : list SolutionStep)
    (clicks : list Click) :
  Facade.configure difficulty = Some cfg →
  Facade.layout cfg = Grid →
  Facade.flatten board = Return flat →
  Forall (λ v, 0 ≤ v < Facade.modulus cfg) flat →
  Facade.solve board difficulty = Return (Some steps) →
  foldl (click_board cfg (Facade.adj_map_of cfg)) flat clicks
    = replicate (Facade.n cfg) 1 →
  (length steps ≤ length clicks)%nat.
Proof.
  intros Hcfg Hgrid Hflat Hrange Hsolve Hsolved.
  destruct (solve_Return_press_counts _ _ _ _ _ Hcfg Hflat Hsolve) as ([x|] & Hpc & Hx);
    [|done].
  injection Hx as ->.
  assert (Hlen : length flat = Facade.n cfg).
  { pose proof (f_equal length Hsolved) as Hl.
    rewrite length_replicate in Hl. rewrite <- Hl.
    symmetry. apply length_foldl_click_board. }
  destruct (grid_press_counts difficulty cfg flat Hcfg Hgrid Hlen)
    as (x' & Hpc' & Hlx & Hxr & Huniq).
  assert (x' = x) as -> by congruence.
  pose proof (solved_board_solves difficulty cfg flat clicks Hcfg Hlen Hrange Hsolved)
    as Hsol.
  pose proof (length_click_counts cfg (Facade.n cfg) clicks) as Hly.
  pose proof (click_counts_nonneg cfg (Facade.n cfg) clicks) as Hy0.
  pose proof (sum_click_counts cfg (Facade.n cfg) clicks) as Hsum.
  specialize (Huniq _ Hly Hsol).
  destruct (configure_facts difficulty cfg Hcfg) as (_ & Hm & _).
  assert (Hm1 : 1 ≤ Facade.modulus cfg) by (case_decide; [lia | destruct Hm; lia]).
  clear Hpc Hpc' Hsol Hm Hsolved.
  set (y := click_counts cfg (Facade.n cfg) clicks) in *. clearbody y.
  set (adj := Facade.adj_map_of cfg) in *. clearbody adj.
  rewrite length_replay, click_path_clicks_from, length_clicks_from.
  etrans; [|exact Hsum]. apply sum_list_le.
  apply Forall2_fmap, Forall2_flip.
  clear Hly Hlx Hsum.
  revert Hxr Hy0. clear Hsolve.
  induction Huniq as [|a c y x [q Hq] _ IH]; intros Hxr Hy0; [constructor|].
  inversion Hxr as [|? ? Hc Hxr']; inversion Hy0 as [|? ? Ha Hy0']; subst.
  constructor; [|by apply IH].
  assert (0 ≤ q) by nia. nia.
Qed.

Lemma grid_solution_shortest_witness :
  ∃ steps, Facade.solve (Flat [0; 0; 1; 0; 0; 1; 1; 1; 1]) "easy" = Return (Some steps)
           ∧ (length steps ≤ length [GridClick 0 0; GridClick 2 2; GridClick 2 2;
                                     GridClick 2 2; GridClick 2 2])%nat.
Proof.
  assert (E : ∃ steps,
    Facade.solve (Flat [0; 0; 1; 0; 0; 1; 1; 1; 1]) "easy" = Return (Some steps)).
  { vm_compute. eexists. reflexivity. }
  destruct E as (steps & E). exists steps. split; [exact E|].
  apply (grid_solution_shortest (Flat [0; 0; 1; 0; 0; 1; 1; 1; 1]) "easy" easy_cfg
           [0; 0; 1; 0; 0; 1; 1; 1; 1] steps _ eq_refl eq_refl eq_refl).
  - repeat constructor; simpl; lia.
  - exact E.
  - vm_compute. reflexivity.
Defined.

(** ** When [solve] raises *)

Lemma press_counts_total difficulty cfg A b :
  length A = length b → ∃ r, Facade.press_counts difficulty cfg A b = Return r.
Proof.
  intros Hlen. unfold Facade.press_counts. case_decide.
  - destruct (gaussian_total A ((λ v, v mod 2) <$> b) 2) as [r2 ->];
      [by rewrite length_fmap|].
    destruct (gaussian_total A ((λ v, v mod 3) <$> b) 3) as [r3 ->];
      [by rewrite length_fmap|].
    simpl. destruct r2, r3; by eexists.
  - by apply gaussian_total.
Qed.

Lemma press_counts_raises difficulty cfg A b :
  length A ≠ length b → Facade.press_counts difficulty cfg A b = Raise ValueError.
Proof.
  intros Hlen. unfold Facade.press_counts. case_decide.
  - rewrite gaussian_raises; [done|]. by rewrite length_fmap.
  - by apply gaussian_raises.
Qed.

(** X14: for a recognized difficulty, [solve] returns (steps or [None])
    exactly when the board is rectangular and flattens to [n] entries;
    on any other board it raises. *)
Theorem solve_returns_iff (board : Board) (difficulty : string) (cfg : Facade.Config) :
  Facade.configure difficulty = Some cfg →
  (∃ r, Facade.solve board difficulty = Return r)
  ↔ ∃ flat, Facade.flatten board = Return flat ∧ length flat = Facade.n cfg.
Proof.
  intros Hcfg.
  assert (Hlenb : ∀ flat, length (Facade.target_vector (Facade.modulus cfg) flat)
                          = length flat).
  { intros flat. unfold Facade.target_vector. by rewrite length_fmap. }
  split.
  - intros [r Hr]. destruct (Facade.flatten board) as [flat|e] eqn:Hflat.
    + exists flat. split; [done|].
      destruct (decide (length flat = Facade.n cfg)) as [|Hne]; [done|]. exfalso.
      rewrite (solve_unfold board difficulty cfg flat Hcfg Hflat) in Hr.
      rewrite press_counts_raises in Hr; [done|].
      by rewrite length_effects_matrix, Hlenb.
    + unfold Facade.solve in Hr. rewrite Hcfg, Hflat in Hr. done.
  - intros (flat & Hflat & Hlen).
    rewrite (solve_unfold board difficulty cfg flat Hcfg Hflat).
    destruct (press_counts_total difficulty cfg
                (Facade.effects_matrix (Facade.n cfg) (Facade.adj_map_of cfg))
                (Facade.target_vector (Facade.modulus cfg) flat)) as [r ->].
    { by rewrite length_effects_matrix, Hlenb. }
    simpl. destruct r; by eexists.
Qed.

Lemma solve_returns_iff_witness :
  (∃ r, Facade.solve (Nested [[1; 2]; [3]]) "medium" = Return r)
  ↔ ∃ flat, Facade.flatten (Nested [[1; 2]; [3]]) = Return flat ∧ length flat = 16%nat.
Proof. exact (solve_returns_iff (Nested [[1; 2]; [3]]) "medium" medium_cfg eq_refl). Defined.

(** ** One press *)

(** X20: one press moves a tile from [v] to [v + 1] and from [modulus]
    back to 1, so that [modulus] presses give the tile its value
    back. *)
Theorem press_tile_cycle (m v : Z) :
  2 ≤ m → m ≤ 2 ^ 20 → 1 ≤ v ≤ m →
  Facade.press_tile m v = (if decide (v = m) then 1 else v + 1)
  ∧ Nat.iter (Z.to_nat m) (Facade.press_tile m) v = v.
Proof.
  intros Hm2 Hm Hv. split.
  - rewrite (press_tile_small m Hm2 Hm) by lia. case_decide as Hvm.
    + subst v. by rewrite Z_mod_same_full.
    + by rewrite Z.mod_small by lia.
  - destruct (Z.to_nat m) as [|k] eqn:Hk; [lia|].
    rewrite (iter_press_tile m Hm2 Hm) by lia.
    replace (v + Z.of_nat k) with (v - 1 + 1 * m) by lia.
    rewrite Z.mod_add by lia. rewrite Z.mod_small by lia. lia.
Qed.

Lemma press_tile_cycle_witness :
  Facade.press_tile 6 6 = 1 ∧ Nat.iter 6 (Facade.press_tile 6) 6 = 6.
Proof. apply (press_tile_cycle 6 6); lia. Defined.

(** ** The digit of two residues *)

(** X21: the search for the digit is a round trip: from the residues
    modulo 2 and 3 of a [k] in 0..5 it finds [k] again. *)
Theorem crt_digit_round_trip (k : Z) :
  0 ≤ k < 6 → Facade.crt_digit (k mod 2) (k mod 3) = k.
Proof.
  intros Hk.
  destruct (crt_digit_spec (k mod 2) (k mod 3)) as (_ & _ & _ & Huniq).
  - apply Z.mod_pos_bound. lia.
  - apply Z.mod_pos_bound. lia.
  - symmetry. by apply Huniq.
Qed.

Lemma crt_digit_round_trip_witness : Facade.crt_digit (5 mod 2) (5 mod 3) = 5.
Proof. apply (crt_digit_round_trip 5). lia. Defined.

(** ** A prime modulus *)

Lemma prime_mod_inverse (m v : Z) :
  Z.prime m → 0 < v < m → is_Some (Gauss.mod_inverse v m).
Proof.
  intros Hp Hv. pose proof (Z.prime_ge_2 m Hp) as Hm.
  destruct (Gauss.mod_inverse v m) as [k|] eqn:E; [by eexists|].
  apply (mod_inverse_None v m Hm) in E. exfalso. apply E.
  rewrite Z.gcd_comm. apply Z.coprime_prime_l; [done|].
  intros Hdiv. apply Z.divide_pos_le in Hdiv; lia.
Qed.

Lemma prime_pivot_step (m : Z) (n w : nat) (M : list (list Z)) (i : nat) :
  Z.prime m → shaped n w M → reduced m M → (i < n)%nat →
  is_Some (Gauss.pivot_step m n M i).
Proof.
  intros Hp Hsh Hred Hi. pose proof (Z.prime_ge_2 m Hp) as Hm.
  unfold Gauss.pivot_step.
  destruct (find_pivot_spec M n i ltac:(lia)) as ((_ & Hpn) & _ & Hnz).
  case_decide as Hpiv; [by eexists|].
  destruct Hsh as [Hn _].
  rewrite entry_swap_rows by lia.
  destruct (prime_mod_inverse m (Gauss.entry M (Gauss.find_pivot M n i) i) Hp)
    as [inv ->]; [|by eexists].
  pose proof (reduced_entry m M (Gauss.find_pivot M n i) i ltac:(lia) Hred).
  specialize (Hnz ltac:(lia)). lia.
Qed.

Lemma prime_eliminate_from (m : Z) (n w : nat) (cols : list nat) (M : list (list Z)) :
  Z.prime m → Forall (λ i, (i < n)%nat) cols → shaped n w M → reduced m M →
  is_Some (Gauss.eliminate_from m n cols M).
Proof.
  intros Hp Hcols. pose proof (Z.prime_ge_2 m Hp) as Hm. revert M.
  induction Hcols as [|c cols Hc _ IH]; intros M Hsh Hred; [by eexists|].
  rewrite eliminate_from_cons.
  destruct (prime_pivot_step m n w M c Hp Hsh Hred Hc) as [M1 HM1].
  rewrite HM1. simpl. apply IH.
  - by eapply pivot_step_shaped.
  - eapply pivot_step_reduced; [|done|done]. lia.
Qed.

(** X10: for a prime modulus [m <= 2 ^ 20] (2 and 3, as [solve] uses
    them for the hexagon; no 64-bit product of two residues wraps), a
    square [n] by [n] matrix [A] and a vector [b] of [n] entries, all
    entries in [[0, m)]: every nonzero pivot is invertible, and a [None]
    from [gaussian_elimination_mod] means that no vector [x] of [n]
    entries solves [A x = b] modulo [m]. *)
Theorem gaussian_prime_None_unsolvable (m : Z) (n : nat) (A : list (list Z)) (b x : list Z) :
  Z.prime m → m ≤ 2 ^ 20 →
  shaped n n A → reduced m A → length b = n → Forall (λ v, 0 ≤ v < m) b →
  Gauss.gaussian_elimination_mod A b m = Return None →
  length x = n → ¬ solves m A b x.
Proof.
  intros Hp Hm HA HAr Hb Hbr Hg Hx.
  pose proof (Z.prime_ge_2 m Hp) as Hm2.
  apply (gaussian_None_no_solution m n A b x); try done.
  apply (prime_eliminate_from m n n); try done. by apply seq_lt_Forall.
Qed.

Lemma gaussian_prime_None_unsolvable_witness :
  ¬ solves 3 [[1; 2]; [2; 1]] [1; 1] [0; 2].
Proof.
  apply (gaussian_prime_None_unsolvable 3 2 [[1; 2]; [2; 1]] [1; 1] [0; 2]).
  - exact Z.prime_3.
  - lia.
  - split; [reflexivity | repeat constructor].
  - repeat constructor; lia.
  - reflexivity.
  - repeat constructor; lia.
  - vm_compute. reflexivity.
  - reflexivity.
Defined.

(** ** A system the elimination leaves unsolved *)



(** ** The visualizer *)

Lemma visualizer_axial_coords (radius : Z) :
  Visualizer.axial_coords radius = Hex.axial_coords radius.
Proof.
  apply set_eq. intros [q r]. rewrite elem_of_axial_coords.
  unfold Visualizer.axial_coords, py_range.
  rewrite elem_of_list_to_set, list_elem_of_bind. simpl. split.
  - intros (q' & Hin & Hq'%elem_of_seqZ).
    apply list_elem_of_bind in Hin as (r' & Hin & Hr'%elem_of_seqZ).
    case_decide; [|by apply not_elem_of_nil in Hin].
    apply list_elem_of_singleton in Hin as [= -> ->]. lia.
  - intros [Hq Hr]. exists q. split; [|apply elem_of_seqZ; lia].
    apply list_elem_of_bind. exists r. split; [|apply elem_of_seqZ; lia].
    rewrite decide_True by lia. by apply list_elem_of_singleton.
Qed.

Lemma visualizer_offset_coords (radius : Z) :
  Visualizer.offset_coords_unnormalized radius = Hex.offset_coords_unnormalized radius.
Proof.
  unfold Visualizer.offset_coords_unnormalized, Hex.offset_coords_unnormalized.
  by rewrite visualizer_axial_coords.
Qed.

Section VisualizerDetails.
Variables radius min_r min_c : Z.

Lemma visualizer_valid_cells :
  Visualizer.valid_cells radius min_r min_c = Hex.valid_cells radius min_r min_c.
Proof.
  unfold Visualizer.valid_cells, Hex.valid_cells. by rewrite visualizer_offset_coords.
Qed.

Lemma visualizer_coord_maps :
  Visualizer.coord_maps radius min_r min_c = Hex.coord_maps radius min_r min_c.
Proof.
  unfold Visualizer.coord_maps, Hex.coord_maps. by rewrite visualizer_axial_coords.
Qed.

Lemma visualizer_add_neighbors cell adj :
  Visualizer.add_neighbors radius min_r min_c cell adj
  = Hex.add_neighbors radius min_r min_c cell adj.
Proof.
  unfold Visualizer.add_neighbors, Hex.add_neighbors,
    Visualizer.offset_to_axial_map, Visualizer.axial_to_offset_map,
    Hex.offset_to_axial_map, Hex.axial_to_offset_map.
  by rewrite visualizer_coord_maps.
Qed.

Lemma visualizer_adjacency_map_by_coord :
  Visualizer.adjacency_map_by_coord radius min_r min_c
  = Hex.adjacency_map_by_coord radius min_r min_c.
Proof.
  unfold Visualizer.adjacency_map_by_coord, Hex.adjacency_map_by_coord.
  rewrite visualizer_valid_cells. unfold set_fold. simpl.
  apply foldr_ext; [|done|done]. intros cell adj. apply visualizer_add_neighbors.
Qed.

Lemma visualizer_sorted_coords :
  Visualizer.sorted_coords radius min_r min_c = Hex.sorted_coords radius min_r min_c.
Proof.
  unfold Visualizer.sorted_coords, Hex.sorted_coords. by rewrite visualizer_valid_cells.
Qed.

Lemma visualizer_coord_to_index :
  Visualizer.coord_to_index radius min_r min_c = Hex.coord_to_index radius min_r min_c.
Proof.
  unfold Visualizer.coord_to_index, Hex.coord_to_index. by rewrite visualizer_sorted_coords.
Qed.

Lemma visualizer_adj_map_indices :
  Visualizer.adj_map_indices radius min_r min_c = Hex.adj_map_indices radius min_r min_c.
Proof.
  unfold Visualizer.adj_map_indices, Hex.adj_map_indices.
  by rewrite visualizer_adjacency_map_by_coord, visualizer_coord_to_index.
Qed.
End VisualizerDetails.

(** X22: the visualizer enumerates the axial coordinates by a filter on
    the square, the backend by the range formula; for every radius the
    two give the same adjacency map. *)
Theorem visualizer_adjacency_agrees (radius : Z) :
  (Visualizer.generate_hexagon_board_details radius).1.1
  = Hex.get_hexagon_board_details radius.
Proof.
  unfold Visualizer.generate_hexagon_board_details, Hex.get_hexagon_board_details.
  rewrite visualizer_offset_coords.
  destruct (elements (Hex.offset_coords_unnormalized radius)) as [|c cs]; [done|].
  cbv zeta. simpl. apply visualizer_adj_map_indices.
Qed.

(** ** The rendering map *)

Lemma py_dict_enumerate_lookup `{Countable K} (l : list K) (k : K) (i : nat) :
  NoDup l → py_dict (zip l (seq 0 (length l))) !! k = Some i ↔ l !! i = Some k.
Proof.
  intros Hnd. rewrite py_dict_lookup.
  2:{ by rewrite fst_zip by (by rewrite length_seq). }
  rewrite list_elem_of_lookup. split.
  - intros (j & Hj). apply lookup_zip_with_Some in Hj as (c' & i' & [= <- <-] & Hc & Hi).
    apply lookup_seq in Hi as [-> _]. done.
  - intros Hi. exists i. apply lookup_zip_with_Some. exists k, i.
    split; [done|]. split; [done|]. apply lookup_seq. split; [done|].
    by eapply lookup_lt_Some.
Qed.

Lemma foldl_insert_py_dict `{Countable K} {V A} (f : A → K) (g : A → V) (l : list A) :
  foldl (λ d x, <[f x := g x]> d) (∅ : gmap K V) l = py_dict ((λ x, (f x, g x)) <$> l).
Proof. unfold py_dict. by rewrite foldl_fmap. Qed.

Section RenderMap.
Variables (radius min_r min_c : Z).

Abbreviation sorted := (Hex.sorted_coords radius min_r min_c).
Abbreviation index_of := (hex_index_of radius min_r min_c).
Abbreviation ucols := (Visualizer.unique_cols radius min_r min_c).

Lemma index_of_sorted : index_of <$> sorted = seq 0 (length sorted).
Proof.
  apply list_eq. intros i. rewrite list_lookup_fmap.
  destruct (sorted !! i) as [c|] eqn:Hc; simpl.
  - rewrite (index_of_lookup radius min_r min_c i c Hc).
    symmetry. apply lookup_seq. split; [done|]. by eapply lookup_lt_Some.
  - symmetry. apply lookup_ge_None. rewrite length_seq. by apply lookup_ge_None.
Qed.

Lemma lookup_render_map (i : nat) (v : nat * nat) :
  Visualizer.render_map radius min_r min_c !! i = Some v ↔
  ∃ rc, sorted !! i = Some rc
        ∧ v = (py_getitem (Visualizer.col_to_c_idx radius min_r min_c) rc.2,
               Visualizer.py_index rc.1
                 (py_getitem (Visualizer.rows_in_col radius min_r min_c) rc.2)).
Proof.
  unfold Visualizer.render_map. cbv zeta.
  rewrite visualizer_coord_to_index, visualizer_sorted_coords.
  rewrite (foldl_insert_py_dict
             (λ rc : Z * Z, py_getitem (Hex.coord_to_index radius min_r min_c) rc)
             (λ rc : Z * Z,
                (py_getitem (Visualizer.col_to_c_idx radius min_r min_c) rc.2,
                 Visualizer.py_index rc.1
                   (py_getitem (Visualizer.rows_in_col radius min_r min_c) rc.2)))).
  rewrite py_dict_lookup.
  2:{ rewrite <- list_fmap_compose.
      change (fst ∘ _) with index_of. rewrite index_of_sorted. apply NoDup_seq. }
  rewrite list_elem_of_fmap. split.
  - intros (rc & [= -> ->] & Hrc). exists rc. split; [|done].
    by apply lookup_index_of, elem_of_sorted_coords.
  - intros (rc & Hrc & ->). exists rc. split.
    + f_equal. symmetry. by apply (index_of_lookup radius min_r min_c).
    + by eapply list_elem_of_lookup_2.
Qed.

Lemma NoDup_unique_cols : NoDup ucols.
Proof.
  unfold Visualizer.unique_cols. rewrite merge_sort_Permutation. apply NoDup_elements.
Qed.

Lemma elem_of_unique_cols (c : Z) : c ∈ ucols ↔ ∃ rc, rc ∈ sorted ∧ rc.2 = c.
Proof.
  unfold Visualizer.unique_cols.
  rewrite merge_sort_Permutation, elem_of_elements, elem_of_list_to_set.
  rewrite visualizer_sorted_coords, list_elem_of_fmap. split.
  - intros (rc & -> & Hrc). by exists rc.
  - intros (rc & Hrc & <-). by exists rc.
Qed.

Lemma col_to_c_idx_lt (rc : Z * Z) :
  rc ∈ sorted →
  (py_getitem (Visualizer.col_to_c_idx radius min_r min_c) rc.2 < length ucols)%nat.
Proof.
  intros Hrc.
  assert (Hc : rc.2 ∈ ucols) by (apply elem_of_unique_cols; by exists rc).
  apply list_elem_of_lookup in Hc as [j Hj].
  unfold py_getitem, Visualizer.col_to_c_idx.
  rewrite (proj2 (py_dict_enumerate_lookup ucols rc.2 j NoDup_unique_cols) Hj).
  simpl. by eapply lookup_lt_Some.
Qed.

Lemma unique_cols_set :
  0 ≤ radius →
  (list_to_set (snd <$> Visualizer.sorted_coords radius min_r min_c) : gset Z)
  = list_to_set ((λ q, q - min_c) <$> seqZ (- radius) (2 * radius + 1)).
Proof.
  intros Hr. apply set_eq. intros c.
  rewrite !elem_of_list_to_set, visualizer_sorted_coords, !list_elem_of_fmap. split.
  - intros ([row col] & -> & Hrc). simpl.
    apply elem_of_sorted_coords, elem_of_valid_cells in Hrc as (a & Ha & Hno).
    exists a.1. injection Hno as _ ->. split; [done|].
    apply elem_of_axial_coords in Ha. apply elem_of_seqZ. lia.
  - intros (q & -> & Hq%elem_of_seqZ).
    exists (Hex.norm_offset min_r min_c (q, Z.max (- radius) (- q - radius))).
    split; [done|].
    apply elem_of_sorted_coords, elem_of_valid_cells. eexists. split; [|done].
    apply elem_of_axial_coords. simpl. lia.
Qed.

Lemma length_unique_cols : 0 ≤ radius → length ucols = Z.to_nat (2 * radius + 1).
Proof.
  intros Hr. unfold Visualizer.unique_cols.
  rewrite merge_sort_Permutation, unique_cols_set by done.
  change (length (elements ?X)) with (size X). rewrite size_list_to_set.
  - by rewrite length_fmap, length_seqZ.
  - apply NoDup_fmap_2; [|apply NoDup_seqZ]. intros q q' Hq. lia.
Qed.

Lemma col_to_c_idx_lookup (rc : Z * Z) :
  rc ∈ sorted →
  ucols !! py_getitem (Visualizer.col_to_c_idx radius min_r min_c) rc.2 = Some rc.2.
Proof.
  intros Hrc.
  assert (Hc : rc.2 ∈ ucols) by (apply elem_of_unique_cols; by exists rc).
  apply list_elem_of_lookup in Hc as [j Hj].
  unfold py_getitem, Visualizer.col_to_c_idx.
  by rewrite (proj2 (py_dict_enumerate_lookup ucols rc.2 j NoDup_unique_cols) Hj).
Qed.

Lemma py_index_lookup (x : Z) (l : list Z) :
  x ∈ l → l !! Visualizer.py_index x l = Some x.
Proof.
  intros Hx. unfold Visualizer.py_index.
  destruct (list_find_elem_of (λ y, y = x) l x Hx eq_refl) as [[i y] Hfind].
  rewrite Hfind. simpl. by apply list_find_Some in Hfind as (Hi & -> & _).
Qed.

Lemma rows_in_col_lookup (rc : Z * Z) :
  rc ∈ sorted →
  ∃ rows, py_getitem (Visualizer.rows_in_col radius min_r min_c) rc.2 = rows
          ∧ rc.1 ∈ rows.
Proof.
  intros Hrc. eexists. split; [done|].
  assert (Hc : rc.2 ∈ ucols) by (apply elem_of_unique_cols; by exists rc).
  set (F := λ c : Z, merge_sort Z.le
              (fst <$> filter (λ rc0 : Z * Z, rc0.2 = c)
                              (Visualizer.sorted_coords radius min_r min_c))).
  assert (Hlk : Visualizer.rows_in_col radius min_r min_c !! rc.2 = Some (F rc.2)).
  { unfold Visualizer.rows_in_col. apply py_dict_lookup.
    - rewrite <- list_fmap_compose. simpl. rewrite list_fmap_id. apply NoDup_unique_cols.
    - apply list_elem_of_fmap. by exists rc.2. }
  unfold py_getitem. rewrite Hlk. simpl. unfold F.
  rewrite merge_sort_Permutation, visualizer_sorted_coords.
  apply list_elem_of_fmap. exists rc. split; [done|].
  by apply list_elem_of_filter.
Qed.

Lemma render_map_inj (i j : nat) (v : nat * nat) :
  Visualizer.render_map radius min_r min_c !! i = Some v →
  Visualizer.render_map radius min_r min_c !! j = Some v → i = j.
Proof.
  intros (rc & Hrc & ->)%lookup_render_map (rc' & Hrc' & [= Hc Hr])%lookup_render_map.
  assert (Hin : rc ∈ sorted) by (by eapply list_elem_of_lookup_2).
  assert (Hin' : rc' ∈ sorted) by (by eapply list_elem_of_lookup_2).
  pose proof (col_to_c_idx_lookup rc Hin) as H1.
  pose proof (col_to_c_idx_lookup rc' Hin') as H1'.
  rewrite Hc, H1' in H1. injection H1 as Hcol.
  destruct (rows_in_col_lookup rc Hin) as (rows & Hrows & Hrow).
  destruct (rows_in_col_lookup rc' Hin') as (rows' & Hrows' & Hrow').
  rewrite Hcol in Hrows', Hr. rewrite Hrows in Hrows', Hr. subst rows'.
  pose proof (py_index_lookup rc.1 rows Hrow) as H2.
  pose proof (py_index_lookup rc'.1 rows Hrow') as H2'.
  rewrite Hr, H2' in H2. injection H2 as Hrow1.
  assert (rc = rc') as <-.
  { clear -Hcol Hrow1. destruct rc as [a b], rc' as [a' b'].
    cbn [fst snd] in Hcol, Hrow1. by subst. }
  eapply NoDup_lookup; [apply NoDup_sorted_coords | done | done].
Qed.
End RenderMap.

(** X23: for every radius, the visualizer reports [2 * radius + 1]
    columns (none for a negative radius), gives every tile of the
    adjacency map exactly one rendering slot, in a column below that
    number, and no two tiles the same slot. *)
Theorem visualizer_render_map_total (radius : Z) :
  let '(adj_map, render_map, num_cols) :=
    Visualizer.generate_hexagon_board_details radius in
  num_cols = Z.to_nat (2 * radius + 1)
  ∧ (∀ i, is_Some (render_map !! i) ↔ (i < size adj_map)%nat)
  ∧ (∀ i c r, render_map !! i = Some (c, r) → (c < num_cols)%nat)
  ∧ (∀ i j v, render_map !! i = Some v → render_map !! j = Some v → i = j).
Proof.
  unfold Visualizer.generate_hexagon_board_details.
  destruct (elements (Visualizer.offset_coords_unnormalized radius)) as [|c0 cs] eqn:Hel.
  - split; [|split; [|split]].
    + destruct (decide (0 ≤ radius)) as [Hr|]; [|lia]. exfalso.
      apply elements_empty_inv in Hel.
      unfold Visualizer.offset_coords_unnormalized in Hel.
      assert (Visualizer.axial_to_offset 0 0 ∈ (∅ : gset (Z * Z))) as []%not_elem_of_empty.
      rewrite <- Hel. apply elem_of_map. exists (0, 0). split; [done|].
      rewrite visualizer_axial_coords. apply elem_of_axial_coords. simpl. lia.
    + intros i. rewrite lookup_empty, map_size_empty. split; [by intros [? ?] | lia].
    + intros i c r. by rewrite lookup_empty.
    + intros i j v. by rewrite lookup_empty.
  - cbv zeta.
    set (mr := Hex.py_min c0.1 (fst <$> cs)). set (mc := Hex.py_min c0.2 (snd <$> cs)).
    assert (Hr : 0 ≤ radius).
    { destruct (decide (0 ≤ radius)) as [|Hneg]; [done|]. exfalso.
      assert (Hin : c0 ∈ Visualizer.offset_coords_unnormalized radius).
      { apply elem_of_elements. rewrite Hel. by left. }
      rewrite visualizer_offset_coords in Hin.
      unfold Hex.offset_coords_unnormalized in Hin.
      apply elem_of_map in Hin as (a & _ & Ha). apply elem_of_axial_coords in Ha. lia. }
    split; [|split; [|split]].
    + by apply length_unique_cols.
    + intros i. rewrite visualizer_adj_map_indices, size_adj_map_indices. split.
      * intros [v (rc & Hrc & _)%lookup_render_map]. by eapply lookup_lt_Some.
      * intros [rc Hrc]%lookup_lt_is_Some_2. eexists. apply lookup_render_map. by exists rc.
    + intros i c r (rc & Hrc & [= -> _])%lookup_render_map.
      apply col_to_c_idx_lt. by eapply list_elem_of_lookup_2.
    + apply render_map_inj.
Qed.
